(** * SimpleDatabase: a shallow embedding of MPD's "simple" database plugin

    Source: [src/db/plugins/simple/SimpleDatabasePlugin.cxx].

    The embedding follows the debug build of the plugin (NDEBUG undefined):
    every [assert] is executed and the [borrowed_song_count] field exists.
    A failed assertion, and the dereference of a null [root], end the run
    with the outcome [Abort].  C++ exceptions are the outcome [Raise]; the
    state they leave behind is kept, because the callers' [catch] blocks
    and the claims about rollback look at it.

    [ScopeDatabaseLock] guards a process-wide mutex.  The embedding is
    sequential, so taking and releasing it has no effect on the values
    computed here and it is left out. *)

From Stdlib Require Import String Ascii List Bool Arith ZArith Lia.
Import ListNotations.
Local Open Scope string_scope.
Local Open Scope list_scope.

Set Implicit Arguments.
Set Warnings "-register-all".

(** ** Characters and C strings *)

Module CharUtil.

Definition in_range (lo hi c : ascii) : bool :=
  Nat.leb (nat_of_ascii lo) (nat_of_ascii c)
  && Nat.leb (nat_of_ascii c) (nat_of_ascii hi).

(** Modelled from the spec: [util/CharUtil.hxx] is not among the
    translated sources; "alphanumeric" is read as the ASCII letters and
    digits, as the helper's name [IsAlphaNumericASCII] says. *)
Definition IsDigitASCII (ch : ascii) : bool := in_range "0" "9" ch.
Definition IsUpperAlphaASCII (ch : ascii) : bool := in_range "A" "Z" ch.
Definition IsLowerAlphaASCII (ch : ascii) : bool := in_range "a" "z" ch.
Definition IsAlphaASCII (ch : ascii) : bool :=
  IsUpperAlphaASCII ch || IsLowerAlphaASCII ch.
Definition IsAlphaNumericASCII (ch : ascii) : bool :=
  IsAlphaASCII ch || IsDigitASCII ch.

End CharUtil.

Module CString.

Definition slash : ascii := "/"%char.

(** [strchr(s, '/') != nullptr] *)
Fixpoint has_slash (s : string) : bool :=
  match s with
  | EmptyString => false
  | String c s' => Ascii.eqb c slash || has_slash s'
  end.

(** [*s == 0] *)
Definition is_empty (s : string) : bool :=
  match s with EmptyString => true | String _ _ => false end.

(** The slash-separated segments of a path; never the empty list. *)
Fixpoint segments (s : string) : list string :=
  match s with
  | EmptyString => [EmptyString]
  | String c s' =>
      if Ascii.eqb c slash then EmptyString :: segments s'
      else match segments s' with
           | [] => [String c EmptyString]
           | seg :: rest => String c seg :: rest
           end
  end.

(** Segments put back together with a slash between them. *)
Fixpoint join (segs : list string) : string :=
  match segs with
  | [] => EmptyString
  | [seg] => seg
  | seg :: rest => seg ++ String slash (join rest)
  end.

(** [std::replace_if(s.begin(), s.end(), pred, by)] *)
Fixpoint replace_if (pred : ascii -> bool) (by_ : ascii) (s : string) : string :=
  match s with
  | EmptyString => EmptyString
  | String c s' => String (if pred c then by_ else c) (replace_if pred by_ s')
  end.

(** All characters of a string satisfy a predicate. *)
Fixpoint all_chars (p : ascii -> bool) (s : string) : bool :=
  match s with
  | EmptyString => true
  | String c s' => p c && all_chars p s'
  end.

End CString.

Import CharUtil CString.

(** ** The name of a cache-backed mount (lines 404-426) *)

Definition IsSafeChar (ch : ascii) : bool :=
  IsAlphaNumericASCII ch
  || Ascii.eqb ch "-"%char || Ascii.eqb ch "_"%char || Ascii.eqb ch "%"%char.

Definition IsUnsafeChar (ch : ascii) : bool := negb (IsSafeChar ch).

(** [std::string name(storage_uri);
     std::replace_if(name.begin(), name.end(), IsUnsafeChar, '_');] *)
Definition cache_mount_name (storage_uri : string) : string :=
  replace_if IsUnsafeChar "_"%char storage_uri.

(** ** Exceptions and outcomes *)

(** Modelled from the spec: the error classes of [db/DatabaseError.hxx],
    which is not among the translated sources. *)
Inductive DatabaseErrorCode : Type :=
| DISABLED
| NOT_FOUND
| CONFLICT.

(** The exceptions the plugin throws or lets through.  [Nested outer
    inner] is [std::throw_with_nested].  Messages are given without the
    quotation marks the source puts around names. *)
Inductive Exception : Type :=
| DatabaseError (code : DatabaseErrorCode) (msg : string)
| RuntimeError (msg : string)
| ErrnoError (msg : string)
| SystemError (msg : string)
| Nested (outer inner : Exception).

(** The three ways a member function ends: it returns a value, it throws,
    or the debug build aborts on a failed assertion.  [S] is the state
    the call leaves behind. *)
Inductive Outcome (S A : Type) : Type :=
| Return (a : A) (s : S)
| Raise (e : Exception) (s : S)
| Abort.

Arguments Return {S A} a s.
Arguments Raise {S A} e s.
Arguments Abort {S A}.

Definition is_error_of {S A} (code : DatabaseErrorCode) (o : Outcome S A) : Prop :=
  exists msg s, o = Raise (DatabaseError code msg) s.

(** ** Songs and their exported views *)

Definition Tag : Type := list (string * string).

(** Modelled from the spec: [Song.hxx] is not among the translated
    sources.  A song entry has a name (the final path segment), a tag
    payload and an opaque reference to its storage location. *)
Record Song : Type := mkSong {
  song_uri : string;
  song_tag : Tag;
  song_storage : string
}.

(** Modelled from the spec: [LightSong.hxx] is not among the translated
    sources.  The externally visible view of a song. *)
Record LightSong : Type := mkLightSong {
  ls_uri : string;
  ls_tag : Tag;
  ls_storage : string
}.

(** Modelled from the spec: [Song::Export] is a read-only projection of
    the song entry. *)
Definition Export (song : Song) : LightSong :=
  {| ls_uri := song_uri song;
     ls_tag := song_tag song;
     ls_storage := song_storage song |}.

(** Modelled from the spec: [PrefixedLightSong.hxx] is not among the
    translated sources.  A copy of a light song that additionally carries
    a path prefix. *)
Record PrefixedLightSong : Type := mkPrefixedLightSong {
  pls_song : LightSong;
  pls_base : string
}.

(** A [PrefixedLightSong] seen as the [LightSong] it derives from: the
    song appears below the prefix. *)
Definition PrefixedLightSong_view (p : PrefixedLightSong) : LightSong :=
  {| ls_uri := join [pls_base p; ls_uri (pls_song p)];
     ls_tag := ls_tag (pls_song p);
     ls_storage := ls_storage (pls_song p) |}.

(** What a returned [const LightSong *] points to. *)
Inductive LightSongPtr : Type :=
| NullPtr
| SlotPtr      (* [&light_song.Get()], the reusable slot of the instance *)
| HeapPtr.     (* the heap-allocated [PrefixedLightSong] *)

(** ** The interface of a mounted database *)

(** Modelled from the spec: [db/Interface.hxx] is not among the
    translated sources; these are the two virtual functions this plugin
    calls on a [Database *].  [D] is the state of the implementing
    object.  The [const char *] argument of [db_GetSong] may be null
    ([None]); the result is the song the returned pointer refers to,
    [None] for [nullptr]. *)
Class Database (D : Type) : Type := {
  db_Close : D -> Outcome D unit;
  db_GetSong : D -> option string -> Outcome D (option LightSong)
}.

(** ** Directory nodes *)

(** Modelled from the spec: a playlist entry of a directory
    ([db/PlaylistInfo.hxx] is not among the translated sources). *)
Record PlaylistInfo : Type := mkPlaylistInfo {
  pl_name : string;
  pl_mtime : Z
}.

(** Modelled from the spec: [Directory.hxx] is not among the translated
    sources.  A node has a name (empty for the root), child directories,
    songs, playlists, a modification time and an optional mounted
    database instance of type [D]. *)
Inductive Directory (D : Type) : Type :=
  mkDirectory {
    name : string;
    children : list (Directory D);
    songs : list Song;
    playlists : list PlaylistInfo;
    dir_mtime : Z;
    mounted_database : option D
  }.

Arguments mkDirectory {D} name children songs playlists dir_mtime mounted_database.

(** A [Directory *] into the tree below a root: the child indices from
    the root down to the node. *)
Definition Location : Type := list nat.

Section DirectoryOps.

Context {D : Type}.

Definition NewRoot : Directory D :=
  mkDirectory EmptyString [] [] [] 0%Z None.

Definition IsMount (d : Directory D) : bool :=
  match mounted_database d with Some _ => true | None => false end.

Definition set_children (d : Directory D) (cs : list (Directory D)) : Directory D :=
  mkDirectory (name d) cs (songs d) (playlists d) (dir_mtime d) (mounted_database d).

Definition set_mounted_database (m : option D) (d : Directory D) : Directory D :=
  mkDirectory (name d) (children d) (songs d) (playlists d) (dir_mtime d) m.

(** Index and node of the first child satisfying [p]. *)
Fixpoint find_child_from (p : Directory D -> bool) (i : nat) (cs : list (Directory D))
  : option (nat * Directory D) :=
  match cs with
  | [] => None
  | c :: cs' => if p c then Some (i, c) else find_child_from p (S i) cs'
  end.

(** Modelled from the spec: the child directory with the given name. *)
Definition FindChild (d : Directory D) (n : string) : option (nat * Directory D) :=
  find_child_from (fun c => String.eqb (name c) n) 0 (children d).

(** Modelled from the spec: "looks up the song by exact name among the
    resolved directory's children". *)
Definition FindSong (d : Directory D) (n : string) : option Song :=
  find (fun s => String.eqb (song_uri s) n) (songs d).

(** The node a location points to. *)
Fixpoint dir_at (d : Directory D) (loc : Location) : option (Directory D) :=
  match loc with
  | [] => Some d
  | i :: loc' =>
      match nth_error (children d) i with
      | Some c => dir_at c loc'
      | None => None
      end
  end.

Fixpoint update_nth {A} (i : nat) (f : A -> A) (l : list A) : list A :=
  match l, i with
  | [], _ => []
  | x :: l', 0 => f x :: l'
  | x :: l', S i' => x :: update_nth i' f l'
  end.

Fixpoint remove_nth {A} (i : nat) (l : list A) : list A :=
  match l, i with
  | [], _ => []
  | _ :: l', 0 => l'
  | x :: l', S i' => x :: remove_nth i' l'
  end.

(** A write through a [Directory *]: the node at [loc] becomes [f] of
    itself, the rest of the tree is shared. *)
Fixpoint update_at (f : Directory D -> Directory D) (loc : Location) (d : Directory D)
  : Directory D :=
  match loc with
  | [] => f d
  | i :: loc' => set_children d (update_nth i (update_at f loc') (children d))
  end.

(** Modelled from the spec: [Directory::Delete] "deletes the directory
    node from its parent".  The root has no parent and stays. *)
Fixpoint Delete (loc : Location) (d : Directory D) : Directory D :=
  match loc with
  | [] => d
  | [i] => set_children d (remove_nth i (children d))
  | i :: loc' => set_children d (update_nth i (Delete loc') (children d))
  end.

(** Modelled from the spec: "a mounted sub-database is exclusively owned
    by the Directory Node that mounts it once the mount succeeds, until
    unmounted", and the tree is destroyed recursively.  The destructor of
    a node ([Directory.cxx], not among the translated sources) therefore
    destroys the instance the node still references and the nodes below
    it: these are the instances that go when the node goes. *)
Fixpoint owned (d : Directory D) : list D :=
  match mounted_database d with
  | Some db => [db]
  | None => []
  end ++ flat_map owned (children d).

(** The instances owned below a node, not counting its own mount. *)
Definition owned_below (d : Directory D) : list D :=
  flat_map owned (children d).

(** The instances destroyed when [Delete] disposes of the node at
    [loc]. *)
Definition Delete_disposes (loc : Location) (d : Directory D) : list D :=
  match loc with
  | [] => []
  | _ :: _ =>
      match dir_at d loc with
      | Some node => owned node
      | None => []
      end
  end.

(** Modelled from the spec: [Directory::CreateChild] "creates a new child
    directory node under the resolved parent named after the final
    segment".  The new node is appended; its index is returned with the
    parent. *)
Definition CreateChild (d : Directory D) (n : string) : Directory D * nat :=
  (set_children d (children d ++ [mkDirectory n [] [] [] 0%Z None]),
   length (children d)).

(** The names on the way from the root to a location. *)
Fixpoint names_along (d : Directory D) (loc : Location) : list string :=
  match loc with
  | [] => []
  | i :: loc' =>
      match nth_error (children d) i with
      | Some c => name c :: names_along c loc'
      | None => []
      end
  end.

(** Modelled from the spec: [Directory::GetPath], the path of a node
    relative to the root, empty for the root itself. *)
Definition GetPath (root : Directory D) (loc : Location) : string :=
  join (names_along root loc).

(** [Directory::LookupResult] *)
Record LookupResult : Type := mkLookupResult {
  directory : Directory D;
  location : Location;      (* where [directory] sits below the root *)
  uri : option string       (* the unconsumed remainder, [None] for [nullptr] *)
}.

(** Walks down from [d], one path segment per child directory. *)
Fixpoint walk (d : Directory D) (loc : Location) (segs : list string) : LookupResult :=
  match segs with
  | [] => mkLookupResult d loc None
  | seg :: rest =>
      if IsMount d then mkLookupResult d loc (Some (join segs))
      else match FindChild d seg with
           | None => mkLookupResult d loc (Some (join segs))
           | Some (i, c) => walk c (loc ++ [i]) rest
           end
  end.

(** Modelled from the spec: the path resolver of section 4.1
    ([Directory::LookupDirectory], not among the translated sources).  It
    returns the deepest directory reachable by consuming path segments as
    child-directory names and the unconsumed remainder; it stops the
    moment it reaches a mount point; the empty path resolves to the root
    with no remainder. *)
Definition LookupDirectory (root : Directory D) (u : string) : LookupResult :=
  if is_empty u then mkLookupResult root [] None
  else walk root [] (segments u).

End DirectoryOps.

Arguments LookupResult D : clear implicits.

Section Descent.

Context {D : Type}.

(** The way a lookup goes down: from [d], the segments [segs] are the
    names of the child directories at the indices [loc], none of the
    nodes left behind is a mount point, and the node reached is [dd]. *)
Fixpoint descends (d : Directory D) (segs : list string) (loc : Location)
  (dd : Directory D) : Prop :=
  match segs, loc with
  | [], [] => dd = d
  | seg :: segs', i :: loc' =>
      IsMount d = false
      /\ exists c, FindChild d seg = Some (i, c) /\ descends c segs' loc' dd
  | _, _ => False
  end.

(** The node that [Mount] appends to the resolved parent, and the parent
    with it. *)
Definition mount_node (n : string) (db : D) : Directory D :=
  mkDirectory n [] [] [] 0%Z (Some db).

Definition with_mount (n : string) (db : D) (d : Directory D) : Directory D :=
  set_children d (children d ++ [mount_node n db]).

(** The spec's invariant on a node: no two child directories have the
    same name. *)
Definition unique_child_names (d : Directory D) : Prop :=
  NoDup (map (@name D) (children d)).

(** The same for every node below a root. *)
Definition unique_names (rt : Directory D) : Prop :=
  forall loc d, dir_at rt loc = Some d -> unique_child_names d.

End Descent.

(** ** The environment of the plugin *)

(** Compile-time configuration that changes what the translated
    functions do. *)
Record Build : Type := mkBuild {
  ENABLE_ZLIB : bool;
  WIN32 : bool
}.

(** Modelled from the spec: the three settings of section 6 that the
    constructor reads from its [ConfigBlock]. *)
Record ConfigBlock : Type := mkConfigBlock {
  block_path : option string;
  block_compress : option bool;
  block_cache_directory : option string
}.

(** Modelled from the spec: what the plugin asks of a [FileInfo]
    ([fs/FileInfo.hxx] is not among the translated sources). *)
Record FileInfo : Type := mkFileInfo {
  IsRegular : bool;
  IsDirectory : bool;
  GetModificationTime : Z
}.

Inductive AccessMode : Type := R_OK | W_OK | X_OK.

(** The outcome of reading the database file into a fresh root:
    [TextFile file(path); db_load_internal(file, *root)].  A failure
    leaves whatever part of the tree had been built. *)
Inductive LoadResult (D : Type) : Type :=
| Loaded (tree : Directory D)
| LoadFailed (e : Exception) (partial : Directory D).

Arguments Loaded {D} tree.
Arguments LoadFailed {D} e partial.

(** Modelled from the spec: the storage layer and the tree decoder of
    section 6, as the plugin calls them.
    [FileInfo_of] is the throwing constructor [FileInfo(path)];
    [GetFileInfo(path, fi)] succeeds exactly when it does. *)
Record Environment (D : Type) : Type := mkEnvironment {
  PathExists : string -> bool;
  FileInfo_of : string -> Exception + FileInfo;
  CheckAccess : string -> list AccessMode -> bool;
  GetDirectoryName : string -> string;
  db_load_internal : string -> Directory D -> LoadResult D
}.

(** [std::chrono::system_clock::time_point::min()] *)
Definition time_point_min : Z := (- 2 ^ 63)%Z.

(** [AllocatedPath::Build(a, b)] *)
Definition Build_path (a b : string) : string := join [a; b].

(** ** The database object *)

(** The data members, as the constructors and the member functions use
    them.  A null [AllocatedPath] and a null pointer are [None];
    [light_song] is the [Manual<LightSong>] slot, [None] while
    destructed. *)
Record SimpleDatabase (D : Type) : Type := mkSimpleDatabase {
  path : option string;
  path_utf8 : string;
  compress : bool;
  cache_path : option string;
  root : option (Directory D);
  mtime : Z;
  prefixed_light_song : option PrefixedLightSong;
  light_song : option LightSong;
  borrowed_song_count : nat
}.

(** The creation, opening, closing and destruction of a database
    instance, in the order they happen. *)
Inductive Lifecycle (D : Type) : Type :=
| Constructed (d : D)
| Opened (d : D)
| Closed (d : D)
| Destroyed (d : D).

Section Plugin.

Context {D : Type} `{Database D}.

Variable build : Build.

Definition set_root (r : option (Directory D)) (st : SimpleDatabase D) : SimpleDatabase D :=
  mkSimpleDatabase (path st) (path_utf8 st) (compress st) (cache_path st)
    r (mtime st) (prefixed_light_song st) (light_song st) (borrowed_song_count st).

Definition set_mtime (t : Z) (st : SimpleDatabase D) : SimpleDatabase D :=
  mkSimpleDatabase (path st) (path_utf8 st) (compress st) (cache_path st)
    (root st) t (prefixed_light_song st) (light_song st) (borrowed_song_count st).

Definition set_prefixed_light_song (p : option PrefixedLightSong) (st : SimpleDatabase D)
  : SimpleDatabase D :=
  mkSimpleDatabase (path st) (path_utf8 st) (compress st) (cache_path st)
    (root st) (mtime st) p (light_song st) (borrowed_song_count st).

Definition set_light_song (l : option LightSong) (st : SimpleDatabase D) : SimpleDatabase D :=
  mkSimpleDatabase (path st) (path_utf8 st) (compress st) (cache_path st)
    (root st) (mtime st) (prefixed_light_song st) l (borrowed_song_count st).

Definition set_borrowed_song_count (n : nat) (st : SimpleDatabase D) : SimpleDatabase D :=
  mkSimpleDatabase (path st) (path_utf8 st) (compress st) (cache_path st)
    (root st) (mtime st) (prefixed_light_song st) (light_song st) n.

(** Lines 56-69.  The members the constructor leaves uninitialised
    ([root], [mtime], [borrowed_song_count]) get a null root, the minimal
    time and zero. *)
Definition SimpleDatabase_of_block (block : ConfigBlock) : Exception + SimpleDatabase D :=
  match block_path block with
  | None => inl (RuntimeError "No path parameter specified")
  | Some p =>
      inr (mkSimpleDatabase (Some p) p
             (if ENABLE_ZLIB build
              then match block_compress block with Some b => b | None => true end
              else false)
             (block_cache_directory block)
             None time_point_min None None 0)
  end.

(** Lines 71-84. *)
Definition SimpleDatabase_of_path (_path : option string) (_compress : bool) : SimpleDatabase D :=
  mkSimpleDatabase _path
    (match _path with Some p => p | None => EmptyString end)
    (if ENABLE_ZLIB build then _compress else false)
    None
    None time_point_min None None 0.

Section WithEnvironment.

Variable env : Environment D.

(** Lines 94-145. *)
Definition Check (st : SimpleDatabase D) : Outcome (SimpleDatabase D) unit :=
  match path st with
  | None => Abort
  | Some p =>
      if negb (PathExists env p) then
        let dirPath := GetDirectoryName env p in
        match FileInfo_of env dirPath with
        | inl e => Raise (Nested (RuntimeError "On parent directory of db file") e) st
        | inr fi =>
            if negb (IsDirectory fi) then
              Raise (RuntimeError ("Couldn't create db file " ++ path_utf8 st
                                   ++ " because the parent path is not a directory")) st
            else if negb (WIN32 build) && negb (CheckAccess env dirPath [X_OK; W_OK]) then
              Raise (ErrnoError ("Can't create db file in " ++ dirPath)) st
            else Return tt st
        end
      else
        match FileInfo_of env p with
        | inl e => Raise e st
        | inr fi =>
            if negb (IsRegular fi) then
              Raise (RuntimeError ("db file " ++ path_utf8 st ++ " is not a regular file")) st
            else if negb (WIN32 build) && negb (CheckAccess env p [R_OK; W_OK]) then
              Raise (ErrnoError ("Can't open db file " ++ path_utf8 st
                                 ++ " for reading/writing")) st
            else Return tt st
        end
  end.

(** Lines 147-162. *)
Definition Load (st : SimpleDatabase D) : Outcome (SimpleDatabase D) unit :=
  match path st, root st with
  | None, _ => Abort
  | Some _, None => Abort
  | Some p, Some r =>
      match db_load_internal env p r with
      | LoadFailed e partial => Raise e (set_root (Some partial) st)
      | Loaded tree =>
          let st1 := set_root (Some tree) st in
          match FileInfo_of env p with
          | inr fi => Return tt (set_mtime (GetModificationTime fi) st1)
          | inl _ => Return tt st1
          end
      end
  end.

(** Lines 164-187.  [delete root] leaves a pointer that must not be used;
    it is modelled as the null root. *)
Definition Open (st : SimpleDatabase D) : Outcome (SimpleDatabase D) unit :=
  match prefixed_light_song st with
  | Some _ => Abort
  | None =>
      let st1 := set_borrowed_song_count 0
                   (set_mtime time_point_min (set_root (Some NewRoot) st)) in
      match Load st1 with
      | Return _ st2 => Return tt st2
      | Abort => Abort
      | Raise _ st2 =>
          let st3 := set_root None st2 in
          match Check st3 with
          | Return _ st4 => Return tt (set_root (Some NewRoot) st4)
          | Raise e st4 => Raise e st4
          | Abort => Abort
          end
      end
  end.

End WithEnvironment.

(** Lines 189-197. *)
Definition Close (st : SimpleDatabase D) : Outcome (SimpleDatabase D) unit :=
  match root st, prefixed_light_song st, borrowed_song_count st with
  | Some _, None, 0 => Return tt (set_root None st)
  | _, _, _ => Abort
  end.

Definition not_found {A} (msg : string) (st : SimpleDatabase D) : Outcome (SimpleDatabase D) A :=
  Raise (DatabaseError NOT_FOUND msg) st.

(** Lines 199-247. *)
Definition GetSong (st : SimpleDatabase D) (u : string)
  : Outcome (SimpleDatabase D) LightSongPtr :=
  match root st, prefixed_light_song st, borrowed_song_count st with
  | Some rt, None, 0 =>
      let r := LookupDirectory rt u in
      match mounted_database (directory r) with
      | Some db =>
          (* pass the request to the mounted database *)
          match db_GetSong db (uri r) with
          | Abort => Abort
          | Raise e db' =>
              Raise e (set_root (Some (update_at (set_mounted_database (Some db'))
                                         (location r) rt)) st)
          | Return song db' =>
              let st1 := set_root (Some (update_at (set_mounted_database (Some db'))
                                           (location r) rt)) st in
              match song with
              | None => Return NullPtr st1
              | Some song =>
                  Return HeapPtr
                    (set_prefixed_light_song
                       (Some (mkPrefixedLightSong song (GetPath rt (location r)))) st1)
              end
          end
      | None =>
          match uri r with
          | None => (* it's a directory *) not_found "No such song" st
          | Some rest =>
              if has_slash rest then
                (* refers to a URI "below" the actual song *)
                not_found "No such song" st
              else
                match FindSong (directory r) rest with
                | None => not_found "No such song" st
                | Some song =>
                    Return SlotPtr
                      (set_borrowed_song_count (S (borrowed_song_count st))
                         (set_light_song (Some (Export song)) st))
                end
          end
      end
  | _, _, _ => Abort
  end.

(** The entry assertions of [GetSong] on the borrow state: no prefixed
    wrapper is allocated and no direct borrow is counted. *)
Definition ready (st : SimpleDatabase D) : Prop :=
  prefixed_light_song st = None /\ borrowed_song_count st = 0.

(** Lines 249-266.  [song == prefixed_light_song] holds for the heap
    pointer exactly while a wrapper is allocated. *)
Definition ReturnSong (st : SimpleDatabase D) (song : LightSongPtr)
  : Outcome (SimpleDatabase D) unit :=
  match song, prefixed_light_song st with
  | NullPtr, _ => Abort
  | HeapPtr, None => Abort
  | _, Some _ => Return tt (set_prefixed_light_song None st)
  | SlotPtr, None =>
      match borrowed_song_count st with
      | 0 => Abort
      | S n => Return tt (set_light_song None (set_borrowed_song_count n st))
      end
  end.

(** What a pointer returned by [GetSong] refers to. *)
Definition deref (st : SimpleDatabase D) (p : LightSongPtr) : option LightSong :=
  match p with
  | NullPtr => None
  | SlotPtr => light_song st
  | HeapPtr => option_map PrefixedLightSong_view (prefixed_light_song st)
  end.

(** Lines 379-402. *)
Definition Mount (st : SimpleDatabase D) (u : string) (db : D)
  : Outcome (SimpleDatabase D) unit :=
  if is_empty u then Abort
  else match root st with
       | None => Abort
       | Some rt =>
           let r := LookupDirectory rt u in
           match uri r with
           | None => Raise (DatabaseError CONFLICT "Already exists") st
           | Some rest =>
               if has_slash rest then
                 Raise (DatabaseError NOT_FOUND "Parent not found") st
               else
                 let rt1 := update_at (fun d => fst (CreateChild d rest)) (location r) rt in
                 let mnt := location r ++ [snd (CreateChild (directory r) rest)] in
                 Return tt (set_root (Some (update_at (set_mounted_database (Some db))
                                              mnt rt1)) st)
           end
       end.

(** Lines 452-466.  The second component records the instances that the
    deletion of line 463 destroys along with the node: the node's own
    mount is not among them, because line 462 has taken it off the node
    first. *)
Definition LockUmountSteal (st : SimpleDatabase D) (u : string)
  : Outcome (SimpleDatabase D) (option D) * list (Lifecycle D) :=
  match root st with
  | None => (Abort, [])
  | Some rt =>
      let r := LookupDirectory rt u in
      match uri r, mounted_database (directory r) with
      | None, Some db =>
          let rt1 := update_at (set_mounted_database None) (location r) rt in
          (Return (Some db) (set_root (Some (Delete (location r) rt1)) st),
           map (@Destroyed D) (Delete_disposes (location r) rt1))
      | _, _ => (Return None st, [])
      end
  end.

(** Lines 468-478.  The second component records what happens to the
    instances involved, the detached one last. *)
Definition Unmount (st : SimpleDatabase D) (u : string)
  : Outcome (SimpleDatabase D) bool * list (Lifecycle D) :=
  match LockUmountSteal st u with
  | (Abort, _) => (Abort, [])
  | (Raise e st', log) => (Raise e st', log)
  | (Return None st', log) => (Return false st', log)
  | (Return (Some db) st', log) =>
      match db_Close db with
      | Abort => (Abort, [])
      | Raise e db' => (Raise e st', log)
      | Return _ db' => (Return true st', log ++ [Closed db'; Destroyed db'])
      end
  end.

End Plugin.

(** A [SimpleDatabase] behind a [Database *].  A null URI reaches
    [root->LookupDirectory(nullptr)], which reads through the null
    pointer. *)
#[export] Instance SimpleDatabase_Database {D : Type} `{Database D}
  : Database (SimpleDatabase D) := {|
  db_Close := Close;
  db_GetSong := fun st u =>
    match u with
    | None => Abort
    | Some u =>
        match GetSong st u with
        | Return p st' => Return (deref st' p) st'
        | Raise e st' => Raise e st'
        | Abort => Abort
        end
    end
|}.

(** ** Mounting a cache-backed database (lines 416-450) *)

Section CacheMount.

(** The new instance mounts databases of type [D0]; [upcast] is the
    conversion from [SimpleDatabase *] to the [Database *] that the host
    stores in its tree. *)
Context {D0 D : Type} `{Database D0} `{Database D}.

Variable build : Build.
Variable env : Environment D0.
Variable upcast : SimpleDatabase D0 -> D.

(** [AllocatedPath::FromUTF8Throw] is applied to a sanitised name, which
    is plain ASCII, and is taken to succeed. *)
Definition Mount_cache (st : SimpleDatabase D) (local_uri storage_uri : string)
  : Outcome (SimpleDatabase D) unit * list (Lifecycle (SimpleDatabase D0)) :=
  match cache_path st with
  | None => (Raise (DatabaseError NOT_FOUND "No 'cache_directory' configured") st, [])
  | Some cp =>
      let name_fs := cache_mount_name storage_uri in
      let db := SimpleDatabase_of_path build (Some (Build_path cp name_fs))
                  (if ENABLE_ZLIB build then compress st else false) in
      match Open build env db with
      | Abort => (Abort, [Constructed db])
      | Raise e db1 => (Raise e st, [Constructed db; Destroyed db1])
      | Return _ db1 =>
          match Mount st local_uri (upcast db1) with
          | Return _ st' => (Return tt st', [Constructed db; Opened db1])
          | Abort => (Abort, [Constructed db; Opened db1])
          | Raise e st' =>
              match Close db1 with
              | Return _ db2 =>
                  (Raise e st', [Constructed db; Opened db1; Closed db2; Destroyed db2])
              | Raise e' db2 => (Raise e' st', [Constructed db; Opened db1])
              | Abort => (Abort, [Constructed db; Opened db1])
              end
          end
      end
  end.

End CacheMount.

(** ** Visit (lines 268-316) *)

(** Modelled from the spec: the light view of a directory
    ([db/LightDirectory.hxx] is not among the translated sources). *)
Record LightDirectory : Type := mkLightDirectory {
  ld_uri : string;
  ld_mtime : Z
}.

(** Modelled from the spec: a selection is a path, a recursion flag and
    a filter predicate ([db/Selection.hxx] is not among the translated
    sources); [Match] applies the filter. *)
Record DatabaseSelection : Type := mkDatabaseSelection {
  sel_uri : string;
  recursive : bool;
  filter : LightSong -> bool
}.

Definition Match (selection : DatabaseSelection) (song : LightSong) : bool :=
  filter selection song.

(** A call of one of the caller's visitor callbacks. *)
Inductive VisitEvent : Type :=
| VisitedDirectory (d : LightDirectory)
| VisitedSong (s : LightSong)
| VisitedPlaylist (p : PlaylistInfo) (d : LightDirectory).

(** A visitor is an optional callback ([std::function], possibly empty);
    when called it returns or throws. *)
Definition Visitor (A : Type) : Type := option (A -> option Exception).

Definition VisitDirectory : Type := Visitor LightDirectory.
Definition VisitSong : Type := Visitor LightSong.
Definition VisitPlaylist : Type := Visitor (PlaylistInfo * LightDirectory).

(** The state a visit threads is the list of callback calls made so far. *)
Definition VisitOutcome : Type := Outcome (list VisitEvent) unit.

Definition call_visitor {A} (f : A -> option Exception) (ev : A -> VisitEvent) (a : A)
  (log : list VisitEvent) : VisitOutcome :=
  match f a with
  | None => Return tt (log ++ [ev a])
  | Some e => Raise e (log ++ [ev a])
  end.

(** The callback calls a visit has made. *)
Definition visit_log (o : VisitOutcome) : list VisitEvent :=
  match o with
  | Return _ log => log
  | Raise _ log => log
  | Abort => []
  end.

Section Visit.

Context {D : Type}.

(** [Directory::Walk] and [WalkMount] are defined in files that are not
    among the translated sources; [Visit] is translated over any two
    functions of their types. *)
Variable Walk : Directory D -> Location -> bool -> (LightSong -> bool) ->
                VisitDirectory -> VisitSong -> VisitPlaylist ->
                list VisitEvent -> VisitOutcome.
Variable WalkMount : string -> D -> string -> bool -> (LightSong -> bool) ->
                     VisitDirectory -> VisitSong -> VisitPlaylist ->
                     list VisitEvent -> VisitOutcome.

(** Modelled from the spec: [Directory::Export], the light view of a
    directory node: its path and modification time. *)
Definition Export_directory (rt : Directory D) (r : LookupResult D) : LightDirectory :=
  mkLightDirectory (GetPath rt (location r)) (dir_mtime (directory r)).

Definition Visit (st : SimpleDatabase D) (selection : DatabaseSelection)
  (visit_directory : VisitDirectory) (visit_song : VisitSong)
  (visit_playlist : VisitPlaylist) : VisitOutcome :=
  match root st with
  | None => Abort
  | Some rt =>
      let r := LookupDirectory rt (sel_uri selection) in
      match mounted_database (directory r) with
      | Some db =>
          (* pass the request and the remaining uri to the mounted database *)
          WalkMount (GetPath rt (location r)) db
            (match uri r with None => EmptyString | Some u => u end)
            (recursive selection) (filter selection)
            visit_directory visit_song visit_playlist []
      | None =>
          match uri r with
          | None =>
              (* it's a directory *)
              let first :=
                match recursive selection, visit_directory with
                | true, Some f => call_visitor f VisitedDirectory (Export_directory rt r) []
                | _, _ => Return tt []
                end in
              match first with
              | Return _ log =>
                  Walk rt (location r) (recursive selection) (filter selection)
                    visit_directory visit_song visit_playlist log
              | other => other
              end
          | Some rest =>
              let no_such_directory : VisitOutcome :=
                Raise (DatabaseError NOT_FOUND "No such directory") [] in
              if negb (has_slash rest) then
                match visit_song with
                | Some f =>
                    match FindSong (directory r) rest with
                    | Some song =>
                        let song2 := Export song in
                        if Match selection song2
                        then call_visitor f VisitedSong song2 []
                        else Return tt []
                    | None => no_such_directory
                    end
                | None => no_such_directory
                end
              else no_such_directory
          end
      end
  end.

End Visit.

(** ** Save (lines 332-377) *)

(** The steps of [Save] that can throw. *)
Inductive SaveStep : Type :=
| OpenFile       (* [FileOutputStream fos(path)] *)
| StartGzip      (* [new GzipOutputStream( *os)] *)
| WriteTree      (* [db_save_internal(bos, *root)] *)
| FlushBuffer    (* [bos.Flush()] *)
| FlushGzip      (* [gzip->Flush()] *)
| CommitFile.    (* [fos.Commit()] *)

(** What [Save] has done to the file, in the order it happened. *)
Inductive SaveEvent (D : Type) : Type :=
| Created (p : string)
| GzipStarted
| Written (tree : Directory D)
| BufferFlushed
| GzipFlushed
| Committed (p : string).

Arguments Created {D} p.
Arguments GzipStarted {D}.
Arguments Written {D} tree.
Arguments BufferFlushed {D}.
Arguments GzipFlushed {D}.
Arguments Committed {D} p.

(** Modelled from the spec: the output streams ([fs/io/*.hxx]) and the
    tree encoder are not among the translated sources.  [throws] says
    which step throws what; [info_after_commit] is the answer of
    [GetFileInfo(path, fi)] on the committed file. *)
Record SaveIO : Type := mkSaveIO {
  throws : SaveStep -> option Exception;
  info_after_commit : option FileInfo
}.

Section Save.

Context {D : Type}.

Variable build : Build.

(** [Directory::PruneEmpty] and [Directory::Sort] are defined in a file
    that is not among the translated sources; [Save] is translated over
    any two functions of their type. *)
Variable PruneEmpty : Directory D -> Directory D.
Variable Sort : Directory D -> Directory D.

Variable io : SaveIO.

(** The optional compressing stage: present when zlib is compiled in and
    [compress] is set. *)
Definition uses_gzip (st : SimpleDatabase D) : bool :=
  ENABLE_ZLIB build && compress st.

Definition Save (st : SimpleDatabase D)
  : Outcome (SimpleDatabase D) unit * list (SaveEvent D) :=
  match root st, path st with
  | Some rt, Some p =>
      (* removing empty directories from DB; sorting DB *)
      let rt1 := Sort (PruneEmpty rt) in
      let st1 := set_root (Some rt1) st in
      (* writing DB *)
      match throws io OpenFile with
      | Some e => (Raise e st1, [])
      | None =>
      let log1 := [Created p] in
      match (if uses_gzip st then throws io StartGzip else None) with
      | Some e => (Raise e st1, log1)
      | None =>
      let log2 := log1 ++ (if uses_gzip st then [GzipStarted] else []) in
      match throws io WriteTree with
      | Some e => (Raise e st1, log2)
      | None =>
      let log3 := log2 ++ [Written rt1] in
      match throws io FlushBuffer with
      | Some e => (Raise e st1, log3)
      | None =>
      let log4 := log3 ++ [BufferFlushed] in
      match (if uses_gzip st then throws io FlushGzip else None) with
      | Some e => (Raise e st1, log4)
      | None =>
      let log5 := log4 ++ (if uses_gzip st then [GzipFlushed] else []) in
      match throws io CommitFile with
      | Some e => (Raise e st1, log5)
      | None =>
      let log6 := log5 ++ [Committed p] in
      match info_after_commit io with
      | Some fi => (Return tt (set_mtime (GetModificationTime fi) st1), log6)
      | None => (Return tt st1, log6)
      end end end end end end end
  | _, _ => (Abort, [])
  end.

End Save.

(** ** Sequences of calls on an open database *)

(** The calls a client makes on an opened database. *)
Inductive Request (D : Type) : Type :=
| ReqGetSong (u : string)
| ReqReturnSong (song : LightSongPtr)
| ReqMount (u : string) (db : D)
| ReqUnmount (u : string)
| ReqClose.

Arguments ReqGetSong {D} u.
Arguments ReqReturnSong {D} song.
Arguments ReqMount {D} u db.
Arguments ReqUnmount {D} u.
Arguments ReqClose {D}.

(** The state a call leaves behind; none after an abort. *)
Definition state_after {S A} (o : Outcome S A) : option S :=
  match o with
  | Return _ s => Some s
  | Raise _ s => Some s
  | Abort => None
  end.

Section Requests.

Context {D : Type} `{Database D}.

(** The root of a database is a plain directory: mount points are only
    ever created below it. *)
Definition root_plain (st : SimpleDatabase D) : Prop :=
  match root st with
  | Some rt => IsMount rt = false
  | None => True
  end.

(** At most one query result of either kind is outstanding, and the
    slot is constructed exactly while a direct borrow is counted. *)
Definition one_borrow (st : SimpleDatabase D) : Prop :=
  (match prefixed_light_song st with Some _ => 1 | None => 0 end)
  + borrowed_song_count st <= 1
  /\ (light_song st = None <-> borrowed_song_count st = 0).

Definition step (st : SimpleDatabase D) (req : Request D) : option (SimpleDatabase D) :=
  match req with
  | ReqGetSong u => state_after (GetSong st u)
  | ReqReturnSong song => state_after (ReturnSong st song)
  | ReqMount u db => state_after (Mount st u db)
  | ReqUnmount u => state_after (fst (Unmount st u))
  | ReqClose => state_after (Close st)
  end.

Fixpoint run (st : SimpleDatabase D) (reqs : list (Request D)) : option (SimpleDatabase D) :=
  match reqs with
  | [] => Some st
  | req :: reqs' =>
      match step st req with
      | Some st' => run st' reqs'
      | None => None
      end
  end.

End Requests.

(** ** Example databases

    Small concrete instances on which the statements below are run. *)

Module Fixture.

(** Another plugin behind the [Database] interface: a flat table of
    songs.  Its [GetSong] answers [nullptr] for a URI it does not know. *)
Record TableDatabase : Type := mkTableDatabase {
  table : list (string * LightSong)
}.

Definition table_lookup (t : TableDatabase) (u : option string) : option LightSong :=
  match u with
  | None => None
  | Some u => option_map snd (find (fun e => String.eqb (fst e) u) (table t))
  end.

#[export] Instance TableDatabase_Database : Database TableDatabase := {|
  db_Close := fun t => Return tt t;
  db_GetSong := fun t u => Return (table_lookup t u) t
|}.

Definition build0 : Build := mkBuild true false.

Definition song_b : Song := mkSong "b.mp3" [("Title", "B")] "music/a/b.mp3".
Definition song_x : LightSong := mkLightSong "x.ogg" [("Title", "X")] "http://radio/x.ogg".

Definition radio : TableDatabase := mkTableDatabase [("x.ogg", song_x)].

(** The tree [a/b.mp3], [a/c] (a plain directory), [radio] and [a/net]
    (two mounts of the table database). *)
Definition dir_c : Directory TableDatabase :=
  mkDirectory "c" [] [] [] 0%Z None.
Definition dir_net : Directory TableDatabase :=
  mkDirectory "net" [] [] [] 0%Z (Some radio).
Definition dir_a : Directory TableDatabase :=
  mkDirectory "a" [dir_c; dir_net] [song_b] [] 0%Z None.
Definition dir_radio : Directory TableDatabase :=
  mkDirectory "radio" [] [] [] 0%Z (Some radio).
Definition tree0 : Directory TableDatabase :=
  mkDirectory EmptyString [dir_a; dir_radio] [] [] 0%Z None.

(** An open database over [tree0] with nothing borrowed. *)
Definition db0 : SimpleDatabase TableDatabase :=
  mkSimpleDatabase (Some "/var/db") "/var/db" true (Some "/cache")
    (Some tree0) 0%Z None None 0.

(** A file system on which the database file is missing and its parent
    directory is writable; reading the file fails. *)
Definition env_fresh (D : Type) : Environment D :=
  mkEnvironment
    (fun _ => false)
    (fun _ => inr (mkFileInfo false true 0%Z))
    (fun _ _ => true)
    (fun _ => "/cache")
    (fun _ r => LoadFailed (SystemError "Failed to open file") r).

(** A file system on which nothing exists and nothing can be inspected. *)
Definition env_broken (D : Type) : Environment D :=
  mkEnvironment
    (fun _ => false)
    (fun _ => inl (SystemError "Failed to access"))
    (fun _ _ => false)
    (fun _ => "/cache")
    (fun _ r => LoadFailed (SystemError "Failed to open file") r).

(** A file system on which the database file is a readable and writable
    regular file that decodes to [tree0]. *)
Definition env_loaded : Environment TableDatabase :=
  mkEnvironment
    (fun _ => true)
    (fun _ => inr (mkFileInfo true false 42%Z))
    (fun _ _ => true)
    (fun _ => "/var")
    (fun _ _ => Loaded tree0).

(** A database object as the constructor leaves it, before [Open]. *)
Definition db_new : SimpleDatabase TableDatabase :=
  SimpleDatabase_of_path build0 (Some "/var/db") true.

(** A host whose mounts are themselves simple databases, with a cache
    directory configured and one plain directory [music]. *)
Definition host : SimpleDatabase (SimpleDatabase TableDatabase) :=
  mkSimpleDatabase (Some "/var/db") "/var/db" true (Some "/cache")
    (Some (mkDirectory EmptyString
             [mkDirectory "music" [] [] [] 0%Z None] [] [] 0%Z None))
    0%Z None None 0.

(** The same host without a cache directory. *)
Definition host_no_cache : SimpleDatabase (SimpleDatabase TableDatabase) :=
  mkSimpleDatabase (Some "/var/db") "/var/db" true None
    (Some NewRoot) 0%Z None None 0.

(** A host with the open database [db0] mounted at [usb]. *)
Definition host_usb : SimpleDatabase (SimpleDatabase TableDatabase) :=
  mkSimpleDatabase (Some "/var/db") "/var/db" true (Some "/cache")
    (Some (mkDirectory EmptyString
             [mkDirectory "usb" [] [] [] 0%Z (Some db0)] [] [] 0%Z None))
    0%Z None None 0.

(** Stand-ins for [Directory::Walk] and [WalkMount] that visit nothing. *)
Definition walk_nothing (_ : Directory TableDatabase) (_ : Location) (_ : bool)
    (_ : LightSong -> bool) (_ : VisitDirectory) (_ : VisitSong)
    (_ : VisitPlaylist) (log : list VisitEvent) : VisitOutcome :=
  Return tt log.
Definition walk_mount_nothing (_ : string) (_ : TableDatabase) (_ : string)
    (_ : bool) (_ : LightSong -> bool) (_ : VisitDirectory) (_ : VisitSong)
    (_ : VisitPlaylist) (log : list VisitEvent) : VisitOutcome :=
  Return tt log.

(** A selection of the song [a/b.mp3] that accepts every song, and a song
    visitor that returns. *)
Definition select_b : DatabaseSelection :=
  mkDatabaseSelection "a/b.mp3" false (fun _ => true).
Definition visitor_ok : VisitSong := Some (fun _ => None).

(** A client session: a direct borrow and its release, then a borrow
    through a mount and its release. *)
Definition session : list (Request TableDatabase) :=
  [ReqGetSong "a/b.mp3"; ReqReturnSong SlotPtr;
   ReqGetSong "radio/x.ogg"; ReqReturnSong HeapPtr;
   ReqUnmount "radio"].

(** A configuration block with a database file and a cache directory. *)
Definition block0 : ConfigBlock :=
  mkConfigBlock (Some "/var/db") None (Some "/cache").

(** A disk on which every step of a save goes through, and one on which
    flushing the buffer fails. *)
Definition io_ok : SaveIO :=
  mkSaveIO (fun _ => None) (Some (mkFileInfo true false 99%Z)).
Definition io_full : SaveIO :=
  mkSaveIO (fun step => match step with
                        | FlushBuffer => Some (SystemError "No space left on device")
                        | _ => None
                        end)
           None.

End Fixture.

(** * Properties *)

(** ** Strings and paths *)

Lemma segments_nonempty (s : string) : segments s <> [].
Proof.
  destruct s as [|c s]; simpl; [discriminate|].
  destruct (Ascii.eqb c slash); [discriminate|].
  destruct (segments s); discriminate.
Qed.

Lemma join_cons (seg : string) (rest : list string) :
  rest <> [] -> join (seg :: rest) = (seg ++ String slash (join rest))%string.
Proof. destruct rest; [congruence | reflexivity]. Qed.

Lemma join_segments (s : string) : join (segments s) = s.
Proof.
  induction s as [|c s IH]; [reflexivity|].
  simpl segments. destruct (Ascii.eqb c slash) eqn:E.
  - apply Ascii.eqb_eq in E; subst c.
    rewrite join_cons by apply segments_nonempty.
    simpl. now rewrite IH.
  - pose proof (segments_nonempty s) as Hne.
    destruct (segments s) as [|seg rest]; [congruence|].
    destruct rest as [|seg' rest].
    + simpl in *. now rewrite IH.
    + rewrite join_cons by discriminate.
      rewrite join_cons in IH by discriminate.
      cbn [append]. now rewrite IH.
Qed.

Lemma has_slash_app (a b : string) :
  has_slash (a ++ b) = has_slash a || has_slash b.
Proof.
  induction a as [|c a IH]; simpl; [reflexivity|].
  rewrite IH. now rewrite orb_assoc.
Qed.

Lemma has_slash_join_two (a b : string) (l : list string) :
  has_slash (join (a :: b :: l)) = true.
Proof.
  rewrite join_cons by discriminate.
  rewrite has_slash_app. cbn [has_slash].
  rewrite Ascii.eqb_refl. apply orb_true_r.
Qed.

(** A slash-free join of a non-empty list of segments is its only, hence
    last, segment. *)
Lemma join_no_slash_last (pre suf : list string) :
  suf <> [] -> has_slash (join suf) = false ->
  join suf = last (pre ++ suf) EmptyString.
Proof.
  intros Hne Hs.
  destruct suf as [|a [|b l]]; [congruence| |].
  - simpl join. now rewrite last_last.
  - now rewrite has_slash_join_two in Hs.
Qed.

(** ** The name of a cache-backed mount *)

Lemma IsSafeChar_underscore : IsSafeChar "_"%char = true.
Proof. reflexivity. Qed.

Lemma replace_if_length (p : ascii -> bool) (c : ascii) (s : string) :
  String.length (replace_if p c s) = String.length s.
Proof. induction s; simpl; congruence. Qed.

Lemma replace_if_get (p : ascii -> bool) (c : ascii) (s : string) (i : nat) :
  String.get i (replace_if p c s)
  = option_map (fun x => if p x then c else x) (String.get i s).
Proof.
  revert i; induction s as [|x s IH]; intros i; simpl; [reflexivity|].
  destruct i; simpl; [reflexivity | apply IH].
Qed.

Lemma replace_if_all_chars (p : ascii -> bool) (c : ascii) (s : string) :
  p c = false -> all_chars (fun x => negb (p x)) (replace_if p c s) = true.
Proof.
  intros Hc; induction s as [|x s IH]; simpl; [reflexivity|].
  rewrite IH, andb_true_r.
  destruct (p x) eqn:E; [now rewrite Hc | now rewrite E].
Qed.

Lemma replace_if_fixed (p : ascii -> bool) (c : ascii) (s : string) :
  all_chars (fun x => negb (p x)) s = true -> replace_if p c s = s.
Proof.
  induction s as [|x s IH]; simpl; [reflexivity|].
  intros H; apply andb_true_iff in H as [Hx Hs].
  apply negb_true_iff in Hx. rewrite Hx, IH; auto.
Qed.

Lemma all_chars_safe (s : string) :
  all_chars (fun x => negb (IsUnsafeChar x)) s = all_chars IsSafeChar s.
Proof.
  induction s as [|x s IH]; simpl; [reflexivity|].
  unfold IsUnsafeChar at 1. now rewrite negb_involutive, IH.
Qed.

(** C4. The name of a cache-backed mount is a function of the storage
    identifier alone: it has the identifier's length, its character at
    every position is the identifier's character when that is
    alphanumeric, '-', '_' or '%' and '_' otherwise, every character of the
    result is one of those safe characters, and a name that is already
    safe is left as it is (so the derivation is stable under repetition).
    [cache_mount_name] takes no argument but the identifier, which is what
    makes equal identifiers yield equal names. *)
Theorem cache_mount_name_sanitized (storage_uri : string) :
  String.length (cache_mount_name storage_uri) = String.length storage_uri
  /\ (forall i, String.get i (cache_mount_name storage_uri)
                = option_map (fun ch => if IsSafeChar ch then ch else "_"%char)
                    (String.get i storage_uri))
  /\ all_chars IsSafeChar (cache_mount_name storage_uri) = true
  /\ cache_mount_name (cache_mount_name storage_uri) = cache_mount_name storage_uri.
Proof.
  unfold cache_mount_name.
  assert (Hsafe : all_chars IsSafeChar (replace_if IsUnsafeChar "_"%char storage_uri) = true).
  { rewrite <- all_chars_safe. apply replace_if_all_chars. reflexivity. }
  repeat split.
  - apply replace_if_length.
  - intros i. rewrite replace_if_get.
    destruct (String.get i storage_uri) as [ch|]; simpl; [|reflexivity].
    unfold IsUnsafeChar. now destruct (IsSafeChar ch).
  - exact Hsafe.
  - apply replace_if_fixed. now rewrite all_chars_safe.
Qed.

(** ** The directory tree *)

Section TreeFacts.

Context {D : Type}.

Implicit Types (d rt : Directory D) (loc : Location).

Lemma find_child_from_spec (p : Directory D -> bool) (cs : list (Directory D)) :
  forall k i c,
    find_child_from p k cs = Some (i, c) ->
    exists j, i = k + j /\ nth_error cs j = Some c /\ p c = true.
Proof.
  induction cs as [|x cs IH]; intros k i c; simpl; [discriminate|].
  destruct (p x) eqn:E.
  - intros [= <- <-]. exists 0. rewrite Nat.add_0_r. auto.
  - intros Hf. destruct (IH _ _ _ Hf) as (j & -> & Hn & Hp).
    exists (S j). split; [lia | auto].
Qed.

Lemma FindChild_nth d (n : string) (i : nat) (c : Directory D) :
  FindChild d n = Some (i, c) ->
  nth_error (children d) i = Some c /\ name c = n.
Proof.
  intros Hf. apply find_child_from_spec in Hf as (j & -> & Hn & Hp).
  split; [exact Hn | now apply String.eqb_eq].
Qed.

Lemma dir_at_app rt loc (i : nat) :
  dir_at rt (loc ++ [i])
  = match dir_at rt loc with
    | Some d => nth_error (children d) i
    | None => None
    end.
Proof.
  revert rt; induction loc as [|j loc IH]; intros rt; simpl.
  - now destruct (nth_error (children rt) i).
  - destruct (nth_error (children rt) j); [apply IH | reflexivity].
Qed.

Lemma walk_dir_at rt (segs : list string) :
  forall d loc,
    dir_at rt loc = Some d ->
    dir_at rt (location (walk d loc segs)) = Some (directory (walk d loc segs)).
Proof.
  induction segs as [|seg rest IH]; intros d loc Hd; simpl; [exact Hd|].
  destruct (IsMount d); [exact Hd|].
  destruct (FindChild d seg) as [[i c]|] eqn:Hf; [|exact Hd].
  apply IH. rewrite dir_at_app, Hd.
  now apply FindChild_nth in Hf.
Qed.

(** The location a lookup returns is where the returned node sits. *)
Lemma LookupDirectory_dir_at rt (u : string) :
  dir_at rt (location (LookupDirectory rt u)) = Some (directory (LookupDirectory rt u)).
Proof.
  unfold LookupDirectory. destruct (is_empty u); [reflexivity|].
  now apply walk_dir_at.
Qed.

Lemma walk_uri (segs : list string) :
  forall d loc rest,
    uri (walk d loc segs) = Some rest ->
    exists pre suf, segs = pre ++ suf /\ suf <> [] /\ rest = join suf.
Proof.
  induction segs as [|seg segs' IH]; intros d loc rest; simpl; [discriminate|].
  assert (Hstop : forall r, Some (join (seg :: segs')) = Some r ->
            exists pre suf, seg :: segs' = pre ++ suf /\ suf <> [] /\ r = join suf).
  { intros r [= <-]. exists [], (seg :: segs'). repeat split; discriminate. }
  destruct (IsMount d); [apply Hstop|].
  destruct (FindChild d seg) as [[i c]|]; [|apply Hstop].
  intros Hw. destruct (IH _ _ _ Hw) as (pre & suf & -> & Hne & ->).
  exists (seg :: pre), suf. auto.
Qed.

(** A remainder without a slash is the final segment of the path. *)
Lemma LookupDirectory_final_segment rt (u rest : string) :
  uri (LookupDirectory rt u) = Some rest ->
  has_slash rest = false ->
  rest = last (segments u) EmptyString.
Proof.
  unfold LookupDirectory. destruct (is_empty u); [discriminate|].
  intros Hw Hs. apply walk_uri in Hw as (pre & suf & -> & Hne & ->).
  now apply join_no_slash_last.
Qed.

(** The remainder of a lookup is a suffix of the path, cut at a slash. *)
Lemma LookupDirectory_remainder rt (u rest : string) :
  uri (LookupDirectory rt u) = Some rest ->
  exists pre suf, segments u = pre ++ suf /\ suf <> [] /\ rest = join suf.
Proof.
  unfold LookupDirectory. destruct (is_empty u); [discriminate|].
  apply walk_uri.
Qed.

Lemma update_nth_ext {A} (f g : A -> A) (i : nat) (l : list A) :
  (forall x, f x = g x) -> update_nth i f l = update_nth i g l.
Proof.
  intros E; revert i; induction l as [|x l IH]; intros [|i]; simpl;
    try reflexivity; [now rewrite E | now rewrite IH].
Qed.

Lemma update_nth_compose {A} (f g : A -> A) (i : nat) (l : list A) :
  update_nth i f (update_nth i g l) = update_nth i (fun x => f (g x)) l.
Proof.
  revert i; induction l as [|x l IH]; intros [|i]; simpl;
    try reflexivity. now rewrite IH.
Qed.

Lemma nth_error_update_nth {A} (f : A -> A) (i : nat) (l : list A) :
  nth_error (update_nth i f l) i = option_map f (nth_error l i).
Proof.
  revert i; induction l as [|x l IH]; intros [|i]; simpl;
    try reflexivity. apply IH.
Qed.

Lemma remove_nth_update_nth {A} (f : A -> A) (i : nat) (l : list A) :
  remove_nth i (update_nth i f l) = remove_nth i l.
Proof.
  revert i; induction l as [|x l IH]; intros [|i]; simpl;
    try reflexivity. now rewrite IH.
Qed.

Lemma update_nth_length_app {A} (f : A -> A) (l : list A) (x : A) :
  update_nth (length l) f (l ++ [x]) = l ++ [f x].
Proof. induction l as [|y l IH]; simpl; [reflexivity | now rewrite IH]. Qed.

Lemma update_at_ext (f g : Directory D -> Directory D) loc :
  (forall d, f d = g d) -> forall rt, update_at f loc rt = update_at g loc rt.
Proof.
  intros E; induction loc as [|i loc IH]; intros rt; simpl; [apply E|].
  f_equal. now apply update_nth_ext.
Qed.

Lemma update_at_app (f : Directory D -> Directory D) loc (loc2 : Location) rt :
  update_at f (loc ++ loc2) rt = update_at (update_at f loc2) loc rt.
Proof.
  revert rt; induction loc as [|i loc IH]; intros rt; simpl; [reflexivity|].
  f_equal. now apply update_nth_ext.
Qed.

Lemma update_at_compose (f g : Directory D -> Directory D) loc rt :
  update_at f loc (update_at g loc rt) = update_at (fun d => f (g d)) loc rt.
Proof.
  revert rt; induction loc as [|i loc IH]; intros rt; simpl; [reflexivity|].
  unfold set_children at 1 2; simpl. unfold set_children. f_equal.
  rewrite update_nth_compose. now apply update_nth_ext.
Qed.

Lemma dir_at_update_at (f : Directory D -> Directory D) loc :
  forall rt d,
    dir_at rt loc = Some d -> dir_at (update_at f loc rt) loc = Some (f d).
Proof.
  induction loc as [|i loc IH]; intros rt d; simpl; [now intros [= ->]|].
  rewrite nth_error_update_nth.
  destruct (nth_error (children rt) i) as [c|]; simpl; [apply IH | discriminate].
Qed.

Lemma Delete_app loc (i : nat) rt :
  Delete (loc ++ [i]) rt
  = update_at (fun d => set_children d (remove_nth i (children d))) loc rt.
Proof.
  revert rt; induction loc as [|j loc IH]; intros rt; [reflexivity|].
  change ((j :: loc) ++ [i]) with (j :: (loc ++ [i])).
  cbn [Delete update_at].
  destruct (loc ++ [i]) as [|k l] eqn:E.
  - now destruct loc.
  - rewrite <- E in *. f_equal. apply update_nth_ext, IH.
Qed.

End TreeFacts.

(** ** GetSong and ReturnSong *)

Section SongFacts.

Context {D : Type}.

Lemma FindSong_Some (d : Directory D) (n : string) (song : Song) :
  FindSong d n = Some song -> In song (songs d) /\ song_uri song = n.
Proof.
  intros Hf. apply find_some in Hf as [Hin He].
  split; [exact Hin | now apply String.eqb_eq].
Qed.

Lemma FindSong_None (d : Directory D) (n : string) :
  FindSong d n = None <-> ~ exists song, In song (songs d) /\ song_uri song = n.
Proof.
  split.
  - intros Hf (song & Hin & He).
    pose proof (find_none _ _ Hf _ Hin) as Hn. cbv beta in Hn.
    apply String.eqb_neq in Hn. contradiction.
  - intros Hn. destruct (FindSong d n) as [song|] eqn:Hf; [|reflexivity].
    exfalso. apply Hn. exists song. now apply FindSong_Some.
Qed.

End SongFacts.

Section GetSongFacts.

Context {D : Type} `{Database D}.

Implicit Types (st : SimpleDatabase D) (rt : Directory D) (u : string).

Lemma GetSong_entry st u :
  GetSong st u <> Abort -> exists rt, root st = Some rt /\ ready st.
Proof.
  unfold GetSong, ready.
  destruct (root st) as [rt|], (prefixed_light_song st), (borrowed_song_count st);
    try congruence.
  intros _. now exists rt.
Qed.

Lemma GetSong_ready st u rt :
  root st = Some rt -> ready st ->
  GetSong st u =
    let r := LookupDirectory rt u in
    match mounted_database (directory r) with
    | Some db =>
        match db_GetSong db (uri r) with
        | Abort => Abort
        | Raise e db' =>
            Raise e (set_root (Some (update_at (set_mounted_database (Some db'))
                                       (location r) rt)) st)
        | Return song db' =>
            let st1 := set_root (Some (update_at (set_mounted_database (Some db'))
                                         (location r) rt)) st in
            match song with
            | None => Return NullPtr st1
            | Some song =>
                Return HeapPtr
                  (set_prefixed_light_song
                     (Some (mkPrefixedLightSong song (GetPath rt (location r)))) st1)
            end
        end
    | None =>
        match uri r with
        | None => not_found "No such song" st
        | Some rest =>
            if has_slash rest then not_found "No such song" st
            else match FindSong (directory r) rest with
                 | None => not_found "No such song" st
                 | Some song =>
                     Return SlotPtr
                       (set_borrowed_song_count 1
                          (set_light_song (Some (Export song)) st))
                 end
        end
    end.
Proof.
  intros Hr [Hp Hc]. unfold GetSong. rewrite Hr, Hp, Hc. reflexivity.
Qed.

Lemma not_found_is_error {A} (msg : string) st :
  is_error_of NOT_FOUND (@not_found D A msg st).
Proof. now exists msg, st. Qed.

Lemma Return_not_error {S A} (code : DatabaseErrorCode) (a : A) (s : S) :
  ~ is_error_of code (Return a s).
Proof. intros (msg & s' & Heq). discriminate. Qed.

(** C1. On an open database with nothing borrowed, when the path resolves
    to a node that is not a mount point, [GetSong] raises a NOT_FOUND
    error exactly when the resolution leaves no remainder, or a remainder
    with a slash in it, or the resolved directory has no song named like
    the remainder; in every other case it finds a song of that name,
    exports it into the reusable slot, counts the borrow and returns the
    pointer to the slot. *)
Theorem GetSong_direct st u rt :
  root st = Some rt -> ready st ->
  mounted_database (directory (LookupDirectory rt u)) = None ->
  let r := LookupDirectory rt u in
  (is_error_of NOT_FOUND (GetSong st u) <->
     uri r = None
     \/ (exists rest, uri r = Some rest /\ has_slash rest = true)
     \/ (exists rest, uri r = Some rest /\
           ~ exists song, In song (songs (directory r)) /\ song_uri song = rest))
  /\ (~ is_error_of NOT_FOUND (GetSong st u) ->
      exists rest song st',
        uri r = Some rest /\ has_slash rest = false
        /\ FindSong (directory r) rest = Some song
        /\ In song (songs (directory r)) /\ song_uri song = rest
        /\ GetSong st u = Return SlotPtr st'
        /\ st' = set_borrowed_song_count 1 (set_light_song (Some (Export song)) st)
        /\ deref st' SlotPtr = Some (Export song)).
Proof.
  intros Hr Hready Hm r.
  rewrite (GetSong_ready u Hr Hready). fold r. cbv zeta. fold r in Hm. rewrite Hm.
  destruct (uri r) as [rest|] eqn:Hu.
  2:{ split; [|intros Hn; exfalso; apply Hn; apply not_found_is_error].
      split; [now left | intros _; apply not_found_is_error]. }
  destruct (has_slash rest) eqn:Hs.
  { split; [|intros Hn; exfalso; apply Hn; apply not_found_is_error].
    split; [|intros _; apply not_found_is_error].
    intros _. right; left. now exists rest. }
  destruct (FindSong (directory r) rest) as [song|] eqn:Hf.
  - destruct (FindSong_Some _ _ Hf) as [Hin Hname].
    split.
    + split.
      * intros He. now apply Return_not_error in He.
      * intros [Hnone | [(rest' & [= <-] & Hs') | (rest' & [= <-] & Hno)]].
        -- discriminate.
        -- congruence.
        -- exfalso. apply Hno. now exists song.
    + intros _. exists rest, song. eexists. repeat split; eauto.
  - split; [|intros Hn; exfalso; apply Hn; apply not_found_is_error].
    split; [|intros _; apply not_found_is_error].
    intros _. right; right. exists rest. split; [reflexivity|].
    now apply FindSong_None.
Qed.

(** C10. When the path resolves to a mount point and the mounted
    database's [GetSong] answers [nullptr], [GetSong] returns [nullptr]
    (it does not raise); a null result arises in no other way, so on a
    node that is not a mount point [GetSong] never returns [nullptr]. *)
Theorem GetSong_null_only_from_mount st u :
  (forall rt db db',
      root st = Some rt -> ready st ->
      mounted_database (directory (LookupDirectory rt u)) = Some db ->
      db_GetSong db (uri (LookupDirectory rt u)) = Return None db' ->
      GetSong st u
      = Return NullPtr
          (set_root (Some (update_at (set_mounted_database (Some db'))
                             (location (LookupDirectory rt u)) rt)) st)
      /\ ~ is_error_of NOT_FOUND (GetSong st u))
  /\ (forall st',
        GetSong st u = Return NullPtr st' ->
        exists rt db db',
          root st = Some rt
          /\ mounted_database (directory (LookupDirectory rt u)) = Some db
          /\ db_GetSong db (uri (LookupDirectory rt u)) = Return None db')
  /\ (forall rt st',
        root st = Some rt ->
        mounted_database (directory (LookupDirectory rt u)) = None ->
        GetSong st u <> Return NullPtr st').
Proof.
  assert (Hinv : forall st',
             GetSong st u = Return NullPtr st' ->
             exists rt db db',
               root st = Some rt
               /\ mounted_database (directory (LookupDirectory rt u)) = Some db
               /\ db_GetSong db (uri (LookupDirectory rt u)) = Return None db').
  { intros st' Hg.
    destruct (GetSong_entry st u) as (rt & Hr & Hready); [congruence|].
    rewrite (GetSong_ready u Hr Hready) in Hg. cbv zeta in Hg.
    destruct (mounted_database (directory (LookupDirectory rt u))) as [db|] eqn:Hm.
    - destruct (db_GetSong db (uri (LookupDirectory rt u))) as [[song|] db'| |] eqn:Hd;
        try discriminate.
      now exists rt, db, db'.
    - destruct (uri (LookupDirectory rt u)) as [rest|]; [|discriminate].
      destruct (has_slash rest); [discriminate|].
      destruct (FindSong _ rest); discriminate. }
  split; [|split].
  - intros rt db db' Hr Hready Hm Hd.
    rewrite (GetSong_ready u Hr Hready). cbv zeta. rewrite Hm, Hd.
    split; [reflexivity | apply Return_not_error].
  - exact Hinv.
  - intros rt st' Hr Hm Hg.
    destruct (Hinv _ Hg) as (rt' & db & db' & Hr' & Hm' & _).
    congruence.
Qed.

End GetSongFacts.

(** ** Open, Load and Check *)

Section OpenFacts.

Context {D : Type} `{Database D}.

Variable build : Build.
Variable env : Environment D.

Implicit Types (st : SimpleDatabase D).

(** [Check] is [const]: it leaves the object as it found it. *)
Lemma Check_state st (o : Outcome (SimpleDatabase D) unit) :
  Check build env st = o ->
  match o with
  | Return _ s => s = st
  | Raise _ s => s = st
  | Abort => True
  end.
Proof.
  intros <-. unfold Check.
  destruct (path st) as [p|]; [|exact I].
  destruct (negb (PathExists env p)).
  - destruct (FileInfo_of env (GetDirectoryName env p)) as [e|fi]; [reflexivity|].
    destruct (negb (IsDirectory fi)); [reflexivity|].
    destruct (negb (WIN32 build) && negb (CheckAccess env (GetDirectoryName env p) [X_OK; W_OK]));
      reflexivity.
  - destruct (FileInfo_of env p) as [e|fi]; [reflexivity|].
    destruct (negb (IsRegular fi)); [reflexivity|].
    destruct (negb (WIN32 build) && negb (CheckAccess env p [R_OK; W_OK])); reflexivity.
Qed.

(** What [Check] answers depends on the two path members only. *)
Lemma Check_frame st st0 :
  path st = path st0 -> path_utf8 st = path_utf8 st0 ->
  Check build env st
  = match Check build env st0 with
    | Return a _ => Return a st
    | Raise e _ => Raise e st
    | Abort => Abort
    end.
Proof.
  intros Hp Hu. unfold Check. rewrite Hp, Hu.
  destruct (path st0) as [p|]; [|reflexivity].
  destruct (negb (PathExists env p)).
  - destruct (FileInfo_of env (GetDirectoryName env p)) as [e|fi]; [reflexivity|].
    destruct (negb (IsDirectory fi)); [reflexivity|].
    destruct (negb (WIN32 build) && negb (CheckAccess env (GetDirectoryName env p) [X_OK; W_OK]));
      reflexivity.
  - destruct (FileInfo_of env p) as [e|fi]; [reflexivity|].
    destruct (negb (IsRegular fi)); [reflexivity|].
    destruct (negb (WIN32 build) && negb (CheckAccess env p [R_OK; W_OK])); reflexivity.
Qed.

(** On a build for POSIX, [Check] returns exactly when the file exists,
    is a regular file and can be read and written, or is absent while
    its parent is a directory that can be written and searched. *)
Lemma Check_returns_iff st (p : string) :
  WIN32 build = false -> path st = Some p ->
  (Check build env st = Return tt st) <->
  (PathExists env p = true /\
     exists fi, FileInfo_of env p = inr fi /\ IsRegular fi = true
                /\ CheckAccess env p [R_OK; W_OK] = true)
  \/ (PathExists env p = false /\
        exists fi, FileInfo_of env (GetDirectoryName env p) = inr fi
                   /\ IsDirectory fi = true
                   /\ CheckAccess env (GetDirectoryName env p) [X_OK; W_OK] = true).
Proof.
  intros Hw Hp. unfold Check. rewrite Hp, Hw. cbn [negb andb].
  destruct (PathExists env p); cbn [negb].
  - destruct (FileInfo_of env p) as [e|fi].
    { split; [discriminate|]. intros [(_ & fi & Hfi & _) | (Hx & _)]; discriminate. }
    destruct (IsRegular fi) eqn:Hreg; cbn [negb].
    + destruct (CheckAccess env p [R_OK; W_OK]) eqn:Hacc; cbn [negb].
      * split; [|reflexivity]. intros _. left. split; [reflexivity|]. now exists fi.
      * split; [discriminate|].
        intros [(_ & fi' & [= <-] & _ & Ha) | (Hx & _)]; discriminate.
    + split; [discriminate|].
      intros [(_ & fi' & [= <-] & Hr & _) | (Hx & _)]; congruence.
  - destruct (FileInfo_of env (GetDirectoryName env p)) as [e|fi].
    { split; [discriminate|]. intros [(Hx & _) | (_ & fi & Hfi & _)]; discriminate. }
    destruct (IsDirectory fi) eqn:Hdir; cbn [negb].
    + destruct (CheckAccess env (GetDirectoryName env p) [X_OK; W_OK]) eqn:Hacc; cbn [negb].
      * split; [|reflexivity]. intros _. right. split; [reflexivity|]. now exists fi.
      * split; [discriminate|].
        intros [(Hx & _) | (_ & fi' & [= <-] & _ & Ha)]; discriminate.
    + split; [discriminate|].
      intros [(Hx & _) | (_ & fi' & [= <-] & Hd & _)]; congruence.
Qed.

(** [Load] touches the root and the modification time only. *)
Lemma Load_frame st (o : Outcome (SimpleDatabase D) unit) :
  Load env st = o ->
  match o with
  | Return _ s | Raise _ s =>
      path s = path st /\ path_utf8 s = path_utf8 st
      /\ prefixed_light_song s = prefixed_light_song st
      /\ light_song s = light_song st
      /\ borrowed_song_count s = borrowed_song_count st
      /\ exists rt, root s = Some rt
  | Abort => True
  end.
Proof.
  intros <-. unfold Load.
  destruct (path st) as [p|] eqn:Hp; [|exact I].
  destruct (root st) as [r|] eqn:Hr; [|exact I].
  destruct (db_load_internal env p r) as [tree|e partial].
  - destruct (FileInfo_of env p) as [e|fi]; simpl; repeat split; eauto.
  - simpl. repeat split; eauto.
Qed.

(** After [Open] has returned, the database has a root and nothing is
    borrowed. *)
Lemma Open_returns st st' :
  Open build env st = Return tt st' ->
  (exists rt, root st' = Some rt) /\ ready st'.
Proof.
  unfold Open, ready.
  destruct (prefixed_light_song st) eqn:Hp; [discriminate|].
  set (st1 := set_borrowed_song_count 0 _).
  pose proof (@Load_frame st1 _ eq_refl) as HL.
  destruct (Load env st1) as [[] st2|e st2|]; [| |discriminate].
  - intros [= <-]. destruct HL as (_ & _ & Hp2 & _ & Hc2 & Hr2).
    subst st1. cbn in Hp2, Hc2. rewrite Hp2, Hc2, Hp. auto.
  - destruct HL as (_ & _ & Hp2 & _ & Hc2 & _).
    pose proof (@Check_state (set_root None st2) _ eq_refl) as HC.
    destruct (Check build env (set_root None st2)) as [[] st4|e' st4|]; try discriminate.
    intros [= <-]. subst st4 st1. cbn in *. rewrite Hp2, Hc2, Hp.
    split; [now eexists | auto].
Qed.

(** C6. When reading the database file fails during [Open], what [Open]
    does is decided by [Check]: if [Check] passes, [Open] returns with a
    fresh empty root in place of the partly built tree; if [Check] throws,
    the same exception leaves [Open] and the root is gone; and [Open]
    returns only if [Check] passed.  On a POSIX build [Check] passes
    exactly when the file exists, is regular and is readable and writable,
    or is absent while its parent is a directory that is writable and
    searchable. *)
Theorem Open_falls_back_after_Check st (p : string) (e : Exception)
    (partial : Directory D) :
  prefixed_light_song st = None ->
  path st = Some p ->
  db_load_internal env p NewRoot = LoadFailed e partial ->
  (Check build env st = Return tt st ->
     exists st', Open build env st = Return tt st'
                 /\ root st' = Some NewRoot /\ ready st')
  /\ (forall e', Check build env st = Raise e' st ->
        exists st', Open build env st = Raise e' st' /\ root st' = None)
  /\ (forall st', Open build env st = Return tt st' ->
        Check build env st = Return tt st)
  /\ (WIN32 build = false ->
      (Check build env st = Return tt st <->
       (PathExists env p = true /\
          exists fi, FileInfo_of env p = inr fi /\ IsRegular fi = true
                     /\ CheckAccess env p [R_OK; W_OK] = true)
       \/ (PathExists env p = false /\
             exists fi, FileInfo_of env (GetDirectoryName env p) = inr fi
                        /\ IsDirectory fi = true
                        /\ CheckAccess env (GetDirectoryName env p) [X_OK; W_OK] = true))).
Proof.
  intros Hpre Hp Hload.
  set (st1 := set_borrowed_song_count 0
                (set_mtime time_point_min (set_root (Some NewRoot) st))).
  set (st3 := set_root None (set_root (Some partial) st1)).
  assert (HO : Open build env st
               = match Check build env st3 with
                 | Return _ st4 => Return tt (set_root (Some NewRoot) st4)
                 | Raise e' st4 => Raise e' st4
                 | Abort => Abort
                 end).
  { unfold Open. rewrite Hpre. fold st1. unfold Load.
    replace (path st1) with (Some p) by (symmetry; exact Hp).
    replace (root st1) with (Some (@NewRoot D)) by reflexivity.
    rewrite Hload. reflexivity. }
  assert (HC : Check build env st3
               = match Check build env st with
                 | Return a _ => Return a st3
                 | Raise e' _ => Raise e' st3
                 | Abort => Abort
                 end) by (now apply Check_frame).
  rewrite HC in HO.
  repeat split.
  - intros Hc. rewrite Hc in HO. eexists. split; [exact HO|].
    split; [reflexivity|]. split; [exact Hpre | reflexivity].
  - intros e' Hc. rewrite Hc in HO. eexists. split; [exact HO | reflexivity].
  - intros st' Ho. rewrite HO in Ho.
    pose proof (@Check_state st _ eq_refl) as Hs.
    destruct (Check build env st) as [[] s|e' s|]; try discriminate.
    now subst s.
  - now apply Check_returns_iff.
  - now apply Check_returns_iff.
Qed.

End OpenFacts.

(** ** The borrow protocol *)

Section BorrowFacts.

Context {D : Type} `{Database D}.

Implicit Types (st : SimpleDatabase D) (rt : Directory D) (u : string).

(** How [GetSong] moves the borrow counter. *)
Lemma GetSong_count st u (o : Outcome (SimpleDatabase D) LightSongPtr) :
  GetSong st u = o ->
  match o with
  | Return SlotPtr s => borrowed_song_count st = 0 /\ borrowed_song_count s = 1
  | Return _ s => borrowed_song_count st = 0 /\ borrowed_song_count s = 0
  | Raise _ s => borrowed_song_count st = 0 /\ borrowed_song_count s = 0
  | Abort => True
  end.
Proof.
  intros <-. unfold GetSong.
  destruct (root st) as [rt|]; [|exact I].
  destruct (prefixed_light_song st); [exact I|].
  destruct (borrowed_song_count st) eqn:Hc; [|exact I].
  destruct (mounted_database (directory (LookupDirectory rt u))) as [db|].
  - destruct (db_GetSong db _) as [[song|] db'|e db'|]; cbn; auto.
  - destruct (uri (LookupDirectory rt u)) as [rest|]; cbn; auto.
    destruct (has_slash rest); cbn; auto.
    destruct (FindSong _ rest); cbn; auto.
Qed.

(** [Mount] does not touch the borrow state. *)
Lemma Mount_count st u (db : D) (o : Outcome (SimpleDatabase D) unit) :
  Mount st u db = o ->
  match o with
  | Return _ s | Raise _ s => borrowed_song_count s = borrowed_song_count st
  | Abort => True
  end.
Proof.
  intros <-. unfold Mount.
  destruct (is_empty u); [exact I|].
  destruct (root st) as [rt|]; [|exact I].
  destruct (uri (LookupDirectory rt u)) as [rest|]; [|reflexivity].
  destruct (has_slash rest); reflexivity.
Qed.

(** Neither does [Unmount]. *)
Lemma Unmount_count st u (o : Outcome (SimpleDatabase D) bool) :
  fst (Unmount st u) = o ->
  match o with
  | Return _ s | Raise _ s => borrowed_song_count s = borrowed_song_count st
  | Abort => True
  end.
Proof.
  intros <-. unfold Unmount, LockUmountSteal.
  destruct (root st) as [rt|]; [|exact I].
  destruct (uri (LookupDirectory rt u)); [reflexivity|].
  destruct (mounted_database (directory (LookupDirectory rt u))) as [db|]; [|reflexivity].
  destruct (db_Close db); cbn; auto.
Qed.

(** Neither does [Close]. *)
Lemma Close_count st (o : Outcome (SimpleDatabase D) unit) :
  Close st = o ->
  match o with
  | Return _ s | Raise _ s => borrowed_song_count s = borrowed_song_count st
  | Abort => True
  end.
Proof.
  intros <-. unfold Close.
  destruct (root st), (prefixed_light_song st);
    destruct (borrowed_song_count st) eqn:Hc; cbn; auto.
Qed.

(** How [ReturnSong] moves the borrow state. *)
Lemma ReturnSong_effect st (song : LightSongPtr) st' :
  ReturnSong st song = Return tt st' ->
  match prefixed_light_song st with
  | Some _ =>
      prefixed_light_song st' = None
      /\ borrowed_song_count st' = borrowed_song_count st
      /\ light_song st' = light_song st
  | None =>
      song = SlotPtr
      /\ light_song st' = None
      /\ borrowed_song_count st = S (borrowed_song_count st')
  end.
Proof.
  unfold ReturnSong.
  destruct song, (prefixed_light_song st) as [w|]; try discriminate;
    try (intros [= <-]; cbn; auto).
  destruct (borrowed_song_count st) as [|n]; [discriminate|].
  intros [= <-]. cbn. auto.
Qed.

Lemma ReturnSong_never_raises st (song : LightSongPtr) (e : Exception) st' :
  ReturnSong st song <> Raise e st'.
Proof.
  unfold ReturnSong.
  destruct song, (prefixed_light_song st); try discriminate.
  destruct (borrowed_song_count st); discriminate.
Qed.

(** One call keeps the counter at most one. *)
Lemma step_count_le_1 st (req : Request D) st' :
  borrowed_song_count st <= 1 -> step st req = Some st' ->
  borrowed_song_count st' <= 1.
Proof.
  intros Hle. destruct req as [u|song|u db|u|]; cbn [step].
  - pose proof (@GetSong_count st u _ eq_refl) as Hg.
    destruct (GetSong st u) as [[| |] s|e s|]; cbn; intros [= <-]; lia.
  - destruct (ReturnSong st song) as [[] s|e s|] eqn:Hr; cbn; intros [= <-].
    + apply ReturnSong_effect in Hr.
      destruct (prefixed_light_song st); lia.
    + now apply ReturnSong_never_raises in Hr.
  - pose proof (@Mount_count st u db _ eq_refl) as Hm.
    destruct (Mount st u db) as [a s|e s|]; cbn; intros [= <-]; lia.
  - pose proof (@Unmount_count st u _ eq_refl) as Hm.
    destruct (fst (Unmount st u)) as [a s|e s|]; cbn; intros [= <-]; lia.
  - pose proof (@Close_count st _ eq_refl) as Hm.
    destruct (Close st) as [a s|e s|]; cbn; intros [= <-]; lia.
Qed.

Lemma run_count_le_1 (reqs : list (Request D)) :
  forall st st',
    borrowed_song_count st <= 1 -> run st reqs = Some st' ->
    borrowed_song_count st' <= 1.
Proof.
  induction reqs as [|req reqs IH]; intros st st' Hle; cbn [run].
  - now intros [= <-].
  - destruct (step st req) as [s|] eqn:Hs; [|discriminate].
    apply IH. eapply step_count_le_1; eauto.
Qed.

(** C9. The borrow counter of an opened database never exceeds one,
    whatever calls ([GetSong], [ReturnSong], [Mount], [Unmount], [Close])
    are made; it is zero before every [GetSong] that does not abort and
    before every [Close] that does not abort; the only call that raises it
    is a [GetSong] that returns the slot, from zero to one; the only call
    that lowers it is a [ReturnSong] of the slot pointer made while no
    prefixed wrapper is allocated, which also empties the slot, whereas a
    [ReturnSong] made while a wrapper is allocated frees the wrapper and
    leaves the counter and the slot alone; and [ReturnSong] with nothing
    borrowed fails its assertion. *)
Theorem borrow_discipline :
  (forall (build : Build) (env : Environment D) st0 st1 reqs st',
      Open build env st0 = Return tt st1 ->
      run st1 reqs = Some st' ->
      borrowed_song_count st' <= 1)
  /\ (forall st u, GetSong st u <> Abort -> borrowed_song_count st = 0)
  /\ (forall st, Close st <> Abort -> borrowed_song_count st = 0)
  /\ (forall st req st',
        step st req = Some st' ->
        borrowed_song_count st < borrowed_song_count st' ->
        exists u, req = ReqGetSong u /\ GetSong st u = Return SlotPtr st'
                  /\ borrowed_song_count st = 0 /\ borrowed_song_count st' = 1)
  /\ (forall st req st',
        step st req = Some st' ->
        borrowed_song_count st' < borrowed_song_count st ->
        exists song, req = ReqReturnSong song /\ ReturnSong st song = Return tt st'
                     /\ song = SlotPtr
                     /\ prefixed_light_song st = None
                     /\ light_song st' = None
                     /\ borrowed_song_count st = S (borrowed_song_count st'))
  /\ (forall st song st' w,
        ReturnSong st song = Return tt st' ->
        prefixed_light_song st = Some w ->
        prefixed_light_song st' = None
        /\ borrowed_song_count st' = borrowed_song_count st
        /\ light_song st' = light_song st)
  /\ (forall st song, ready st -> ReturnSong st song = Abort).
Proof.
  repeat apply conj.
  - intros build env st0 st1 reqs st' Ho Hrun.
    apply Open_returns in Ho as [_ [_ Hc]].
    eapply run_count_le_1; [|exact Hrun]. lia.
  - intros st u Hg. pose proof (@GetSong_count st u _ eq_refl) as Hc.
    destruct (GetSong st u) as [[| |] s|e s|]; [tauto..|congruence].
  - intros st. unfold Close.
    destruct (root st), (prefixed_light_song st), (borrowed_song_count st); congruence.
  - intros st req st' Hs Hlt. destruct req as [u|song|u db|u|]; cbn [step] in Hs.
    + pose proof (@GetSong_count st u _ eq_refl) as Hg.
      destruct (GetSong st u) as [[| |] s|e s|] eqn:Hgs; cbn in Hs;
        try discriminate; injection Hs as <-; try lia.
      exists u. tauto.
    + destruct (ReturnSong st song) as [[] s|e s|] eqn:Hr; cbn in Hs;
        try discriminate; injection Hs as <-.
      * apply ReturnSong_effect in Hr. destruct (prefixed_light_song st); lia.
      * now apply ReturnSong_never_raises in Hr.
    + pose proof (@Mount_count st u db _ eq_refl) as Hm.
      destruct (Mount st u db) as [a s|e s|]; cbn in Hs; try discriminate;
        injection Hs as <-; lia.
    + pose proof (@Unmount_count st u _ eq_refl) as Hm.
      destruct (fst (Unmount st u)) as [a s|e s|]; cbn in Hs; try discriminate;
        injection Hs as <-; lia.
    + pose proof (@Close_count st _ eq_refl) as Hm.
      destruct (Close st) as [a s|e s|]; cbn in Hs; try discriminate;
        injection Hs as <-; lia.
  - intros st req st' Hs Hlt. destruct req as [u|song|u db|u|]; cbn [step] in Hs.
    + pose proof (@GetSong_count st u _ eq_refl) as Hg.
      destruct (GetSong st u) as [[| |] s|e s|] eqn:Hgs; cbn in Hs;
        try discriminate; injection Hs as <-; lia.
    + destruct (ReturnSong st song) as [[] s|e s|] eqn:Hr; cbn in Hs;
        try discriminate; injection Hs as <-.
      * exists song. split; [reflexivity|]. split; [exact Hr|].
        apply ReturnSong_effect in Hr.
        destruct (prefixed_light_song st); [lia | tauto].
      * now apply ReturnSong_never_raises in Hr.
    + pose proof (@Mount_count st u db _ eq_refl) as Hm.
      destruct (Mount st u db) as [a s|e s|]; cbn in Hs; try discriminate;
        injection Hs as <-; lia.
    + pose proof (@Unmount_count st u _ eq_refl) as Hm.
      destruct (fst (Unmount st u)) as [a s|e s|]; cbn in Hs; try discriminate;
        injection Hs as <-; lia.
    + pose proof (@Close_count st _ eq_refl) as Hm.
      destruct (Close st) as [a s|e s|]; cbn in Hs; try discriminate;
        injection Hs as <-; lia.
  - intros st song st' w Hr Hw. apply ReturnSong_effect in Hr.
    now rewrite Hw in Hr.
  - intros st song [Hp Hc]. unfold ReturnSong. rewrite Hp, Hc.
    now destruct song.
Qed.

(** C8 (amended). A [GetSong] that is delegated to a mounted database
    and finds the song returns a heap-allocated wrapper prefixed with the
    mount point's path and keeps it in the single [prefixed_light_song]
    member, without counting a direct borrow; while that wrapper is
    outstanding every further [GetSong] on the instance fails its entry
    assertion, and [ReturnSong] frees the wrapper, after which nothing is
    borrowed. *)
Theorem GetSong_mount_single_wrapper st u rt (db db' : D) (song : LightSong) :
  root st = Some rt -> ready st ->
  mounted_database (directory (LookupDirectory rt u)) = Some db ->
  db_GetSong db (uri (LookupDirectory rt u)) = Return (Some song) db' ->
  exists st',
    GetSong st u = Return HeapPtr st'
    /\ prefixed_light_song st'
       = Some (mkPrefixedLightSong song (GetPath rt (location (LookupDirectory rt u))))
    /\ borrowed_song_count st' = 0
    /\ (forall u2, GetSong st' u2 = Abort)
    /\ exists st'',
         ReturnSong st' HeapPtr = Return tt st'' /\ ready st''
         /\ root st'' = root st'.
Proof.
  intros Hr Hready Hm Hd.
  rewrite (GetSong_ready u Hr Hready). cbv zeta. rewrite Hm, Hd.
  destruct Hready as [Hp Hc].
  eexists. split; [reflexivity|]. cbn.
  split; [reflexivity|]. split; [exact Hc|]. split.
  - intros u2. unfold GetSong. reflexivity.
  - eexists. split; [reflexivity|]. cbn. unfold ready. cbn. auto.
Qed.

End BorrowFacts.

(** ** Mount and Unmount *)

Section MountFacts.

Context {D : Type} `{Database D}.

Implicit Types (st : SimpleDatabase D) (rt : Directory D) (u : string).

(** The tree after a successful [Mount]: the resolved parent has one more
    child, the mount point. *)
Lemma Mount_tree rt (loc : Location) (d : Directory D) (n : string) (db : D) :
  dir_at rt loc = Some d ->
  dir_at (update_at (set_mounted_database (Some db))
            (loc ++ [snd (CreateChild d n)])
            (update_at (fun x => fst (CreateChild x n)) loc rt)) loc
  = Some (set_children d (children d ++ [mkDirectory n [] [] [] 0%Z (Some db)])).
Proof.
  intros Hd. rewrite update_at_app, update_at_compose.
  rewrite (dir_at_update_at _ _ _ Hd). cbn.
  unfold set_children; cbn. now rewrite update_nth_length_app.
Qed.

(** C2. On an open database and for a non-empty URI, [Mount] raises
    CONFLICT when the lookup leaves no remainder, raises NOT_FOUND when the
    remainder contains a slash, and otherwise returns with a tree in which
    the resolved parent has got one new last child: a directory named
    after the remainder, which is the final segment of the URI, without
    children or songs and with the given instance as its mounted
    database. *)
Theorem Mount_outcomes st u rt (db : D) :
  root st = Some rt -> u <> EmptyString ->
  let r := LookupDirectory rt u in
  (uri r = None ->
     Mount st u db = Raise (DatabaseError CONFLICT "Already exists") st)
  /\ (forall rest, uri r = Some rest -> has_slash rest = true ->
        Mount st u db = Raise (DatabaseError NOT_FOUND "Parent not found") st)
  /\ (forall rest, uri r = Some rest -> has_slash rest = false ->
        exists rt',
          Mount st u db = Return tt (set_root (Some rt') st)
          /\ rest = last (segments u) EmptyString
          /\ dir_at rt (location r) = Some (directory r)
          /\ dir_at rt' (location r)
             = Some (set_children (directory r)
                       (children (directory r)
                        ++ [mkDirectory rest [] [] [] 0%Z (Some db)]))
          /\ dir_at rt' (location r ++ [length (children (directory r))])
             = Some (mkDirectory rest [] [] [] 0%Z (Some db))).
Proof.
  intros Hr Hu r.
  assert (He : is_empty u = false) by (destruct u; [congruence | reflexivity]).
  unfold Mount. rewrite He, Hr. fold r.
  repeat split.
  - now intros ->.
  - now intros rest -> ->.
  - intros rest Hrest Hs. rewrite Hrest, Hs.
    pose proof (LookupDirectory_dir_at rt u) as Hd. fold r in Hd.
    eexists. split; [reflexivity|].
    split; [now apply (LookupDirectory_final_segment rt u)|].
    split; [exact Hd|].
    pose proof (@Mount_tree rt _ _ rest db Hd) as Ht.
    split; [exact Ht|].
    rewrite dir_at_app, Ht. cbn.
    rewrite nth_error_app2 by lia. now rewrite Nat.sub_diag.
Qed.

(** Deleting a node makes the write that cleared its mount moot. *)
Lemma Delete_cleared rt (loc : Location) (i : nat) :
  Delete (loc ++ [i]) (update_at (set_mounted_database None) (loc ++ [i]) rt)
  = Delete (loc ++ [i]) rt.
Proof.
  rewrite !Delete_app, update_at_app, update_at_compose.
  apply update_at_ext. intros d. unfold set_children; cbn.
  now rewrite remove_nth_update_nth.
Qed.

Lemma Delete_mounted rt (loc : Location) :
  mounted_database (Delete loc rt) = mounted_database rt.
Proof. destruct loc as [|i [|j loc]]; reflexivity. Qed.

Lemma update_at_mounted (f : Directory D -> Directory D) (loc : Location) rt :
  (loc = [] -> mounted_database (f rt) = mounted_database rt) ->
  mounted_database (update_at f loc rt) = mounted_database rt.
Proof. destruct loc as [|i loc]; cbn; [auto | reflexivity]. Qed.

(** A lookup that starts at a plain root and ends on a mount point has
    gone down at least one level. *)
Lemma LookupDirectory_mount_below_root rt u (db : D) :
  IsMount rt = false ->
  mounted_database (directory (LookupDirectory rt u)) = Some db ->
  location (LookupDirectory rt u) <> [].
Proof.
  intros Hplain Hm Hloc.
  pose proof (LookupDirectory_dir_at rt u) as Hd.
  rewrite Hloc in Hd. cbn in Hd. injection Hd as Hd.
  unfold IsMount in Hplain. rewrite Hd, Hm in Hplain. discriminate.
Qed.

(** No call turns the root into a mount point. *)
Lemma step_root_plain st (req : Request D) st' :
  root_plain st -> step st req = Some st' -> root_plain st'.
Proof.
  unfold root_plain. intros Hplain.
  destruct req as [u|song|u db|u|]; cbn [step].
  - unfold GetSong.
    destruct (root st) as [rt|] eqn:Hr; [|discriminate].
    destruct (prefixed_light_song st); [discriminate|].
    destruct (borrowed_song_count st); [|discriminate].
    destruct (mounted_database (directory (LookupDirectory rt u))) as [db|] eqn:Hm.
    + pose proof (LookupDirectory_mount_below_root rt u Hplain Hm) as Hne.
      assert (Hk : forall db',
                 IsMount (update_at (set_mounted_database (Some db'))
                            (location (LookupDirectory rt u)) rt) = false).
      { intros db'. unfold IsMount in *.
        rewrite update_at_mounted; [exact Hplain | contradiction]. }
      destruct (db_GetSong db _) as [[song|] db'|e db'|]; cbn;
        try discriminate; intros [= <-]; cbn; apply Hk.
    + destruct (uri (LookupDirectory rt u)) as [rest|]; cbn.
      * destruct (has_slash rest); cbn; [intros [= <-]; now rewrite Hr|].
        destruct (FindSong _ rest); cbn; intros [= <-]; cbn; now rewrite Hr.
      * intros [= <-]. now rewrite Hr.
  - unfold ReturnSong.
    destruct song, (prefixed_light_song st); cbn; try discriminate;
      try (intros [= <-]; exact Hplain).
    destruct (borrowed_song_count st); cbn; [discriminate|].
    intros [= <-]. exact Hplain.
  - unfold Mount. destruct (is_empty u); [discriminate|].
    destruct (root st) as [rt|] eqn:Hr; [|discriminate].
    destruct (uri (LookupDirectory rt u)) as [rest|]; cbn.
    + destruct (has_slash rest); cbn; intros [= <-]; [now rewrite Hr|]. cbn.
      unfold IsMount in *. rewrite update_at_mounted.
      * rewrite update_at_mounted; [exact Hplain | reflexivity].
      * intros He. now destruct (location (LookupDirectory rt u)).
    + intros [= <-]. now rewrite Hr.
  - unfold Unmount, LockUmountSteal.
    destruct (root st) as [rt|] eqn:Hr; [|discriminate].
    destruct (uri (LookupDirectory rt u)); cbn; [intros [= <-]; now rewrite Hr|].
    destruct (mounted_database (directory (LookupDirectory rt u))) as [db|] eqn:Hm;
      cbn; [|intros [= <-]; now rewrite Hr].
    pose proof (LookupDirectory_mount_below_root rt u Hplain Hm) as Hne.
    assert (Hk : IsMount (Delete (location (LookupDirectory rt u))
                            (update_at (set_mounted_database None)
                               (location (LookupDirectory rt u)) rt)) = false).
    { unfold IsMount in *. rewrite Delete_mounted.
      rewrite update_at_mounted; [exact Hplain | contradiction]. }
    destruct (db_Close db) as [[] db'|e db'|]; cbn; try discriminate;
      intros [= <-]; cbn; exact Hk.
  - unfold Close.
    destruct (root st), (prefixed_light_song st), (borrowed_song_count st);
      cbn; try discriminate.
    intros [= <-]. exact I.
Qed.

(** The hypothesis of the statement on [Unmount] below is an invariant of
    every session. *)
Lemma run_root_plain (reqs : list (Request D)) :
  forall st st', root_plain st -> run st reqs = Some st' -> root_plain st'.
Proof.
  induction reqs as [|req reqs IH]; intros st st' Hp; cbn [run].
  - now intros [= <-].
  - destruct (step st req) as [s|] eqn:Hs; [|discriminate].
    apply IH. eapply step_root_plain; eauto.
Qed.

(** The instances that go with a node whose own mount has been taken
    off are the ones owned below it. *)
Lemma owned_detached (d : Directory D) :
  owned (set_mounted_database None d) = owned_below d.
Proof. destruct d; reflexivity. Qed.

Lemma owned_mounted (d : Directory D) (db : D) :
  mounted_database d = Some db -> owned d = db :: owned_below d.
Proof. destruct d; cbn. now intros ->. Qed.

Lemma Delete_disposes_detached rt (loc : Location) (node : Directory D) :
  loc <> [] -> dir_at rt loc = Some node ->
  Delete_disposes loc (update_at (set_mounted_database None) loc rt)
  = owned_below node.
Proof.
  intros Hne Hd. unfold Delete_disposes.
  destruct loc as [|i loc]; [contradiction|].
  rewrite (@dir_at_update_at D (set_mounted_database None) (i :: loc) rt node Hd).
  apply owned_detached.
Qed.

(** C5. On an open database whose root is not itself a mount point:
    when the URI does not resolve, with no remainder, to a mount point,
    [Unmount] returns false, throws nothing, destroys nothing and leaves
    the database as it was.  When it does, the mounted instance is taken
    off the node and the node is deleted from its parent's children; the
    deletion destroys what is owned below the node and not the detached
    instance, which is handed to [Close].  When [Close] returns, the
    instance is destroyed after it and [Unmount] returns true; when
    [Close] throws, the exception leaves [Unmount] with the node gone and
    the instance not destroyed; when [Close] fails an assertion, so does
    [Unmount]. *)
Theorem Unmount_outcomes st u rt :
  root st = Some rt -> IsMount rt = false ->
  let r := LookupDirectory rt u in
  (~ (uri r = None /\ IsMount (directory r) = true) ->
     Unmount st u = (Return false st, []))
  /\ (forall db,
        uri r = None -> mounted_database (directory r) = Some db ->
        exists ploc i parent rt',
          location r = ploc ++ [i]
          /\ dir_at rt ploc = Some parent
          /\ nth_error (children parent) i = Some (directory r)
          /\ dir_at rt' ploc
             = Some (set_children parent (remove_nth i (children parent)))
          /\ LockUmountSteal st u
             = (Return (Some db) (set_root (Some rt') st),
                map (@Destroyed D) (owned_below (directory r)))
          /\ owned (directory r) = db :: owned_below (directory r)
          /\ match db_Close db with
             | Return _ db' =>
                 Unmount st u
                 = (Return true (set_root (Some rt') st),
                    map (@Destroyed D) (owned_below (directory r))
                    ++ [Closed db'; Destroyed db'])
             | Raise e _ =>
                 Unmount st u
                 = (Raise e (set_root (Some rt') st),
                    map (@Destroyed D) (owned_below (directory r)))
             | Abort => Unmount st u = (Abort, [])
             end).
Proof.
  intros Hr Hroot r. unfold Unmount, LockUmountSteal. rewrite Hr. fold r.
  split.
  - intros Hn. unfold IsMount in Hn.
    destruct (uri r); [reflexivity|].
    destruct (mounted_database (directory r)); [|reflexivity].
    exfalso; apply Hn; auto.
  - intros db Hu Hm. rewrite Hu, Hm. cbv zeta.
    pose proof (LookupDirectory_dir_at rt u) as Hd. fold r in Hd.
    assert (Hne : location r <> []).
    { intros Hloc. rewrite Hloc in Hd. cbn in Hd. injection Hd as Hd.
      unfold IsMount in Hroot. rewrite Hd, Hm in Hroot. discriminate. }
    rewrite (Delete_disposes_detached rt Hne Hd).
    destruct (location r) as [|j loc] eqn:Hloc using rev_ind; [contradiction|].
    clear IHloc. rewrite dir_at_app in Hd.
    destruct (dir_at rt loc) as [parent|] eqn:Hp; [|discriminate].
    exists loc, j, parent. eexists.
    split; [reflexivity|]. split; [exact Hp|]. split; [exact Hd|].
    split; [|split; [reflexivity|split; [now apply owned_mounted|]]].
    + rewrite Delete_cleared, Delete_app.
      exact (@dir_at_update_at D
               (fun d => set_children d (remove_nth j (children d))) loc rt parent Hp).
    + destruct (db_Close db) as [[] db'|e db'|]; reflexivity.
Qed.

End MountFacts.

(** ** Mounting a cache-backed database *)

Section CacheMountFacts.

Context {D0 D : Type} `{Database D0} `{Database D}.

Variable build : Build.
Variable env : Environment D0.
Variable upcast : SimpleDatabase D0 -> D.

(** A [Mount] that throws has changed nothing. *)
Lemma Mount_raise_state (st : SimpleDatabase D) (u : string) (db : D)
    (e : Exception) (st' : SimpleDatabase D) :
  Mount st u db = Raise e st' -> st' = st.
Proof.
  unfold Mount.
  destruct (is_empty u); [discriminate|].
  destruct (root st) as [rt|]; [|discriminate].
  destruct (uri (LookupDirectory rt u)) as [rest|]; [|now intros [= _ <-]].
  destruct (has_slash rest); [now intros [= _ <-] | discriminate].
Qed.

(** A database that has just been opened can be closed. *)
Lemma Close_after_Open (db db1 : SimpleDatabase D0) :
  Open build env db = Return tt db1 -> Close db1 = Return tt (set_root None db1).
Proof.
  intros Ho. apply Open_returns in Ho as [[rt Hr] [Hp Hc]].
  unfold Close. now rewrite Hr, Hp, Hc.
Qed.

(** C3. A cache-backed [Mount] that throws leaves the host database as
    it was: without a cache directory it raises NOT_FOUND before any
    instance exists; when opening the new instance throws, the instance is
    destroyed and the exception goes on; when the instance mount throws,
    the opened instance is closed and destroyed and the exception goes on.
    Whatever exception leaves the call, the host is unchanged (no mount
    node has been attached) and the new instance, if one was constructed,
    has been destroyed. *)
Theorem Mount_cache_rollback (st : SimpleDatabase D) (local_uri storage_uri : string) :
  (cache_path st = None ->
     Mount_cache build env upcast st local_uri storage_uri
     = (Raise (DatabaseError NOT_FOUND "No 'cache_directory' configured") st, []))
  /\ (forall cp,
        cache_path st = Some cp ->
        let db := SimpleDatabase_of_path build
                    (Some (Build_path cp (cache_mount_name storage_uri)))
                    (if ENABLE_ZLIB build then compress st else false) in
        (forall e db1,
            Open build env db = Raise e db1 ->
            Mount_cache build env upcast st local_uri storage_uri
            = (Raise e st, [Constructed db; Destroyed db1]))
        /\ (forall e db1 st',
              Open build env db = Return tt db1 ->
              Mount st local_uri (upcast db1) = Raise e st' ->
              exists db2,
                Close db1 = Return tt db2
                /\ Mount_cache build env upcast st local_uri storage_uri
                   = (Raise e st,
                      [Constructed db; Opened db1; Closed db2; Destroyed db2])))
  /\ (forall e st' log,
        Mount_cache build env upcast st local_uri storage_uri = (Raise e st', log) ->
        st' = st
        /\ (log = []
            \/ (exists db db1, log = [Constructed db; Destroyed db1])
            \/ (exists db db1 db2,
                  log = [Constructed db; Opened db1; Closed db2; Destroyed db2]))).
Proof.
  unfold Mount_cache. split; [|split].
  - now intros ->.
  - intros cp Hcp. cbv zeta. rewrite Hcp. split.
    + now intros e db1 ->.
    + intros e db1 st' Ho Hm. rewrite Ho, Hm.
      rewrite (Close_after_Open _ Ho).
      apply Mount_raise_state in Hm as ->.
      now eexists.
  - intros e st' log.
    destruct (cache_path st) as [cp|]; [|intros [= _ <- <-]; auto].
    set (db := SimpleDatabase_of_path build _ _).
    destruct (Open build env db) as [[] db1|e1 db1|] eqn:Ho; [| |discriminate].
    + destruct (Mount st local_uri (upcast db1)) as [[] s|e2 s|] eqn:Hm;
        try discriminate.
      rewrite (Close_after_Open _ Ho).
      apply Mount_raise_state in Hm as ->.
      intros [= _ <- <-]. split; [reflexivity|]. right; right. eauto.
    + intros [= _ <- <-]. split; [reflexivity|]. right; left. eauto.
Qed.

End CacheMountFacts.

(** ** Visit *)

Section VisitFacts.

Context {D : Type}.

Variable Walk : Directory D -> Location -> bool -> (LightSong -> bool) ->
                VisitDirectory -> VisitSong -> VisitPlaylist ->
                list VisitEvent -> VisitOutcome.
Variable WalkMount : string -> D -> string -> bool -> (LightSong -> bool) ->
                     VisitDirectory -> VisitSong -> VisitPlaylist ->
                     list VisitEvent -> VisitOutcome.

Lemma call_visitor_log {A} (f : A -> option Exception) (ev : A -> VisitEvent) (a : A) :
  visit_log (call_visitor f ev a []) = [ev a].
Proof. unfold call_visitor. now destruct (f a). Qed.

(** C7. When the selection resolves, on a node that is not a mount point,
    to a remainder: if the remainder has no slash and names a song of the
    resolved directory, the song visitor is called, once and with the
    exported song, exactly when a visitor is supplied and the filter
    accepts the exported song, and no other callback is called; if the
    remainder has no slash and names no song, or if it has a slash, a
    NOT_FOUND error is raised.  (Without a song visitor the code raises
    NOT_FOUND as well.) *)
Theorem Visit_song (st : SimpleDatabase D) (selection : DatabaseSelection)
    (visit_directory : VisitDirectory) (visit_song : VisitSong)
    (visit_playlist : VisitPlaylist) (rt : Directory D) (rest : string) :
  root st = Some rt ->
  let r := LookupDirectory rt (sel_uri selection) in
  let result := Visit Walk WalkMount st selection
                  visit_directory visit_song visit_playlist in
  mounted_database (directory r) = None ->
  uri r = Some rest ->
  (has_slash rest = false ->
   forall song, FindSong (directory r) rest = Some song ->
     (visit_log result = [VisitedSong (Export song)] <->
        visit_song <> None /\ Match selection (Export song) = true)
     /\ (visit_log result = [VisitedSong (Export song)] \/ visit_log result = [])
     /\ (forall f, visit_song = Some f -> Match selection (Export song) = true ->
           result = call_visitor f VisitedSong (Export song) [])
     /\ (forall f, visit_song = Some f -> Match selection (Export song) = false ->
           result = Return tt []))
  /\ (has_slash rest = false -> FindSong (directory r) rest = None ->
        result = Raise (DatabaseError NOT_FOUND "No such directory") [])
  /\ (has_slash rest = true ->
        result = Raise (DatabaseError NOT_FOUND "No such directory") [])
  /\ (visit_song = None ->
        result = Raise (DatabaseError NOT_FOUND "No such directory") []).
Proof.
  intros Hr r result Hm Hu. subst result. unfold Visit.
  rewrite Hr. fold r. rewrite Hm, Hu.
  split; [|split; [|split]].
  - intros Hs song Hf. rewrite Hs, Hf. cbn [negb].
    destruct visit_song as [f|].
    + destruct (Match selection (Export song)) eqn:HM.
      * rewrite call_visitor_log. split; [|split; [|split]].
        -- split; [intros _; split; [discriminate | reflexivity] | reflexivity].
        -- now left.
        -- now intros f' [= <-] _.
        -- discriminate.
      * cbn [visit_log]. split; [|split; [|split]].
        -- split; [discriminate | intros [_ Hx]; discriminate].
        -- now right.
        -- discriminate.
        -- reflexivity.
    + cbn [visit_log]. split; [|split; [|split]].
      * split; [discriminate | intros [Hx _]; congruence].
      * now right.
      * discriminate.
      * discriminate.
  - intros Hs Hf. rewrite Hs, Hf. cbn [negb]. now destruct visit_song.
  - now intros ->.
  - intros ->. now destruct (negb (has_slash rest)).
Qed.

End VisitFacts.

(** ** The statements at concrete inputs *)

Section Instances.

Import Fixture.

Lemma GetSong_direct_witness :
  root db0 = Some tree0 /\ ready db0
  /\ mounted_database (directory (LookupDirectory tree0 "a/b.mp3")) = None
  /\ exists st', GetSong db0 "a/b.mp3" = Return SlotPtr st'
                 /\ deref st' SlotPtr = Some (Export song_b).
Proof.
  assert (H1 : root db0 = Some tree0) by reflexivity.
  assert (H2 : ready db0) by (split; reflexivity).
  assert (H3 : mounted_database (directory (LookupDirectory tree0 "a/b.mp3")) = None)
    by reflexivity.
  split; [exact H1|]. split; [exact H2|]. split; [exact H3|].
  destruct (GetSong_direct "a/b.mp3" H1 H2 H3) as [_ Hret].
  destruct Hret as (rest & song & st' & Hu & _ & Hf & _ & _ & Hg & _ & Hd).
  { intros (msg & s & Heq). discriminate Heq. }
  exists st'. split; [exact Hg|]. rewrite Hd.
  injection Hu as <-. now injection Hf as <-.
Defined.

Lemma GetSong_null_only_from_mount_witness :
  root db0 = Some tree0 /\ ready db0
  /\ mounted_database (directory (LookupDirectory tree0 "radio/nope")) = Some radio
  /\ db_GetSong radio (uri (LookupDirectory tree0 "radio/nope")) = Return None radio
  /\ GetSong db0 "radio/nope" = Return NullPtr db0.
Proof.
  assert (H2 : ready db0) by (split; reflexivity).
  split; [reflexivity|]. split; [exact H2|]. do 2 (split; [reflexivity|]).
  destruct (GetSong_null_only_from_mount db0 "radio/nope") as [Hnull _].
  destruct (Hnull tree0 radio radio eq_refl H2 eq_refl eq_refl) as [Hg _].
  exact Hg.
Defined.

(** C8, as stated, fails: with the wrapper of a first mount query still
    outstanding, the query into a second mount fails the entry assertion
    of [GetSong]. *)
Lemma GetSong_second_mount_query_aborts :
  match GetSong db0 "radio/x.ogg" with
  | Return HeapPtr st1 =>
      prefixed_light_song st1 = Some (mkPrefixedLightSong song_x "radio")
      /\ GetSong st1 "a/net/x.ogg" = Abort
  | _ => False
  end.
Proof. vm_compute. split; reflexivity. Qed.

(** The delegating branch of [GetSong] copies the mounted database's
    song and never hands it back with [ReturnSong]: a mounted simple
    database keeps counting the borrow, and the next query into the same
    mount fails the mounted database's entry assertion, even though the
    host's wrapper has been returned. *)
Remark GetSong_mount_keeps_inner_borrow :
  exists st1 st2,
    GetSong host_usb "usb/a/b.mp3" = Return HeapPtr st1
    /\ option_map (@borrowed_song_count _)
         (mounted_database (directory (LookupDirectory
            (match root st1 with Some rt => rt | None => NewRoot end) "usb")))
       = Some 1
    /\ ReturnSong st1 HeapPtr = Return tt st2
    /\ ready st2
    /\ GetSong st2 "usb/a/b.mp3" = Abort.
Proof.
  eexists. eexists.
  split; [vm_compute; reflexivity|].
  split; [vm_compute; reflexivity|].
  split; [vm_compute; reflexivity|].
  split; [split; reflexivity | vm_compute; reflexivity].
Qed.

Lemma GetSong_mount_single_wrapper_witness :
  root db0 = Some tree0 /\ ready db0
  /\ mounted_database (directory (LookupDirectory tree0 "radio/x.ogg")) = Some radio
  /\ db_GetSong radio (uri (LookupDirectory tree0 "radio/x.ogg"))
     = Return (Some song_x) radio
  /\ exists st',
       GetSong db0 "radio/x.ogg" = Return HeapPtr st'
       /\ prefixed_light_song st' = Some (mkPrefixedLightSong song_x "radio")
       /\ GetSong st' "a/net/x.ogg" = Abort.
Proof.
  assert (H2 : ready db0) by (split; reflexivity).
  split; [reflexivity|]. split; [exact H2|]. do 2 (split; [reflexivity|]).
  destruct (@GetSong_mount_single_wrapper TableDatabase TableDatabase_Database db0 "radio/x.ogg" tree0 radio radio song_x
              eq_refl H2 eq_refl eq_refl)
    as (st' & Hg & Hp & _ & Habort & _).
  exists st'. split; [exact Hg|]. split; [exact Hp | apply Habort].
Defined.

Lemma borrow_discipline_witness :
  (exists st1 st',
      Open build0 env_loaded db_new = Return tt st1
      /\ run st1 session = Some st'
      /\ borrowed_song_count st' <= 1)
  /\ ready db0 /\ ReturnSong db0 SlotPtr = Abort.
Proof.
  destruct (@borrow_discipline TableDatabase _) as (Hinv & _ & _ & _ & _ & _ & Habort).
  assert (H2 : ready db0) by (split; reflexivity).
  split; [|split; [exact H2 | exact (Habort db0 SlotPtr H2)]].
  eexists. eexists. split; [vm_compute; reflexivity|].
  split; [vm_compute; reflexivity|].
  refine (Hinv build0 env_loaded db_new _ session _ _ _); vm_compute; reflexivity.
Defined.

Lemma Mount_outcomes_witness :
  root db0 = Some tree0 /\ "a/new" <> EmptyString
  /\ uri (LookupDirectory tree0 "a/new") = Some "new"
  /\ has_slash "new" = false
  /\ exists rt',
       Mount db0 "a/new" radio = Return tt (set_root (Some rt') db0)
       /\ dir_at rt' [0; 2] = Some (mkDirectory "new" [] [] [] 0%Z (Some radio)).
Proof.
  assert (H2 : "a/new" <> EmptyString) by discriminate.
  split; [reflexivity|]. split; [exact H2|]. do 2 (split; [reflexivity|]).
  destruct (@Mount_outcomes _ db0 "a/new" tree0 radio eq_refl H2) as (_ & _ & Hok).
  destruct (Hok "new" eq_refl eq_refl) as (rt' & Hm & _ & _ & _ & Hd).
  exists rt'. split; [exact Hm | exact Hd].
Defined.

Lemma Unmount_outcomes_witness :
  root db0 = Some tree0 /\ IsMount tree0 = false
  /\ uri (LookupDirectory tree0 "a/net") = None
  /\ mounted_database (directory (LookupDirectory tree0 "a/net")) = Some radio
  /\ (exists rt',
        Unmount db0 "a/net"
        = (Return true (set_root (Some rt') db0), [Closed radio; Destroyed radio])
        /\ LockUmountSteal db0 "a/net"
           = (Return (Some radio) (set_root (Some rt') db0), [])
        /\ dir_at rt' [0] = Some (set_children dir_a [dir_c]))
  /\ Unmount db0 "a/c" = (Return false db0, []).
Proof.
  destruct (@Unmount_outcomes _ _ db0 "a/net" tree0 eq_refl eq_refl) as [_ Hok].
  destruct (@Unmount_outcomes _ _ db0 "a/c" tree0 eq_refl eq_refl) as [Hno _].
  do 4 (split; [reflexivity|]). split.
  - destruct (Hok radio eq_refl eq_refl)
      as (ploc & i & parent & rt' & Hloc & Hp & _ & Hd & Hs & _ & Hu).
    exists rt'. split; [exact Hu|]. split; [exact Hs|].
    change (location _) with [0; 1] in Hloc.
    destruct ploc as [|j [|k ploc]]; cbn [app] in Hloc;
      [discriminate Hloc | | exfalso].
    + injection Hloc as <- <-. injection Hp as <-. exact Hd.
    + injection Hloc as _ _ Hx. destruct ploc; cbn [app] in Hx; discriminate Hx.
  - apply Hno. intros [_ Hx]. discriminate Hx.
Defined.

(** C5, as stated, fails: a URI that resolves, with no remainder, to a
    mount point does not make [Unmount] return true when the mounted
    instance cannot be closed.  First, a simple database from which a song
    is still borrowed is mounted at [usb]: [Close] fails its assertion on
    the borrow counter, and [Unmount] with it.  Second, the host alone is
    used: a song is fetched through the mount [usb] and handed back to the
    host, and [Unmount] of [usb] fails in the same way. *)
Lemma Unmount_mount_point_aborts :
  match GetSong db0 "a/b.mp3" with
  | Return SlotPtr db1 =>
      match Mount host "usb" db1 with
      | Return _ st1 =>
          match root st1 with
          | Some rt1 =>
              uri (LookupDirectory rt1 "usb") = None
              /\ IsMount (directory (LookupDirectory rt1 "usb")) = true
              /\ Unmount st1 "usb" = (Abort, [])
          | None => False
          end
      | _ => False
      end
  | _ => False
  end
  /\ match GetSong host_usb "usb/a/b.mp3" with
     | Return HeapPtr s1 =>
         match ReturnSong s1 HeapPtr with
         | Return _ s2 =>
             match root s2 with
             | Some rt2 =>
                 uri (LookupDirectory rt2 "usb") = None
                 /\ IsMount (directory (LookupDirectory rt2 "usb")) = true
                 /\ Unmount s2 "usb" = (Abort, [])
             | None => False
             end
         | _ => False
         end
     | _ => False
     end.
Proof. vm_compute. repeat split. Qed.

Lemma Open_falls_back_after_Check_witness :
  prefixed_light_song db_new = None /\ path db_new = Some "/var/db"
  /\ db_load_internal (env_fresh TableDatabase) "/var/db" NewRoot
     = LoadFailed (SystemError "Failed to open file") NewRoot
  /\ Check build0 (env_fresh TableDatabase) db_new = Return tt db_new
  /\ exists st', Open build0 (env_fresh TableDatabase) db_new = Return tt st'
                 /\ root st' = Some NewRoot.
Proof.
  do 4 (split; [reflexivity|]).
  destruct (@Open_falls_back_after_Check _ build0 (env_fresh TableDatabase) db_new
              "/var/db" _ _ eq_refl eq_refl eq_refl) as (Hok & _).
  destruct (Hok eq_refl) as (st' & Ho & Hr & _).
  exists st'. split; [exact Ho | exact Hr].
Defined.

Lemma Mount_cache_rollback_witness :
  cache_path host_no_cache = None
  /\ fst (Mount_cache build0 (env_fresh TableDatabase) (fun db => db)
            host_no_cache "radio" "http://x/y:z")
     = Raise (DatabaseError NOT_FOUND "No 'cache_directory' configured") host_no_cache
  /\ cache_path host = Some "/cache"
  /\ (exists e db db1 db2,
        Mount_cache build0 (env_fresh TableDatabase) (fun db => db)
          host "music" "http://x/y:z"
        = (Raise e host, [Constructed db; Opened db1; Closed db2; Destroyed db2]))
  /\ (exists e db db1,
        Mount_cache build0 (env_broken TableDatabase) (fun db => db)
          host "radio" "http://x/y:z"
        = (Raise e host, [Constructed db; Destroyed db1])).
Proof.
  pose proof (@Mount_cache_rollback _ _ build0 (env_fresh TableDatabase)
                (fun db => db) host_no_cache "radio" "http://x/y:z") as (Hnone & _).
  pose proof (@Mount_cache_rollback _ _ build0 (env_fresh TableDatabase)
                (fun db => db) host "music" "http://x/y:z") as (_ & Hfresh & _).
  pose proof (@Mount_cache_rollback _ _ build0 (env_broken TableDatabase)
                (fun db => db) host "radio" "http://x/y:z") as (_ & Hbroken & _).
  split; [reflexivity|]. split; [now rewrite (Hnone eq_refl)|].
  split; [reflexivity|]. split.
  - destruct (Hfresh "/cache" eq_refl) as [_ Hm].
    edestruct Hm as (db2 & _ & Heq); [reflexivity | reflexivity |].
    do 4 eexists. exact Heq.
  - destruct (Hbroken "/cache" eq_refl) as [Ho _].
    do 3 eexists. apply Ho. reflexivity.
Defined.

Lemma Visit_song_witness :
  root db0 = Some tree0
  /\ mounted_database (directory (LookupDirectory tree0 (sel_uri select_b))) = None
  /\ uri (LookupDirectory tree0 (sel_uri select_b)) = Some "b.mp3"
  /\ has_slash "b.mp3" = false
  /\ FindSong (directory (LookupDirectory tree0 (sel_uri select_b))) "b.mp3" = Some song_b
  /\ visit_log (Visit walk_nothing walk_mount_nothing db0 select_b None visitor_ok None)
     = [VisitedSong (Export song_b)].
Proof.
  do 5 (split; [reflexivity|]).
  destruct (@Visit_song _ walk_nothing walk_mount_nothing db0 select_b None visitor_ok
              None tree0 "b.mp3" eq_refl eq_refl eq_refl) as (Hsong & _).
  destruct (Hsong eq_refl song_b eq_refl) as (Hiff & _).
  apply Hiff. split; [discriminate | reflexivity].
Defined.

End Instances.

(** * Further properties *)

(** ** How a lookup goes down the tree *)

Section DescentFacts.

Context {D : Type}.

Implicit Types (d dd rt : Directory D) (loc : Location) (segs : list string).

(** A walk continues below the node its descent reaches. *)
Lemma descends_walk segs :
  forall d loc dd (l0 : Location) (rem : list string),
    descends d segs loc dd ->
    walk d l0 (segs ++ rem) = walk dd (l0 ++ loc) rem.
Proof.
  induction segs as [|seg segs IH]; intros d [|i loc] dd l0 rem; cbn [descends];
    try contradiction.
  - intros ->. now rewrite app_nil_r.
  - intros (Hm & c & Hf & Hd). cbn [app walk]. rewrite Hm, Hf.
    rewrite (IH _ _ _ _ rem Hd). now rewrite <- app_assoc.
Qed.

(** Every walk is a descent followed by a stop. *)
Lemma walk_descends segs :
  forall d (l0 : Location),
    exists consumed remaining loc,
      segs = consumed ++ remaining
      /\ descends d consumed loc (directory (walk d l0 segs))
      /\ location (walk d l0 segs) = l0 ++ loc
      /\ uri (walk d l0 segs)
         = match remaining with [] => None | _ => Some (join remaining) end
      /\ (remaining <> [] ->
          IsMount (directory (walk d l0 segs)) = true
          \/ FindChild (directory (walk d l0 segs)) (hd EmptyString remaining) = None).
Proof.
  induction segs as [|seg segs IH]; intros d l0.
  - exists [], [], []. cbn. rewrite app_nil_r. repeat split; congruence.
  - cbn [walk]. destruct (IsMount d) eqn:Hm.
    + exists [], (seg :: segs), []. cbn [directory location uri app descends].
      rewrite app_nil_r. repeat split; auto.
    + destruct (FindChild d seg) as [[i c]|] eqn:Hf.
      * destruct (IH c (l0 ++ [i])) as (consumed & remaining & loc & -> & Hd & Hl & Hu & Hs).
        exists (seg :: consumed), remaining, (i :: loc).
        split; [reflexivity|]. split; [cbn [descends]; eauto|].
        split; [now rewrite Hl, <- app_assoc|]. split; assumption.
      * exists [], (seg :: segs), []. cbn [directory location uri app descends hd].
        rewrite app_nil_r. repeat split; auto.
Qed.

Lemma descends_dir_at segs :
  forall d loc dd, descends d segs loc dd -> dir_at d loc = Some dd.
Proof.
  induction segs as [|seg segs IH]; intros d [|i loc] dd; cbn [descends dir_at];
    try contradiction.
  - now intros ->.
  - intros (_ & c & Hf & Hd). apply FindChild_nth in Hf as [Hn _].
    rewrite Hn. now apply IH.
Qed.

Lemma descends_names segs :
  forall d loc dd, descends d segs loc dd -> names_along d loc = segs.
Proof.
  induction segs as [|seg segs IH]; intros d [|i loc] dd; cbn [descends names_along];
    try contradiction.
  - reflexivity.
  - intros (_ & c & Hf & Hd). apply FindChild_nth in Hf as [Hn Hname].
    rewrite Hn, Hname. f_equal. now apply IH with dd.
Qed.

Lemma descends_length segs :
  forall d loc dd, descends d segs loc dd -> length loc = length segs.
Proof.
  induction segs as [|seg segs IH]; intros d [|i loc] dd; cbn [descends];
    try contradiction; [reflexivity|].
  intros (_ & c & _ & Hd). cbn. f_equal. now apply IH with c dd.
Qed.

Lemma name_update_at (f : Directory D -> Directory D) loc d :
  (forall x, name (f x) = name x) -> name (update_at f loc d) = name d.
Proof. intros Hf. destruct loc; cbn; [apply Hf | reflexivity]. Qed.

Lemma find_child_from_update (p : Directory D -> bool) (f : Directory D -> Directory D)
    (cs : list (Directory D)) :
  (forall x, p (f x) = p x) ->
  forall k i c,
    find_child_from p k cs = Some (i, c) ->
    find_child_from p k (update_nth (i - k) f cs) = Some (i, f c).
Proof.
  intros Hp. induction cs as [|x cs IH]; intros k i c; cbn [find_child_from];
    [discriminate|].
  destruct (p x) eqn:E.
  - intros [= <- <-]. rewrite Nat.sub_diag. cbn. now rewrite Hp, E.
  - intros Hf. pose proof (find_child_from_spec _ _ _ Hf) as (j & -> & _ & _).
    replace (S k + j - k) with (S j) by lia. cbn. rewrite E.
    specialize (IH _ _ _ Hf). now replace (S k + j - S k) with j in IH by lia.
Qed.

Lemma FindChild_update (f : Directory D -> Directory D) d (seg : string) (i : nat)
    (c : Directory D) :
  (forall x, name (f x) = name x) ->
  FindChild d seg = Some (i, c) ->
  FindChild (set_children d (update_nth i f (children d))) seg = Some (i, f c).
Proof.
  intros Hn Hf. unfold FindChild in *. cbn.
  rewrite <- (Nat.sub_0_r i) at 1.
  apply find_child_from_update; [|exact Hf].
  intros x. now rewrite Hn.
Qed.

(** A write below a descent that keeps names leaves the descent in place. *)
Lemma descends_update (f : Directory D -> Directory D) segs :
  (forall x, name (f x) = name x) ->
  forall d loc dd,
    descends d segs loc dd ->
    descends (update_at f loc d) segs loc (f dd).
Proof.
  intros Hn. induction segs as [|seg segs IH]; intros d [|i loc] dd;
    cbn [descends update_at]; try contradiction.
  - now intros ->.
  - intros (Hm & c & Hf & Hd). split; [exact Hm|].
    exists (update_at f loc c). split; [|now apply IH].
    apply FindChild_update; [|exact Hf].
    intros x. now apply name_update_at.
Qed.

End DescentFacts.

(** ** Paths with one more segment *)

Lemma segments_app_slash (a b : string) :
  segments (a ++ String slash b) = segments a ++ segments b.
Proof.
  induction a as [|c a IH]; cbn [append segments].
  - rewrite Ascii.eqb_refl. reflexivity.
  - destruct (Ascii.eqb c slash); [now rewrite IH|].
    rewrite IH. pose proof (segments_nonempty a) as Hne.
    destruct (segments a); [congruence | reflexivity].
Qed.

Lemma segments_no_slash (s : string) :
  forall seg, In seg (segments s) -> has_slash seg = false.
Proof.
  induction s as [|c s IH]; cbn [segments]; intros seg.
  - intros [<-|[]]. reflexivity.
  - destruct (Ascii.eqb c slash) eqn:E.
    + intros [<-|Hin]; [reflexivity | now apply IH].
    + pose proof (segments_nonempty s) as Hne.
      destruct (segments s) as [|x l]; [congruence|].
      intros [<-|Hin].
      * cbn. rewrite E. apply IH. now left.
      * apply IH. now right.
Qed.

Lemma join_no_slash_single (l : list string) :
  l <> [] -> has_slash (join l) = false -> l = [join l].
Proof.
  destruct l as [|a [|b l]]; [congruence|reflexivity|].
  intros _ Hs. now rewrite has_slash_join_two in Hs.
Qed.

Lemma is_empty_false (u : string) : u <> EmptyString -> is_empty u = false.
Proof. destruct u; [congruence | reflexivity]. Qed.

Lemma is_empty_app_slash (a b : string) : is_empty (a ++ String slash b) = false.
Proof. now destruct a. Qed.

Section LookupFacts.

Context {D : Type}.

Implicit Types (d dd rt : Directory D) (loc : Location).

(** The lookup of a non-empty path, as a descent and a stop. *)
Lemma LookupDirectory_descends rt (u : string) :
  u <> EmptyString ->
  let r := LookupDirectory rt u in
  exists consumed remaining,
    segments u = consumed ++ remaining
    /\ descends rt consumed (location r) (directory r)
    /\ uri r = match remaining with [] => None | _ => Some (join remaining) end
    /\ (remaining <> [] ->
        IsMount (directory r) = true
        \/ FindChild (directory r) (hd EmptyString remaining) = None).
Proof.
  intros Hu r. subst r. unfold LookupDirectory. rewrite (is_empty_false Hu).
  destruct (walk_descends (segments u) rt []) as (consumed & remaining & loc & Hs & Hd & Hl & Hr & Hstop).
  cbn [app] in Hl. rewrite Hl. now exists consumed, remaining.
Qed.

(** On a mount point the walk stops at once. *)
Lemma walk_mount d loc (segs : list string) :
  IsMount d = true ->
  walk d loc segs
  = mkLookupResult d loc (match segs with [] => None | _ => Some (join segs) end).
Proof. intros Hm. destruct segs; cbn [walk]; [reflexivity | now rewrite Hm]. Qed.

Lemma update_nth_ext_at {A} (f g : A -> A) (i : nat) (l : list A) (x : A) :
  nth_error l i = Some x -> f x = g x -> update_nth i f l = update_nth i g l.
Proof.
  revert i; induction l as [|y l IH]; intros [|i]; cbn; try discriminate.
  - now intros [= ->] ->.
  - intros Hn E. f_equal. now apply IH.
Qed.

(** Two writes agree when they agree on the node written. *)
Lemma update_at_ext_at (f g : Directory D -> Directory D) loc :
  forall rt d, dir_at rt loc = Some d -> f d = g d ->
    update_at f loc rt = update_at g loc rt.
Proof.
  induction loc as [|i loc IH]; intros rt d; cbn [dir_at update_at].
  - now intros [= ->].
  - destruct (nth_error (children rt) i) as [c|] eqn:Hn; [|discriminate].
    intros Hd E. f_equal. apply update_nth_ext_at with c; [exact Hn|].
    now apply IH with d.
Qed.

Lemma set_children_same d : set_children d (children d) = d.
Proof. now destruct d. Qed.

Lemma update_at_id_at (f : Directory D -> Directory D) loc rt d :
  dir_at rt loc = Some d -> f d = d -> update_at f loc rt = rt.
Proof.
  revert rt; induction loc as [|i loc IH]; intros rt; cbn [dir_at update_at].
  - now intros [= ->].
  - destruct (nth_error (children rt) i) as [c|] eqn:Hn; [|discriminate].
    intros Hd E.
    rewrite (update_nth_ext_at _ (fun x => x) _ _ Hn (IH _ Hd E)).
    assert (Hid : forall (l : list (Directory D)) k, update_nth k (fun x => x) l = l).
    { induction l as [|y l IHl]; intros [|k]; cbn; try reflexivity. now rewrite IHl. }
    rewrite Hid. apply set_children_same.
Qed.

Lemma remove_nth_length_app {A} (l : list A) (x : A) :
  remove_nth (length l) (l ++ [x]) = l.
Proof. induction l as [|y l IH]; cbn; [reflexivity | now rewrite IH]. Qed.

Lemma find_child_from_app_new (p : Directory D -> bool) (cs : list (Directory D))
    (x : Directory D) :
  forall k, find_child_from p k cs = None -> p x = true ->
    find_child_from p k (cs ++ [x]) = Some (k + length cs, x).
Proof.
  induction cs as [|c cs IH]; intros k; cbn [find_child_from app length].
  - intros _ ->. now rewrite Nat.add_0_r.
  - destruct (p c); [discriminate|]. intros Hn Hx.
    rewrite (IH _ Hn Hx). f_equal. f_equal. lia.
Qed.

Lemma FindChild_with_mount d (n : string) (db : D) :
  FindChild d n = None ->
  FindChild (with_mount n db d) n = Some (length (children d), mount_node n db).
Proof.
  intros Hf. unfold FindChild in *. cbn.
  apply (find_child_from_app_new _ _ _ 0 Hf). cbn. apply String.eqb_refl.
Qed.

Lemma descends_snoc (segs : list string) :
  forall d loc dd (seg : string) (i : nat) (c : Directory D),
    descends d segs loc dd -> IsMount dd = false ->
    FindChild dd seg = Some (i, c) ->
    descends d (segs ++ [seg]) (loc ++ [i]) c.
Proof.
  induction segs as [|s segs IH]; intros d [|j loc] dd seg i c; cbn [descends app];
    try contradiction.
  - intros -> Hm Hf. split; [exact Hm|]. exists c. split; [exact Hf | reflexivity].
  - intros (Hm & c' & Hf' & Hd) Hmd Hf. split; [exact Hm|].
    exists c'. split; [exact Hf'|]. now apply IH with dd.
Qed.

End LookupFacts.

(** ** Mount, then look the mount point up *)

Section MountLookup.

Context {D : Type} `{Database D}.

Implicit Types (st : SimpleDatabase D) (rt : Directory D) (u : string).

(** What a [Mount] that returns has done. *)
Lemma Mount_returns st u (db : D) st1 rt :
  root st = Some rt -> Mount st u db = Return tt st1 ->
  exists rest,
    u <> EmptyString
    /\ uri (LookupDirectory rt u) = Some rest /\ has_slash rest = false
    /\ st1 = set_root (Some (update_at (with_mount rest db)
                               (location (LookupDirectory rt u)) rt)) st.
Proof.
  intros Hr. unfold Mount. destruct (is_empty u) eqn:He; [discriminate|].
  rewrite Hr. destruct (uri (LookupDirectory rt u)) as [rest|]; [|discriminate].
  destruct (has_slash rest) eqn:Hs; [discriminate|].
  intros [= <-]. exists rest.
  split; [intros ->; discriminate|]. split; [reflexivity|]. split; [exact Hs|].
  f_equal. f_equal.
  rewrite update_at_app, update_at_compose.
  apply update_at_ext_at with (directory (LookupDirectory rt u));
    [apply LookupDirectory_dir_at|].
  cbn. unfold with_mount, mount_node, set_children; cbn.
  now rewrite update_nth_length_app.
Qed.

(** After [Mount] below a plain directory, the path of the mount point
    leads to the new node, and a longer path goes on from there. *)
Lemma Mount_lookup rt u (rest : string) (db : D) :
  u <> EmptyString ->
  uri (LookupDirectory rt u) = Some rest -> has_slash rest = false ->
  IsMount (directory (LookupDirectory rt u)) = false ->
  let r := LookupDirectory rt u in
  let rt1 := update_at (with_mount rest db) (location r) rt in
  let mnt := location r ++ [length (children (directory r))] in
  descends rt1 (segments u) mnt (mount_node rest db)
  /\ dir_at rt (location r) = Some (directory r)
  /\ LookupDirectory rt1 u = mkLookupResult (mount_node rest db) mnt None
  /\ forall x,
       LookupDirectory rt1 (u ++ String slash x)
       = mkLookupResult (mount_node rest db) mnt (Some x).
Proof.
  intros Hu Hrest Hs Hm r rt1 mnt.
  destruct (LookupDirectory_descends rt Hu)
    as (consumed & remaining & Hseg & Hd & Huri & Hstop).
  fold r in Hd, Huri, Hstop, Hrest, Hm.
  rewrite Hrest in Huri.
  destruct remaining as [|y remaining']; [discriminate|].
  set (remaining := y :: remaining') in *.
  assert (Hne : remaining <> []) by discriminate.
  injection Huri as Huri.
  assert (Hsingle : remaining = [rest]).
  { rewrite Huri in Hs |- *. now apply join_no_slash_single. }
  destruct (Hstop Hne) as [Hx|Hf]; [congruence|].
  rewrite Hsingle in Hf, Hseg. cbn [hd] in Hf.
  assert (Hd1 : descends rt1 (segments u) mnt (mount_node rest db)).
  { rewrite Hseg. apply descends_snoc with (with_mount rest db (directory r)).
    - apply descends_update; [reflexivity | exact Hd].
    - exact Hm.
    - now apply FindChild_with_mount. }
  assert (Hw : forall more,
             walk rt1 [] (segments u ++ more) = walk (mount_node rest db) mnt more).
  { intros more. exact (@descends_walk D _ _ _ _ [] more Hd1). }
  split; [exact Hd1|]. split; [now apply descends_dir_at with consumed|]. split.
  - unfold LookupDirectory at 1. rewrite (@is_empty_false u Hu).
    specialize (Hw []). rewrite app_nil_r in Hw. exact Hw.
  - intros x. unfold LookupDirectory at 1.
    rewrite is_empty_app_slash, segments_app_slash, Hw.
    rewrite walk_mount by reflexivity.
    pose proof (segments_nonempty x) as Hne'.
    destruct (segments x) as [|a l] eqn:E; [congruence|].
    rewrite <- E, join_segments. reflexivity.
Qed.

Lemma set_root_back st rt (r1 : option (Directory D)) :
  root st = Some rt -> set_root (Some rt) (set_root r1 st) = st.
Proof. destruct st; cbn. now intros ->. Qed.

(** X1. [Mount] and [Unmount] are inverse to each other below a plain
    directory: after a [Mount] that returned, [LockUmountSteal] of the
    same URI hands back the very instance that was mounted and destroys
    nothing, and [Unmount] returns true and leaves the database exactly as
    it was before the [Mount] (when closing the instance returns). *)
Theorem Mount_then_Unmount st u (db db' : D) st1 rt :
  root st = Some rt ->
  IsMount (directory (LookupDirectory rt u)) = false ->
  Mount st u db = Return tt st1 ->
  LockUmountSteal st1 u = (Return (Some db) st, [])
  /\ (db_Close db = Return tt db' ->
      Unmount st1 u = (Return true st, [Closed db'; Destroyed db'])).
Proof.
  intros Hr Hm HM.
  destruct (@Mount_returns st u db _ rt Hr HM) as (rest & Hu & Hrest & Hs & ->).
  destruct (@Mount_lookup rt u rest db Hu Hrest Hs Hm) as (Hd & Hat & HL & _).
  set (r := LookupDirectory rt u) in *.
  set (rt1 := update_at (with_mount rest db) (location r) rt) in *.
  set (mnt := location r ++ [length (children (directory r))]) in *.
  assert (HS : LockUmountSteal (set_root (Some rt1) st) u = (Return (Some db) st, [])).
  { unfold LockUmountSteal. cbn [root set_root]. rewrite HL.
    cbn [uri directory mounted_database mount_node location].
    f_equal.
    - f_equal. rewrite <- (@set_root_back st rt (Some rt1) Hr) at 2. cbn. f_equal. f_equal.
      unfold mnt. rewrite Delete_cleared, Delete_app. unfold rt1.
      rewrite update_at_compose.
      apply update_at_id_at with (directory r); [exact Hat|].
      unfold with_mount, set_children; cbn.
      rewrite remove_nth_length_app. now destruct (directory r).
    - rewrite (@Delete_disposes_detached D rt1 mnt (mount_node rest db));
        [reflexivity | unfold mnt; now destruct (location r) |].
      eapply descends_dir_at. exact Hd. }
  split; [exact HS|].
  intros Hc. unfold Unmount. now rewrite HS, Hc.
Qed.

(** X2. The mount point exists after [Mount]: mounting at the same URI
    again raises CONFLICT and changes nothing. *)
Theorem Mount_twice_conflicts st u (db db2 : D) st1 rt :
  root st = Some rt ->
  IsMount (directory (LookupDirectory rt u)) = false ->
  Mount st u db = Return tt st1 ->
  Mount st1 u db2 = Raise (DatabaseError CONFLICT "Already exists") st1.
Proof.
  intros Hr Hm HM.
  destruct (@Mount_returns st u db _ rt Hr HM) as (rest & Hu & Hrest & Hs & ->).
  destruct (@Mount_lookup rt u rest db Hu Hrest Hs Hm) as (_ & _ & HL & _).
  unfold Mount. rewrite (@is_empty_false u Hu). cbn [root set_root].
  rewrite HL. reflexivity.
Qed.

(** X3. What is mounted is what [GetSong] asks: after [Mount st u db]
    below a plain directory, [GetSong] of [u/x] resolves to the new mount
    point, hands [x] to [db], and a song that [db] finds comes back in a
    wrapper whose prefix is [u]; a null answer and an exception of [db]
    are passed on. *)
Theorem Mount_then_GetSong st u (x : string) (db : D) st1 rt :
  root st = Some rt -> ready st ->
  IsMount (directory (LookupDirectory rt u)) = false ->
  Mount st u db = Return tt st1 ->
  ready st1
  /\ (forall song db',
        db_GetSong db (Some x) = Return (Some song) db' ->
        exists st2,
          GetSong st1 (u ++ String slash x) = Return HeapPtr st2
          /\ prefixed_light_song st2 = Some (mkPrefixedLightSong song u))
  /\ (forall db',
        db_GetSong db (Some x) = Return None db' ->
        exists st2, GetSong st1 (u ++ String slash x) = Return NullPtr st2)
  /\ (forall e db',
        db_GetSong db (Some x) = Raise e db' ->
        exists st2, GetSong st1 (u ++ String slash x) = Raise e st2)
  /\ (db_GetSong db (Some x) = Abort ->
      GetSong st1 (u ++ String slash x) = Abort).
Proof.
  intros Hr Hready Hm HM.
  destruct (@Mount_returns st u db _ rt Hr HM) as (rest & Hu & Hrest & Hs & ->).
  destruct (@Mount_lookup rt u rest db Hu Hrest Hs Hm) as (Hd & _ & _ & HL).
  specialize (HL x).
  set (r := LookupDirectory rt u) in *.
  set (rt1 := update_at (with_mount rest db) (location r) rt) in *.
  set (mnt := location r ++ [length (children (directory r))]) in *.
  assert (Hready1 : ready (set_root (Some rt1) st)) by exact Hready.
  assert (HP : GetPath rt1 mnt = u).
  { unfold GetPath. rewrite (@descends_names D _ _ _ _ Hd). apply join_segments. }
  assert (HG := @GetSong_ready D _ (set_root (Some rt1) st) (u ++ String slash x) rt1
                  eq_refl Hready1).
  cbv zeta in HG. rewrite HL in HG.
  cbn [directory uri location mounted_database mount_node] in HG.
  split; [exact Hready1|].
  split; [|split; [|split]].
  - intros song db' Hg. rewrite Hg in HG. eexists. split; [exact HG|].
    cbn. now rewrite HP.
  - intros db' Hg. rewrite Hg in HG. eexists. exact HG.
  - intros e db' Hg. rewrite Hg in HG. eexists. exact HG.
  - intros Hg. now rewrite Hg in HG.
Qed.

End MountLookup.

(** ** Delegation into a mounted database *)

Section DelegationFacts.

Context {D : Type} `{Database D}.

Implicit Types (st : SimpleDatabase D) (rt : Directory D) (u : string).

(** Replacing the state of the mounted database a path leads to does not
    change where the path leads. *)
Lemma LookupDirectory_after_delegate rt u (db db' : D) :
  mounted_database (directory (LookupDirectory rt u)) = Some db ->
  let r := LookupDirectory rt u in
  LookupDirectory (update_at (set_mounted_database (Some db')) (location r) rt) u
  = mkLookupResult (set_mounted_database (Some db') (directory r)) (location r) (uri r).
Proof.
  intros Hm r. subst r.
  destruct (string_dec u EmptyString) as [->|Hu]; [reflexivity|].
  set (r := LookupDirectory rt u) in *.
  destruct (LookupDirectory_descends rt Hu)
    as (consumed & remaining & Hseg & Hd & Huri & _).
  fold r in Hd, Huri, Hm.
  unfold LookupDirectory at 1. rewrite (@is_empty_false u Hu), Hseg.
  rewrite (@descends_walk D consumed _ (location r) _ [] remaining
             (@descends_update D (set_mounted_database (Some db')) consumed
                (fun x => eq_refl) _ _ _ Hd)).
  rewrite walk_mount by reflexivity. cbn [app]. now rewrite Huri.
Qed.

(** What [GetSong] has done when it returns the heap pointer. *)
Lemma GetSong_HeapPtr_inv st u st1 :
  GetSong st u = Return HeapPtr st1 ->
  exists rt db song db',
    root st = Some rt /\ ready st
    /\ mounted_database (directory (LookupDirectory rt u)) = Some db
    /\ db_GetSong db (uri (LookupDirectory rt u)) = Return (Some song) db'
    /\ st1 = set_prefixed_light_song
               (Some (mkPrefixedLightSong song
                        (GetPath rt (location (LookupDirectory rt u)))))
               (set_root (Some (update_at (set_mounted_database (Some db'))
                                  (location (LookupDirectory rt u)) rt)) st).
Proof.
  intros Hg. destruct (GetSong_entry st u) as (rt & Hr & Hready); [congruence|].
  rewrite (GetSong_ready u Hr Hready) in Hg. cbv zeta in Hg.
  destruct (mounted_database (directory (LookupDirectory rt u))) as [db|] eqn:Hm.
  - destruct (db_GetSong db (uri (LookupDirectory rt u))) as [[song|] db'| |] eqn:Hd;
      try discriminate.
    injection Hg as <-. now exists rt, db, song, db'.
  - destruct (uri (LookupDirectory rt u)) as [rest|]; [|discriminate].
    destruct (has_slash rest); [discriminate|].
    destruct (FindSong _ rest); discriminate.
Qed.

(** A database that has handed out a song is not ready for another
    query. *)
Lemma GetSong_leaves_borrow st u (p : LightSongPtr) st' :
  GetSong st u = Return p st' -> p <> NullPtr -> ~ ready st'.
Proof.
  intros Hg Hp [Hpre Hc]. destruct p; [congruence| |].
  - pose proof (@GetSong_count D _ st u _ Hg) as [_ Hc']. cbn in Hc'. congruence.
  - apply (@GetSong_HeapPtr_inv st u st') in Hg as (rt & db & song & db' & _ & _ & _ & _ & ->).
    discriminate Hpre.
Qed.

Lemma GetSong_not_ready st u : ~ ready st -> GetSong st u = Abort.
Proof.
  intros Hn. unfold GetSong, ready in *.
  destruct (root st); [|reflexivity].
  destruct (prefixed_light_song st); [reflexivity|].
  destruct (borrowed_song_count st); [|reflexivity].
  exfalso. apply Hn. auto.
Qed.

Lemma Close_not_ready st : ~ ready st -> Close st = Abort.
Proof.
  intros Hn. unfold Close, ready in *.
  destruct (root st); [|reflexivity].
  destruct (prefixed_light_song st); [reflexivity|].
  destruct (borrowed_song_count st); [|reflexivity].
  exfalso. apply Hn. auto.
Qed.

End DelegationFacts.

Section MountedSimpleDatabase.

(** The host mounts simple databases, as a cache-backed [Mount] makes
    them. *)
Context {D0 : Type} `{Database D0}.

Implicit Types (st : SimpleDatabase (SimpleDatabase D0)).

(** A mounted simple database that answered with a song keeps the
    borrow. *)
Lemma mounted_answer_keeps_borrow (db db' : SimpleDatabase D0) (x : option string)
    (song : LightSong) :
  db_GetSong db x = Return (Some song) db' -> ~ ready db'.
Proof.
  cbn [db_GetSong SimpleDatabase_Database].
  destruct x as [ux|]; [|discriminate].
  destruct (GetSong db ux) as [p s|e s|] eqn:Hg; try discriminate.
  intros [= Hd <-]. apply (@GetSong_leaves_borrow D0 _ db ux p s Hg).
  intros ->. discriminate Hd.
Qed.

(** X5. The delegating branch of [GetSong] never returns the song it
    borrowed from the mounted database.  When the mounted database is a
    simple database, a delegated query that found a song makes every later
    query into the same mount point fail the mounted database's entry
    assertion, although the host's wrapper has been returned; and the mount
    point cannot be unmounted any more, because [Close] of the mounted
    database fails its assertion too. *)
Theorem GetSong_mount_once st (u : string) st1 (p : LightSongPtr) st2
    (rt : Directory (SimpleDatabase D0)) :
  root st = Some rt ->
  GetSong st u = Return HeapPtr st1 ->
  ReturnSong st1 p = Return tt st2 ->
  ready st2
  /\ (forall u2,
        location (LookupDirectory rt u2) = location (LookupDirectory rt u) ->
        GetSong st2 u2 = Abort)
  /\ (forall u2,
        location (LookupDirectory rt u2) = location (LookupDirectory rt u) ->
        uri (LookupDirectory rt u2) = None ->
        fst (Unmount st2 u2) = Abort).
Proof.
  intros Hr Hg Hret.
  destruct (@GetSong_HeapPtr_inv _ _ st u st1 Hg)
    as (rt' & db & song & db' & Hr' & [Hpre Hc] & Hm & Hd & ->).
  assert (rt' = rt) by congruence. subst rt'.
  pose proof (@mounted_answer_keeps_borrow db db' _ song Hd) as Hbusy.
  set (rt1 := update_at (set_mounted_database (Some db'))
                (location (LookupDirectory rt u)) rt) in *.
  assert (Hst2 : st2 = set_prefixed_light_song None
                         (set_prefixed_light_song
                            (Some (mkPrefixedLightSong song
                                     (GetPath rt (location (LookupDirectory rt u)))))
                            (set_root (Some rt1) st))).
  { unfold ReturnSong in Hret. cbn [prefixed_light_song set_prefixed_light_song] in Hret.
    destruct p; [discriminate| |]; now injection Hret as <-. }
  assert (Hready2 : ready st2) by (subst st2; split; [reflexivity | exact Hc]).
  assert (Hroot2 : root st2 = Some rt1) by (subst st2; reflexivity).
  assert (HL : forall u2,
             location (LookupDirectory rt u2) = location (LookupDirectory rt u) ->
             LookupDirectory rt1 u2
             = mkLookupResult
                 (set_mounted_database (Some db') (directory (LookupDirectory rt u2)))
                 (location (LookupDirectory rt u2)) (uri (LookupDirectory rt u2))).
  { intros u2 Hloc.
    assert (Hdir : directory (LookupDirectory rt u2) = directory (LookupDirectory rt u)).
    { pose proof (LookupDirectory_dir_at rt u2) as H2.
      pose proof (LookupDirectory_dir_at rt u) as H1.
      rewrite Hloc in H2. congruence. }
    unfold rt1. rewrite <- Hloc.
    apply LookupDirectory_after_delegate with db. now rewrite Hdir. }
  split; [exact Hready2|]. split.
  - intros u2 Hloc.
    rewrite (GetSong_ready u2 Hroot2 Hready2). cbv zeta. rewrite (HL u2 Hloc).
    cbn [directory uri location mounted_database set_mounted_database].
    cbn [db_GetSong SimpleDatabase_Database].
    destruct (uri (LookupDirectory rt u2)) as [x|]; [|reflexivity].
    now rewrite (@GetSong_not_ready D0 _ db' x Hbusy).
  - intros u2 Hloc Hu2. unfold Unmount, LockUmountSteal. rewrite Hroot2, (HL u2 Hloc).
    cbn [directory uri location mounted_database set_mounted_database]. rewrite Hu2.
    cbn [db_Close SimpleDatabase_Database]. now rewrite (@Close_not_ready D0 db' Hbusy).
Qed.

(** On the exact path of a mount point [GetSong] calls the mounted
    database with a null URI, which a mounted simple database does not
    survive. *)
Lemma GetSong_mount_point_itself st (u : string) (rt : Directory (SimpleDatabase D0))
    (db : SimpleDatabase D0) :
  root st = Some rt -> ready st ->
  mounted_database (directory (LookupDirectory rt u)) = Some db ->
  uri (LookupDirectory rt u) = None ->
  GetSong st u = Abort.
Proof.
  intros Hr Hready Hm Hu.
  rewrite (GetSong_ready u Hr Hready). cbv zeta. rewrite Hm, Hu. reflexivity.
Qed.

End MountedSimpleDatabase.

(** ** Unmount, then look the mount point up *)

Section UnmountLookup.

Context {D : Type} `{Database D}.

Implicit Types (st : SimpleDatabase D) (d rt : Directory D) (u : string).

Lemma descends_snoc_inv (segs : list string) :
  forall d (loc : Location) (m : Directory D),
    descends d segs loc m -> loc <> [] ->
    exists cs s p i parent,
      segs = cs ++ [s] /\ loc = p ++ [i]
      /\ descends d cs p parent /\ IsMount parent = false
      /\ FindChild parent s = Some (i, m).
Proof.
  induction segs as [|seg segs IH]; intros d [|i loc] m; cbn [descends];
    try (intros []; fail); try (intros _ Hx; now contradiction Hx).
  intros (Hm & c & Hf & Hd) _.
  destruct loc as [|j loc].
  - destruct segs; cbn [descends] in Hd; [|contradiction]. subst m.
    exists [], seg, [], i, d. cbn. auto.
  - destruct (IH c (j :: loc) m Hd) as (cs & s & p & k & parent & -> & Hl & Hd' & Hm' & Hf');
      [discriminate|].
    exists (seg :: cs), s, (i :: p), k, parent.
    split; [reflexivity|]. split; [cbn; now rewrite Hl|].
    split; [cbn [descends]; eauto|]. auto.
Qed.

Lemma find_child_from_none (p : Directory D -> bool) (cs : list (Directory D)) (k : nat) :
  (forall c, In c cs -> p c = false) -> find_child_from p k cs = None.
Proof.
  revert k; induction cs as [|c cs IH]; intros k Hall; cbn; [reflexivity|].
  rewrite (Hall c) by now left. apply IH. intros c' Hin. apply Hall. now right.
Qed.

(** With unique names, the child found under a name is the only one: once
    it is removed, the name finds nothing. *)
Lemma find_child_from_removed (n : string) (cs : list (Directory D)) :
  NoDup (map (@name D) cs) ->
  forall k i m,
    find_child_from (fun c => String.eqb (name c) n) k cs = Some (i, m) ->
    find_child_from (fun c => String.eqb (name c) n) k (remove_nth (i - k) cs) = None.
Proof.
  induction cs as [|c cs IH]; intros Hnd k i m; cbn [find_child_from];
    [discriminate|].
  inversion Hnd as [|? ? Hnotin Hnd' ]; subst.
  destruct (String.eqb (name c) n) eqn:E.
  - intros [= <- <-]. rewrite Nat.sub_diag. cbn [remove_nth].
    apply find_child_from_none. intros c' Hin.
    apply String.eqb_eq in E. apply String.eqb_neq. intros E'.
    apply Hnotin. rewrite E, <- E'. now apply in_map.
  - intros Hf. pose proof (find_child_from_spec _ _ _ Hf) as (j & -> & _ & _).
    replace (S k + j - k) with (S j) by lia. cbn [remove_nth find_child_from].
    rewrite E.
    specialize (IH Hnd' _ _ _ Hf).
    replace (S k + j - S k) with j in IH by lia.
    (* the offset of the search is irrelevant to its failing *)
    clear -IH. revert IH. generalize (remove_nth j cs). intros l.
    generalize (S k) at 1. generalize (S k).
    induction l as [|y l IHl]; intros a b; cbn; [reflexivity|].
    destruct (String.eqb (name y) n); [discriminate | apply IHl].
Qed.

Lemma FindChild_removed d (n : string) (i : nat) (m : Directory D) :
  unique_child_names d -> FindChild d n = Some (i, m) ->
  FindChild (set_children d (remove_nth i (children d))) n = None.
Proof.
  intros Hu Hf. unfold FindChild in *. cbn.
  rewrite <- (Nat.sub_0_r i). now apply find_child_from_removed with m.
Qed.

(** What an [Unmount] that returns true has done. *)
Lemma Unmount_true_inv st u st1 (log : list (Lifecycle D)) rt :
  root st = Some rt ->
  Unmount st u = (Return true st1, log) ->
  exists db,
    uri (LookupDirectory rt u) = None
    /\ mounted_database (directory (LookupDirectory rt u)) = Some db
    /\ st1 = set_root (Some (Delete (location (LookupDirectory rt u))
                              (update_at (set_mounted_database None)
                                 (location (LookupDirectory rt u)) rt))) st.
Proof.
  intros Hr. unfold Unmount, LockUmountSteal. rewrite Hr.
  destruct (uri (LookupDirectory rt u)); [discriminate|].
  destruct (mounted_database (directory (LookupDirectory rt u))) as [db|]; [|discriminate].
  destruct (db_Close db) as [[] db'|e db'|]; try discriminate.
  intros [= <- _]. now exists db.
Qed.

(** X4. After [Unmount] has returned true on a tree with unique child
    names, the mount point is gone: a second [Unmount] of the same URI
    returns false and changes nothing, [GetSong] of any path below it
    raises NOT_FOUND, and the URI is free for [Mount] again. *)
Theorem Unmount_then_lookup st u st1 (log : list (Lifecycle D)) rt :
  root st = Some rt -> IsMount rt = false -> unique_names rt ->
  Unmount st u = (Return true st1, log) ->
  Unmount st1 u = (Return false st1, [])
  /\ (ready st1 ->
      forall x, is_error_of NOT_FOUND (GetSong st1 (u ++ String slash x)))
  /\ (forall db2, exists st2, Mount st1 u db2 = Return tt st2).
Proof.
  intros Hr Hplain Huniq HU.
  destruct (@Unmount_true_inv st u st1 log rt Hr HU) as (db & Huri & Hm & ->).
  pose proof (@LookupDirectory_mount_below_root D rt u db Hplain Hm) as Hne.
  assert (Hu : u <> EmptyString) by (intros ->; now apply Hne).
  destruct (LookupDirectory_descends rt Hu)
    as (consumed & remaining & Hseg & Hd & Huri' & _).
  rewrite Huri in Huri'.
  destruct remaining; [|discriminate]. rewrite app_nil_r in Hseg. subst consumed.
  destruct (@descends_snoc_inv _ _ _ _ Hd Hne)
    as (cs & s & p & i & parent & Hseg & Hloc & Hdp & Hmp & Hf).
  rewrite Hloc. rewrite Delete_cleared, Delete_app.
  set (h := fun d : Directory D => set_children d (remove_nth i (children d))).
  set (rt1 := update_at h p rt).
  assert (Hd1 : descends rt1 cs p (h parent))
    by (apply descends_update; [reflexivity | exact Hdp]).
  assert (Hf1 : FindChild (h parent) s = None).
  { apply FindChild_removed with (directory (LookupDirectory rt u)); [|exact Hf].
    apply (Huniq p). now apply descends_dir_at with cs. }
  assert (Hs : has_slash s = false).
  { apply (segments_no_slash u). rewrite Hseg. apply in_or_app. right. now left. }
  assert (HW : forall more,
             walk rt1 [] (segments u ++ more)
             = mkLookupResult (h parent) p (Some (join (s :: more)))).
  { intros more. rewrite Hseg, <- app_assoc.
    rewrite (@descends_walk D _ _ _ _ [] ([s] ++ more) Hd1).
    cbn [app walk]. unfold IsMount in Hmp |- *. cbn [h set_children mounted_database].
    destruct (mounted_database parent); [discriminate|]. now rewrite Hf1. }
  assert (HL : LookupDirectory rt1 u = mkLookupResult (h parent) p (Some s)).
  { unfold LookupDirectory. rewrite (@is_empty_false u Hu).
    specialize (HW []). now rewrite app_nil_r in HW. }
  assert (Hnm : mounted_database (h parent) = None).
  { unfold IsMount in Hmp. cbn. now destruct (mounted_database parent). }
  split; [|split].
  - unfold Unmount, LockUmountSteal. cbn [root set_root]. now rewrite HL.
  - intros Hready x.
    rewrite (@GetSong_ready D _ (set_root (Some rt1) st) (u ++ String slash x) rt1
               eq_refl Hready).
    cbv zeta. unfold LookupDirectory.
    rewrite is_empty_app_slash, segments_app_slash, HW.
    cbn [directory uri]. rewrite Hnm.
    pose proof (segments_nonempty x) as Hnx.
    destruct (segments x) as [|a l]; [congruence|].
    rewrite has_slash_join_two. apply not_found_is_error.
  - intros db2. unfold Mount. rewrite (@is_empty_false u Hu). cbn [root set_root].
    rewrite HL. cbn [uri]. rewrite Hs. now eexists.
Qed.

End UnmountLookup.

(** ** The life cycle of a database object *)

Section LifeCycle.

Context {D : Type}.

Variable build : Build.
Variable env : Environment D.

Implicit Types (st : SimpleDatabase D).

(** The members [Open] neither reads nor keeps are irrelevant to it. *)
Lemma Open_congr st st0 :
  path st = path st0 -> path_utf8 st = path_utf8 st0 ->
  compress st = compress st0 -> cache_path st = cache_path st0 ->
  prefixed_light_song st = prefixed_light_song st0 ->
  light_song st = light_song st0 ->
  Open build env st = Open build env st0.
Proof.
  destruct st, st0; cbn. intros -> -> -> -> -> ->. reflexivity.
Qed.

(** [Open] keeps the configuration and the slot. *)
Lemma Open_frame st (o : Outcome (SimpleDatabase D) unit) :
  Open build env st = o ->
  match o with
  | Return _ s | Raise _ s =>
      path s = path st /\ path_utf8 s = path_utf8 st
      /\ compress s = compress st /\ cache_path s = cache_path st
      /\ prefixed_light_song s = None /\ light_song s = light_song st
      /\ borrowed_song_count s = 0
  | Abort => True
  end.
Proof.
  intros <-. unfold Open, Load, Check.
  destruct (prefixed_light_song st) eqn:Hp; [exact I|]. cbn.
  destruct (path st) as [p|] eqn:Hpath; [|exact I].
  destruct (db_load_internal env p NewRoot) as [tree|e partial]; cbn.
  - destruct (FileInfo_of env p); cbn; rewrite ?Hpath, ?Hp; auto 10.
  - rewrite Hpath.
    destruct (negb (PathExists env p)).
    + destruct (FileInfo_of env (GetDirectoryName env p)) as [e1|fi]; cbn;
        rewrite ?Hpath, ?Hp; auto 10.
      destruct (negb (IsDirectory fi)); cbn; rewrite ?Hpath, ?Hp; auto 10.
      destruct (negb (WIN32 build) && _); cbn; rewrite ?Hpath, ?Hp; auto 10.
    + destruct (FileInfo_of env p) as [e1|fi]; cbn; rewrite ?Hpath, ?Hp; auto 10.
      destruct (negb (IsRegular fi)); cbn; rewrite ?Hpath, ?Hp; auto 10.
      destruct (negb (WIN32 build) && _); cbn; rewrite ?Hpath, ?Hp; auto 10.
Qed.

Lemma Check_not_abort st (p : string) :
  path st = Some p -> Check build env st <> Abort.
Proof.
  intros Hp. unfold Check. rewrite Hp.
  destruct (negb (PathExists env p)).
  - destruct (FileInfo_of env (GetDirectoryName env p)) as [e|fi]; [discriminate|].
    destruct (negb (IsDirectory fi)); [discriminate|].
    destruct (negb (WIN32 build) && _); discriminate.
  - destruct (FileInfo_of env p) as [e|fi]; [discriminate|].
    destruct (negb (IsRegular fi)); [discriminate|].
    destruct (negb (WIN32 build) && _); discriminate.
Qed.

(** None of the assertions on the way through [Open], [Load] and [Check]
    can fail on an object that has a path and no wrapper. *)
Lemma Open_not_abort st (p : string) :
  prefixed_light_song st = None -> path st = Some p ->
  Open build env st <> Abort.
Proof.
  intros Hpre Hp. unfold Open. rewrite Hpre. unfold Load. cbn [path root set_borrowed_song_count set_mtime set_root].
  rewrite Hp.
  destruct (db_load_internal env p NewRoot) as [tree|e partial].
  - destruct (FileInfo_of env p); discriminate.
  - set (st3 := set_root None _).
    pose proof (@Check_not_abort st3 p Hp) as Hc.
    destruct (Check build env st3); [discriminate | discriminate | congruence].
Qed.

(** X9. An object made by either constructor can be opened: whatever
    the file system does, [Open] fails none of its assertions (nor those
    of [Load] and [Check]); when it returns, the database has a root,
    nothing is borrowed, the slot is empty and the configured paths are in
    place.  The constructor from a configuration block throws exactly when
    the block has no path. *)
Theorem Open_after_construction (block : ConfigBlock) (p : string) (c : bool) :
  ((exists st, SimpleDatabase_of_block build block = inr st)
   <-> block_path block <> None)
  /\ (forall st,
        SimpleDatabase_of_block build block = inr st
        \/ st = SimpleDatabase_of_path build (Some p) c ->
        Open build env st <> Abort
        /\ forall st',
             Open build env st = Return tt st' ->
             (exists rt, root st' = Some rt) /\ ready st' /\ light_song st' = None
             /\ path st' = path st /\ cache_path st' = cache_path st).
Proof.
  split.
  - unfold SimpleDatabase_of_block. destruct (block_path block) as [q|].
    + split; [discriminate | intros _; now eexists].
    + split; [intros [st Hst]; discriminate | congruence].
  - intros st Hst.
    assert (Hinit : prefixed_light_song st = None /\ light_song st = None
                    /\ exists q, path st = Some q).
    { destruct Hst as [Hst| ->].
      - unfold SimpleDatabase_of_block in Hst.
        destruct (block_path block) as [q|]; [|discriminate].
        injection Hst as <-. cbn. eauto.
      - cbn. eauto. }
    destruct Hinit as (Hpre & Hls & q & Hq).
    split; [now apply Open_not_abort with q|].
    intros st' Ho. pose proof (Open_returns _ _ _ Ho) as [Hroot Hready].
    pose proof (@Open_frame st _ Ho) as (Hp' & _ & _ & Hcp & _ & Hls' & _).
    repeat split; try assumption; try apply Hready. congruence.
Qed.

(** X10. How [Open] ends, on an object with a path and no wrapper.
    When the database file decodes, [Open] returns with the decoded tree
    as the root and with the modification time of the file (the minimal
    time when the file cannot be inspected); [Check] is not run then, so
    the database opens also when the file could not be written.  [Open]
    returns exactly when the file decodes or [Check] passes, and an
    exception that leaves [Open] is the one [Check] threw after a failed
    load, with the root deleted. *)
Theorem Open_outcome (st : SimpleDatabase D) (p : string) :
  prefixed_light_song st = None ->
  path st = Some p ->
  (forall tree,
      db_load_internal env p NewRoot = Loaded tree ->
      exists st',
        Open build env st = Return tt st'
        /\ root st' = Some tree
        /\ mtime st' = match FileInfo_of env p with
                       | inr fi => GetModificationTime fi
                       | inl _ => time_point_min
                       end
        /\ ready st')
  /\ ((exists st', Open build env st = Return tt st')
      <-> (exists tree, db_load_internal env p NewRoot = Loaded tree)
          \/ Check build env st = Return tt st)
  /\ (forall e st',
        Open build env st = Raise e st' ->
        (exists e0 partial, db_load_internal env p NewRoot = LoadFailed e0 partial)
        /\ Check build env st = Raise e st
        /\ root st' = None).
Proof.
  intros Hpre Hp.
  set (st1 := set_borrowed_song_count 0
                (set_mtime time_point_min (set_root (Some NewRoot) st))).
  assert (HO : Open build env st
               = match db_load_internal env p NewRoot with
                 | Loaded tree =>
                     match FileInfo_of env p with
                     | inr fi => Return tt (set_mtime (GetModificationTime fi)
                                              (set_root (Some tree) st1))
                     | inl _ => Return tt (set_root (Some tree) st1)
                     end
                 | LoadFailed _ partial =>
                     match Check build env st with
                     | Return _ _ =>
                         Return tt (set_root (Some NewRoot)
                                      (set_root None (set_root (Some partial) st1)))
                     | Raise e' _ =>
                         Raise e' (set_root None (set_root (Some partial) st1))
                     | Abort => Abort
                     end
                 end).
  { unfold Open. rewrite Hpre. fold st1. unfold Load.
    replace (path st1) with (Some p) by (symmetry; exact Hp).
    replace (root st1) with (Some (@NewRoot D)) by reflexivity.
    destruct (db_load_internal env p NewRoot) as [tree|e partial].
    - now destruct (FileInfo_of env p).
    - rewrite (@Check_frame D build env
                 (set_root None (set_root (Some partial) st1)) st eq_refl eq_refl).
      now destruct (Check build env st). }
  pose proof (@Check_state D build env st _ eq_refl) as HC.
  split; [|split].
  - intros tree Hl. rewrite HO, Hl.
    destruct (FileInfo_of env p); eexists; (split; [reflexivity|]);
      cbn; unfold ready; cbn; auto.
  - rewrite HO. destruct (db_load_internal env p NewRoot) as [tree|e partial].
    + split; [intros _; left; now exists tree|].
      intros _. destruct (FileInfo_of env p); now eexists.
    + destruct (Check build env st) as [[] s|e' s|].
      * subst s. split; [now right | intros _; now eexists].
      * split; [intros [st' Hx]; discriminate|].
        intros [[tree Hx]|Hx]; discriminate.
      * split; [intros [st' Hx]; discriminate|].
        intros [[tree Hx]|Hx]; discriminate.
  - intros e st'. rewrite HO.
    destruct (db_load_internal env p NewRoot) as [tree|e0 partial].
    + destruct (FileInfo_of env p); discriminate.
    + destruct (Check build env st) as [[] s|e' s|]; try discriminate.
      subst s. intros [= <- <-]. split; [now exists e0, partial|].
      split; reflexivity.
Qed.

(** X11. A database that has been opened can be closed at once, and
    opening it again on the same file system gives the state of the first
    opening. *)
Theorem Open_Close_Open st st1 :
  Open build env st = Return tt st1 ->
  Close st1 = Return tt (set_root None st1)
  /\ Open build env (set_root None st1) = Return tt st1.
Proof.
  intros Ho. split; [now apply Close_after_Open with build env st|].
  pose proof (@Open_frame st _ Ho) as (Hp & Hu & Hc & Hcp & Hpre & Hls & _).
  rewrite <- Ho. apply Open_congr; cbn; try assumption.
  destruct (prefixed_light_song st) eqn:E; [|exact Hpre].
  unfold Open in Ho. rewrite E in Ho. discriminate.
Qed.

End LifeCycle.

(** ** Borrowing and returning *)

Section BorrowRoundTrip.

Context {D : Type} `{Database D}.

Implicit Types (st : SimpleDatabase D) (u : string).

Lemma set_root_same st : set_root (root st) st = st.
Proof. now destruct st. Qed.

(** What [GetSong] has done when it returns the slot pointer. *)
Lemma GetSong_SlotPtr_inv st u st1 :
  GetSong st u = Return SlotPtr st1 ->
  ready st
  /\ exists song,
       st1 = set_borrowed_song_count 1 (set_light_song (Some (Export song)) st).
Proof.
  intros Hg. destruct (GetSong_entry st u) as (rt & Hr & Hready); [congruence|].
  split; [exact Hready|].
  rewrite (GetSong_ready u Hr Hready) in Hg. cbv zeta in Hg.
  destruct (mounted_database (directory (LookupDirectory rt u))) as [db|].
  - destruct (db_GetSong db _) as [[song|] db'| |]; discriminate.
  - destruct (uri (LookupDirectory rt u)) as [rest|]; [|discriminate].
    destruct (has_slash rest); [discriminate|].
    destruct (FindSong _ rest) as [song|]; [|discriminate].
    injection Hg as <-. now exists song.
Qed.

(** X7. Returning what [GetSong] handed out undoes the borrow.  After a
    direct borrow, [ReturnSong] of the slot pointer gives back the state
    before the [GetSong] (when the slot was empty then); after a delegated
    borrow, [ReturnSong] gives back that state except for what the mounted
    database did to itself.  The assertion of [ReturnSong] catches a heap
    pointer returned for a direct borrow, but not the slot pointer returned
    for a delegated one, which frees the wrapper all the same. *)
Theorem GetSong_then_ReturnSong st u (p : LightSongPtr) st1 :
  GetSong st u = Return p st1 -> p <> NullPtr ->
  light_song st = None ->
  ReturnSong st1 p = Return tt (set_root (root st1) st)
  /\ (p = SlotPtr ->
      ReturnSong st1 p = Return tt st /\ ReturnSong st1 HeapPtr = Abort)
  /\ (p = HeapPtr ->
      ReturnSong st1 SlotPtr = Return tt (set_root (root st1) st)).
Proof.
  intros Hg Hp Hls. destruct p; [congruence| |].
  - destruct (@GetSong_SlotPtr_inv st u st1 Hg) as ([Hpre Hc] & song & ->).
    assert (E : ReturnSong
                  (set_borrowed_song_count 1 (set_light_song (Some (Export song)) st))
                  SlotPtr = Return tt st).
    { unfold ReturnSong. cbn. rewrite Hpre. f_equal.
      destruct st; cbn in *. now subst. }
    split; [|split].
    + cbn [root set_borrowed_song_count set_light_song]. now rewrite set_root_same.
    + intros _. split; [exact E|]. unfold ReturnSong. cbn. now rewrite Hpre.
    + discriminate.
  - destruct (@GetSong_HeapPtr_inv D _ st u st1 Hg)
      as (rt & db & song & db' & Hr & [Hpre Hc] & _ & _ & ->).
    assert (E : forall q, q <> NullPtr ->
                ReturnSong
                  (set_prefixed_light_song
                     (Some (mkPrefixedLightSong song
                              (GetPath rt (location (LookupDirectory rt u)))))
                     (set_root (Some (update_at (set_mounted_database (Some db'))
                                        (location (LookupDirectory rt u)) rt)) st)) q
                = Return tt (set_root (Some (update_at (set_mounted_database (Some db'))
                                               (location (LookupDirectory rt u)) rt)) st)).
    { intros q Hq. unfold ReturnSong. cbn.
      destruct q; [congruence| |]; f_equal; destruct st; cbn in *; now subst. }
    split; [|split].
    + now apply E.
    + discriminate.
    + intros _. now apply E.
Qed.

(** One call keeps the borrow state consistent. *)
Lemma step_one_borrow st (req : Request D) st' :
  one_borrow st -> step st req = Some st' -> one_borrow st'.
Proof.
  unfold one_borrow. intros [Hle Hiff].
  destruct req as [u|song|u db|u|]; cbn [step].
  - unfold GetSong.
    destruct (root st) as [rt|]; [|discriminate].
    destruct (prefixed_light_song st) eqn:Hp; [discriminate|].
    destruct (borrowed_song_count st) eqn:Hc; [|discriminate].
    destruct (mounted_database (directory (LookupDirectory rt u))) as [db|].
    + destruct (db_GetSong db _) as [[s|] db'|e db'|]; cbn; try discriminate;
        intros [= <-]; cbn; rewrite ?Hp, ?Hc; cbn; (split; [lia | tauto]).
    + destruct (uri (LookupDirectory rt u)) as [rest|]; cbn.
      * destruct (has_slash rest); cbn;
          [intros [= <-]; rewrite Hp, Hc; cbn; split; [lia | tauto]|].
        destruct (FindSong _ rest); cbn; intros [= <-]; cbn; rewrite ?Hp, ?Hc; cbn.
        -- split; [lia|]. split; discriminate.
        -- split; [lia | tauto].
      * intros [= <-]. rewrite Hp, Hc. cbn. split; [lia | tauto].
  - unfold ReturnSong.
    destruct song, (prefixed_light_song st) eqn:Hp; cbn; try discriminate;
      try (intros [= <-]; cbn; rewrite ?Hp; cbn in *; split; [lia | tauto]).
    destruct (borrowed_song_count st) as [|n] eqn:Hc; cbn; [discriminate|].
    intros [= <-]. cbn. rewrite Hp. cbn in *. split; [lia|]. split; [lia | reflexivity].
  - unfold Mount. destruct (is_empty u); [discriminate|].
    destruct (root st) as [rt|]; [|discriminate].
    destruct (uri (LookupDirectory rt u)) as [rest|]; cbn.
    + destruct (has_slash rest); cbn; intros [= <-]; cbn; auto.
    + intros [= <-]. auto.
  - unfold Unmount, LockUmountSteal.
    destruct (root st) as [rt|]; [|discriminate].
    destruct (uri (LookupDirectory rt u)); cbn; [intros [= <-]; auto|].
    destruct (mounted_database (directory (LookupDirectory rt u))) as [db|];
      cbn; [|intros [= <-]; auto].
    destruct (db_Close db) as [[] db'|e db'|]; cbn; try discriminate;
      intros [= <-]; cbn; auto.
  - unfold Close.
    destruct (root st), (prefixed_light_song st) eqn:Hp;
      destruct (borrowed_song_count st) eqn:Hc; cbn; try discriminate.
    intros [= <-]. cbn. rewrite Hp, Hc. cbn. split; [lia | tauto].
Qed.

(** X8. Throughout every session on a database that was constructed and
    opened, at most one query result is outstanding, be it the slot or a
    prefixed wrapper, and the slot holds a song exactly while the borrow
    counter is one. *)
Theorem session_one_borrow (build : Build) (env : Environment D) st0 st1
    (reqs : list (Request D)) st' :
  light_song st0 = None ->
  Open build env st0 = Return tt st1 ->
  run st1 reqs = Some st' ->
  one_borrow st'.
Proof.
  intros Hls Ho Hrun.
  assert (H1 : one_borrow st1).
  { pose proof (@Open_frame D build env st0 _ Ho) as (_ & _ & _ & _ & Hp & Hl & Hc).
    unfold one_borrow. rewrite Hp, Hc, Hl, Hls. split; [lia | tauto]. }
  clear Ho. revert st1 H1 Hrun.
  induction reqs as [|req reqs IH]; intros st1 H1; cbn [run].
  - now intros [= <-].
  - destruct (step st1 req) as [s|] eqn:Hs; [|discriminate].
    apply IH. now apply step_one_borrow with st1 req.
Qed.

End BorrowRoundTrip.

(** ** Which storage identifiers share a cache file *)

(** A character that the name derivation turns into, or leaves as, an
    underscore. *)
Lemma sanitized_char_eq (ca cb : ascii) :
  (if IsUnsafeChar ca then "_"%char else ca)
  = (if IsUnsafeChar cb then "_"%char else cb)
  <-> ca = cb
      \/ ((IsSafeChar ca = false \/ ca = "_"%char)
          /\ (IsSafeChar cb = false \/ cb = "_"%char)).
Proof.
  unfold IsUnsafeChar.
  destruct (IsSafeChar ca) eqn:Ea, (IsSafeChar cb) eqn:Eb; cbn [negb]; split.
  - auto.
  - intros [E|[[Ha|Ha] [Hb|Hb]]]; congruence.
  - intros <-. right. auto.
  - intros [E|[[Ha|Ha] [Hb|Hb]]]; congruence.
  - intros ->. right. auto.
  - intros [E|[[Ha|Ha] [Hb|Hb]]]; congruence.
  - intros _. right. auto.
  - reflexivity.
Qed.

(** X12. Two storage identifiers are given the same cache file name
    exactly when they have the same length and, position by position,
    either the same character or two characters that are both unsafe or
    underscores. *)
Theorem cache_mount_name_collision (a b : string) :
  cache_mount_name a = cache_mount_name b
  <-> String.length a = String.length b
      /\ forall i ca cb,
           String.get i a = Some ca -> String.get i b = Some cb ->
           ca = cb
           \/ ((IsSafeChar ca = false \/ ca = "_"%char)
               /\ (IsSafeChar cb = false \/ cb = "_"%char)).
Proof.
  unfold cache_mount_name. revert b.
  induction a as [|ca a IH]; intros [|cb b]; cbn [replace_if String.length].
  - split; [|reflexivity]. intros _. split; [reflexivity|]. intros i x y; discriminate.
  - split; [discriminate | intros [Hl _]; discriminate].
  - split; [discriminate | intros [Hl _]; discriminate].
  - split.
    + intros [= Hc Ht]. apply IH in Ht as [Hl Hall]. split; [now rewrite Hl|].
      intros [|i] x y; cbn [String.get].
      * intros [= <-] [= <-]. now apply sanitized_char_eq.
      * apply Hall.
    + intros [Hl Hall]. f_equal.
      * apply sanitized_char_eq. now apply (Hall 0).
      * apply IH. split; [now injection Hl|].
        intros i x y. apply (Hall (S i)).
Qed.

(** ** A cache-backed mount that succeeds *)

Section CacheMountSuccess.

Context {D0 D : Type}.

Variable build : Build.
Variable env : Environment D0.
Variable upcast : SimpleDatabase D0 -> D.

Lemma Mount_not_abort (st : SimpleDatabase D) (u : string) (db : D)
    (rt : Directory D) :
  root st = Some rt -> u <> EmptyString -> Mount st u db <> Abort.
Proof.
  intros Hr Hu. unfold Mount. rewrite (@is_empty_false u Hu), Hr.
  destruct (uri (LookupDirectory rt u)) as [rest|]; [|discriminate].
  destruct (has_slash rest); discriminate.
Qed.

(** X13. On an open host with a cache directory and for a non-empty local
    URI, a cache-backed [Mount] fails no assertion.  It returns exactly
    when the new instance opens and the local URI resolves to a single new
    segment below an existing directory; then the instance mounted is the
    opened one, kept alive, whose database file is the sanitised storage
    identifier inside the cache directory and which has no cache directory
    of its own. *)
Theorem Mount_cache_returns (st : SimpleDatabase D) (local_uri storage_uri : string)
    (rt : Directory D) (cp : string) :
  root st = Some rt -> local_uri <> EmptyString -> cache_path st = Some cp ->
  let db := SimpleDatabase_of_path build
              (Some (Build_path cp (cache_mount_name storage_uri)))
              (if ENABLE_ZLIB build then compress st else false) in
  let result := Mount_cache build env upcast st local_uri storage_uri in
  fst result <> Abort
  /\ ((exists st', fst result = Return tt st')
      <-> (exists db1, Open build env db = Return tt db1)
          /\ exists rest, uri (LookupDirectory rt local_uri) = Some rest
                          /\ has_slash rest = false)
  /\ (forall st', fst result = Return tt st' ->
        exists db1,
          Open build env db = Return tt db1
          /\ Mount st local_uri (upcast db1) = Return tt st'
          /\ snd result = [Constructed db; Opened db1]
          /\ path db1 = Some (Build_path cp (cache_mount_name storage_uri))
          /\ cache_path db1 = None
          /\ ready db1).
Proof.
  intros Hr Hu Hcp db result. subst result. unfold Mount_cache. rewrite Hcp. fold db.
  pose proof (@Open_not_abort D0 build env db _ eq_refl eq_refl) as Hna.
  destruct (Open build env db) as [[] db1|e db1|] eqn:Ho; [| |congruence].
  - pose proof (@Mount_not_abort st local_uri (upcast db1) rt Hr Hu) as Hma.
    pose proof (@Open_frame D0 build env db _ Ho) as (Hp & _ & _ & Hc & _ & _ & _).
    pose proof (Open_returns _ _ _ Ho) as [_ Hready].
    destruct (Mount st local_uri (upcast db1)) as [[] s|e s|] eqn:Hm; [| |congruence].
    + cbn [fst snd]. split; [discriminate|]. split.
      * split; [intros _ | intros _; now eexists].
        split; [now exists db1|].
        destruct (@Mount_returns D st local_uri (upcast db1) s rt Hr Hm)
          as (rest & _ & Hrest & Hs & _).
        now exists rest.
      * intros st' [= <-]. exists db1.
        split; [reflexivity|]. split; [exact Hm|]. split; [reflexivity|].
        split; [exact Hp|]. split; [exact Hc | exact Hready].
    + rewrite (Close_after_Open _ _ _ Ho). cbn [fst snd].
      split; [discriminate|]. split; [|discriminate].
      split; [intros [st' Hx]; discriminate|].
      intros [_ (rest & Hrest & Hs)]. exfalso.
      unfold Mount in Hm. rewrite (@is_empty_false local_uri Hu), Hr, Hrest, Hs in Hm.
      discriminate.
  - cbn [fst snd]. split; [discriminate|]. split; [|discriminate].
    split; [intros [st' Hx]; discriminate | intros [[db1' Hx] _]; discriminate].
Qed.

End CacheMountSuccess.

Section NestedCacheMount.

Context {D00 D0 : Type}.

Variable build : Build.

(** X14. An instance made for a cache-backed mount has no cache directory:
    once opened, every cache-backed [Mount] on it raises NOT_FOUND and
    constructs nothing, whatever the paths and the file system. *)
Theorem Mount_cache_not_nested (env : Environment D0) (env' : Environment D00)
    (upcast : SimpleDatabase D00 -> D0) (q : option string) (c : bool)
    (db1 : SimpleDatabase D0) (local_uri storage_uri : string) :
  Open build env (SimpleDatabase_of_path build q c) = Return tt db1 ->
  Mount_cache build env' upcast db1 local_uri storage_uri
  = (Raise (DatabaseError NOT_FOUND "No 'cache_directory' configured") db1, []).
Proof.
  intros Ho.
  pose proof (@Open_frame D0 build env _ _ Ho) as (_ & _ & _ & Hc & _).
  unfold Mount_cache. cbn in Hc. now rewrite Hc.
Qed.

End NestedCacheMount.

(** ** Visit and GetSong on the path of a song *)

Section VisitGetSong.

Context {D : Type} `{Database D}.

Variable Walk : Directory D -> Location -> bool -> (LightSong -> bool) ->
                VisitDirectory -> VisitSong -> VisitPlaylist ->
                list VisitEvent -> VisitOutcome.
Variable WalkMount : string -> D -> string -> bool -> (LightSong -> bool) ->
                     VisitDirectory -> VisitSong -> VisitPlaylist ->
                     list VisitEvent -> VisitOutcome.

(** X15. [Visit] and [GetSong] agree on what is a song.  When a path
    resolves, on a node that is not a mount point, with a remainder, then
    for a selection of that path whose filter accepts every song and with
    a song visitor supplied: [GetSong] hands out a song exactly when
    [Visit] calls the song visitor with that song and nothing else, and
    [GetSong] raises NOT_FOUND exactly when [Visit] raises NOT_FOUND
    without having called a visitor. *)
Theorem Visit_agrees_with_GetSong (st : SimpleDatabase D)
    (selection : DatabaseSelection) (visit_directory : VisitDirectory)
    (f : LightSong -> option Exception) (visit_playlist : VisitPlaylist)
    (rt : Directory D) (rest : string) :
  root st = Some rt -> ready st ->
  mounted_database (directory (LookupDirectory rt (sel_uri selection))) = None ->
  uri (LookupDirectory rt (sel_uri selection)) = Some rest ->
  (forall song, filter selection song = true) ->
  let visited := Visit Walk WalkMount st selection visit_directory (Some f)
                   visit_playlist in
  let got := GetSong st (sel_uri selection) in
  (forall song,
      (exists st', got = Return SlotPtr st' /\ deref st' SlotPtr = Some song)
      <-> visit_log visited = [VisitedSong song])
  /\ (is_error_of NOT_FOUND got
      <-> visited = Raise (DatabaseError NOT_FOUND "No such directory") []).
Proof.
  intros Hr Hready Hm Hu Hacc visited got. subst visited got.
  rewrite (GetSong_ready (sel_uri selection) Hr Hready). cbv zeta.
  unfold Visit. rewrite Hr, Hm, Hu.
  destruct (has_slash rest) eqn:Hs; cbn [negb].
  - split.
    + intros song. split; [intros (st' & Hx & _); discriminate | discriminate].
    + split; [reflexivity | intros _; apply not_found_is_error].
  - destruct (FindSong (directory (LookupDirectory rt (sel_uri selection))) rest)
      as [song0|] eqn:Hf.
    + unfold Match. rewrite Hacc. rewrite call_visitor_log. split.
      * intros song. split.
        -- intros (st' & [= <-] & Hd). cbn in Hd. congruence.
        -- intros [= <-]. eexists. split; reflexivity.
      * split.
        -- intros He. now apply Return_not_error in He.
        -- unfold call_visitor. destruct (f (Export song0)); discriminate.
    + split.
      * intros song. split; [intros (st' & Hx & _); discriminate | discriminate].
      * split; [reflexivity | intros _; apply not_found_is_error].
Qed.

End VisitGetSong.

(** ** Mount, then ask for the mount point itself *)

Section MountPointItself.

Context {D0 : Type} `{Database D0}.

Variable Walk : Directory (SimpleDatabase D0) -> Location -> bool ->
                (LightSong -> bool) ->
                VisitDirectory -> VisitSong -> VisitPlaylist ->
                list VisitEvent -> VisitOutcome.
Variable WalkMount : string -> SimpleDatabase D0 -> string -> bool ->
                     (LightSong -> bool) ->
                     VisitDirectory -> VisitSong -> VisitPlaylist ->
                     list VisitEvent -> VisitOutcome.

(** X6. [GetSong] hands the mounted database the remainder of the path
    as it is, also when there is none, whereas [Visit] puts the empty
    string in its place.  So after a simple database has been mounted at
    [u] below a plain directory, [Visit] of [u] walks the mounted database
    from its root, with [u] as the prefix, and [Visit] of [u/x] walks it
    from [x]; but [GetSong] of [u] enters the mounted database's [GetSong]
    with a null URI, which it does not survive. *)
Theorem Mount_then_query_mount_point (st : SimpleDatabase (SimpleDatabase D0))
    (u : string) (db : SimpleDatabase D0) st1
    (rt : Directory (SimpleDatabase D0)) (selection : DatabaseSelection)
    (visit_directory : VisitDirectory) (visit_song : VisitSong)
    (visit_playlist : VisitPlaylist) :
  root st = Some rt -> ready st ->
  IsMount (directory (LookupDirectory rt u)) = false ->
  Mount st u db = Return tt st1 ->
  GetSong st1 u = Abort
  /\ (sel_uri selection = u ->
      Visit Walk WalkMount st1 selection visit_directory visit_song visit_playlist
      = WalkMount u db EmptyString (recursive selection) (filter selection)
          visit_directory visit_song visit_playlist [])
  /\ (forall x,
        sel_uri selection = (u ++ String slash x)%string ->
        Visit Walk WalkMount st1 selection visit_directory visit_song visit_playlist
        = WalkMount u db x (recursive selection) (filter selection)
            visit_directory visit_song visit_playlist []).
Proof.
  intros Hr Hready Hm HM.
  destruct (@Mount_returns _ st u db st1 rt Hr HM) as (rest & Hu & Hrest & Hs & ->).
  destruct (@Mount_lookup _ rt u rest db Hu Hrest Hs Hm) as (Hd & _ & HL & HLx).
  set (r := LookupDirectory rt u) in *.
  set (rt1 := update_at (with_mount rest db) (location r) rt) in *.
  set (mnt := location r ++ [length (children (directory r))]) in *.
  assert (HP : GetPath rt1 mnt = u).
  { unfold GetPath. rewrite (@descends_names _ _ _ _ _ Hd). apply join_segments. }
  split; [|split].
  - apply (@GetSong_mount_point_itself D0 _ (set_root (Some rt1) st) u rt1 db);
      [reflexivity | exact Hready | now rewrite HL | now rewrite HL].
  - intros Hsel. unfold Visit. cbn [root set_root]. rewrite Hsel, HL.
    cbn [directory uri location mounted_database mount_node]. now rewrite HP.
  - intros x Hsel. unfold Visit. cbn [root set_root]. rewrite Hsel, HLx.
    cbn [directory uri location mounted_database mount_node]. now rewrite HP.
Qed.

End MountPointItself.

(** ** Save *)

Section SaveFacts.

Context {D : Type}.

Variable build : Build.
Variable PruneEmpty : Directory D -> Directory D.
Variable Sort : Directory D -> Directory D.
Variable io : SaveIO.

Implicit Types (st : SimpleDatabase D).

(** The shape of the statement below when a step has thrown. *)
Ltac save_raised step E :=
  cbn [fst snd app];
  split; [discriminate|];
  split; [split; [intros [? Hx]; discriminate Hx
                 | intros Hall;
                   assert (Hnone : throws _ step = None)
                     by (apply Hall; intros [?|?];
                         first [discriminate | reflexivity | assumption]);
                   rewrite E in Hnone; discriminate Hnone]|];
  split; [split; [intros [? Hx]; discriminate Hx
                 | cbn; intuition discriminate]|];
  split; [cbn; intros ev Hin;
          repeat (destruct Hin as [<-|Hin]; [first [reflexivity | exact I]|]);
          contradiction|];
  split; [intros ? Hx; discriminate Hx|];
  intros ? ? [= _ <-]; reflexivity.

(** The same when every step went through. *)
Ltac save_returned :=
  cbn [fst snd app];
  split; [discriminate|];
  split; [split; [intros _ [] Hg; first [assumption
                                        | discriminate (Hg (or_introl eq_refl))
                                        | discriminate (Hg (or_intror eq_refl))]
                 | intros _; now eexists]|];
  split; [split; [intros _; cbn; tauto | intros _; now eexists]|];
  split; [cbn; intros ev Hin;
          repeat (destruct Hin as [<-|Hin]; [first [reflexivity | exact I]|]);
          contradiction|];
  split; [intros ? [= <-]; split; [reflexivity | cbn; tauto]|];
  intros ? ? Hx; discriminate Hx.

(** X16. [Save] commits last and only after everything else went well.
    On a database with a root and a path it fails no assertion; it returns
    exactly when none of the steps it takes throws (the two gzip steps are
    taken only when compression is on), and exactly then the file has been
    committed.  Whether it returns or throws, the tree in memory has been
    pruned and sorted and the borrow state is untouched; what is written is
    that tree; a throw leaves the modification time as it was, a return
    sets it from the committed file when that can be inspected. *)
Theorem Save_commits_last st (rt : Directory D) (p : string) :
  root st = Some rt -> path st = Some p ->
  let result := Save build PruneEmpty Sort io st in
  let tree := Sort (PruneEmpty rt) in
  fst result <> Abort
  /\ ((exists st', fst result = Return tt st')
      <-> forall step,
            (step = StartGzip \/ step = FlushGzip -> uses_gzip build st = true) ->
            throws io step = None)
  /\ ((exists st', fst result = Return tt st') <-> In (Committed p) (snd result))
  /\ (forall ev, In ev (snd result) ->
        match ev with
        | Created q | Committed q => q = p
        | Written t => t = tree
        | GzipStarted | GzipFlushed => uses_gzip build st = true
        | BufferFlushed => True
        end)
  /\ (forall st',
        fst result = Return tt st' ->
        st' = match info_after_commit io with
              | Some fi => set_mtime (GetModificationTime fi) (set_root (Some tree) st)
              | None => set_root (Some tree) st
              end
        /\ In (Written tree) (snd result))
  /\ (forall e st', fst result = Raise e st' -> st' = set_root (Some tree) st).
Proof.
  intros Hr Hp result tree. subst result tree. unfold Save. rewrite Hr, Hp.
  destruct (throws io OpenFile) eqn:E1; [save_raised OpenFile E1|].
  destruct (uses_gzip build st) eqn:Hz.
  - destruct (throws io StartGzip) eqn:E2; [save_raised StartGzip E2|].
    destruct (throws io WriteTree) eqn:E3; [save_raised WriteTree E3|].
    destruct (throws io FlushBuffer) eqn:E4; [save_raised FlushBuffer E4|].
    destruct (throws io FlushGzip) eqn:E5; [save_raised FlushGzip E5|].
    destruct (throws io CommitFile) eqn:E6; [save_raised CommitFile E6|].
    destruct (info_after_commit io); save_returned.
  - destruct (throws io WriteTree) eqn:E3; [save_raised WriteTree E3|].
    destruct (throws io FlushBuffer) eqn:E4; [save_raised FlushBuffer E4|].
    destruct (throws io CommitFile) eqn:E6; [save_raised CommitFile E6|].
    destruct (info_after_commit io); save_returned.
Qed.

End SaveFacts.

(** ** Unique child names *)

Section UniqueNames.

Context {D : Type} `{Database D}.

Implicit Types (st : SimpleDatabase D) (d rt : Directory D) (u : string).

Lemma nth_error_update_nth_neq {A} (f : A -> A) (i j : nat) (l : list A) :
  i <> j -> nth_error (update_nth i f l) j = nth_error l j.
Proof.
  revert i j; induction l as [|x l IH]; intros [|i] [|j] Hne; cbn;
    try reflexivity; try congruence.
  apply IH. congruence.
Qed.

Lemma map_name_update_nth (f : Directory D -> Directory D) (i : nat)
    (l : list (Directory D)) :
  (forall x, name (f x) = name x) ->
  map (@name D) (update_nth i f l) = map (@name D) l.
Proof.
  intros Hn. revert i; induction l as [|x l IH]; intros [|i]; cbn;
    try reflexivity; [now rewrite Hn | now rewrite IH].
Qed.

Lemma unique_names_child rt (i : nat) (c : Directory D) :
  unique_names rt -> nth_error (children rt) i = Some c -> unique_names c.
Proof.
  intros Hu Hn loc d Hd. apply (Hu (i :: loc)). cbn. now rewrite Hn.
Qed.

(** A write that keeps names and puts a well-named subtree in place keeps
    the names of the whole tree unique. *)
Lemma unique_names_update (f : Directory D -> Directory D) (loc : Location) :
  (forall x, name (f x) = name x) ->
  forall rt,
    unique_names rt ->
    (forall d, dir_at rt loc = Some d -> unique_names (f d)) ->
    unique_names (update_at f loc rt).
Proof.
  intros Hn. induction loc as [|i loc IH]; intros rt Hu Hf.
  - cbn. now apply Hf.
  - intros [|j q] d; cbn [update_at dir_at].
    + intros [= <-]. unfold unique_child_names. cbn.
      rewrite map_name_update_nth by (intros x; now apply name_update_at).
      exact (Hu [] rt eq_refl).
    + cbn [children set_children]. destruct (Nat.eq_dec i j) as [<-|Hne].
      * rewrite nth_error_update_nth.
        destruct (nth_error (children rt) i) as [c|] eqn:Hc; cbn; [|discriminate].
        apply IH.
        -- now apply unique_names_child with rt i.
        -- intros d0 Hd0. apply Hf. cbn. now rewrite Hc.
      * rewrite nth_error_update_nth_neq by exact Hne.
        intros Hd. apply (Hu (j :: q)). exact Hd.
Qed.

Lemma NoDup_snoc {A} (l : list A) (x : A) :
  NoDup l -> ~ In x l -> NoDup (l ++ [x]).
Proof.
  induction 1 as [|y l Hy Hnd IH]; cbn; intros Hx.
  - constructor; [intros [] | constructor].
  - constructor.
    + rewrite in_app_iff. cbn. intuition congruence.
    + apply IH. intuition.
Qed.

Lemma find_child_from_None_inv (p : Directory D -> bool) (cs : list (Directory D)) :
  forall k, find_child_from p k cs = None -> forall c, In c cs -> p c = false.
Proof.
  induction cs as [|x cs IH]; intros k; cbn; [intros _ c []|].
  destruct (p x) eqn:E; [discriminate|].
  intros Hf c [<-|Hin]; [exact E | now apply IH with (S k)].
Qed.

Lemma FindChild_None_names d (n : string) :
  FindChild d n = None -> ~ In n (map (@name D) (children d)).
Proof.
  intros Hf Hin. apply in_map_iff in Hin as (c & Hc & Hin).
  pose proof (find_child_from_None_inv _ _ _ Hf c Hin) as Hx. cbn in Hx.
  apply String.eqb_neq in Hx. contradiction.
Qed.

Lemma unique_names_with_mount d (n : string) (db : D) :
  unique_names d -> FindChild d n = None -> unique_names (with_mount n db d).
Proof.
  intros Hu Hf [|j q] x; cbn [dir_at with_mount set_children children].
  - intros [= <-]. unfold unique_child_names. cbn. rewrite map_app. cbn.
    apply NoDup_snoc; [exact (Hu [] d eq_refl) | now apply FindChild_None_names].
  - destruct (Nat.lt_ge_cases j (length (children d))) as [Hlt|Hge].
    + rewrite nth_error_app1 by exact Hlt. intros Hd. apply (Hu (j :: q)). exact Hd.
    + rewrite nth_error_app2 by exact Hge.
      destruct (j - length (children d)) as [|k]; cbn.
      * destruct q as [|k q]; cbn; [|now destruct k].
        intros [= <-]. constructor.
      * now destruct k.
Qed.

Lemma NoDup_map_remove_nth (i : nat) (l : list (Directory D)) :
  NoDup (map (@name D) l) -> NoDup (map (@name D) (remove_nth i l)).
Proof.
  revert i; induction l as [|x l IH]; intros [|i] Hnd; cbn in *; try exact Hnd.
  - now inversion Hnd.
  - inversion Hnd as [|? ? Hx Hnd']; subst. constructor; [|now apply IH].
    intros Hin. apply Hx. clear -Hin.
    revert i Hin; induction l as [|y l IHl]; intros [|i]; cbn; auto.
    intros [E|Hin]; [now left | right; now apply IHl with i].
Qed.

Lemma nth_error_remove_nth {A} (i j : nat) (l : list A) :
  nth_error (remove_nth i l) j = nth_error l (if Nat.ltb j i then j else S j).
Proof.
  revert i j; induction l as [|x l IH]; intros i j.
  - destruct i; cbn; now rewrite !nth_error_nil.
  - destruct i as [|i]; [reflexivity|]. destruct j as [|j]; [reflexivity|].
    cbn [remove_nth nth_error]. rewrite IH.
    change (Nat.ltb (S j) (S i)) with (Nat.ltb j i). now destruct (Nat.ltb j i).
Qed.

Lemma unique_names_remove d (i : nat) :
  unique_names d -> unique_names (set_children d (remove_nth i (children d))).
Proof.
  intros Hu [|j q] x; cbn [dir_at set_children children].
  - intros [= <-]. unfold unique_child_names. cbn.
    apply NoDup_map_remove_nth. exact (Hu [] d eq_refl).
  - rewrite nth_error_remove_nth. intros Hd.
    apply (Hu ((if Nat.ltb j i then j else S j) :: q)). exact Hd.
Qed.

Lemma unique_names_at rt (loc : Location) d :
  unique_names rt -> dir_at rt loc = Some d -> unique_names d.
Proof.
  revert rt; induction loc as [|i loc IH]; intros rt Hu; cbn.
  - now intros [= <-].
  - destruct (nth_error (children rt) i) as [c|] eqn:Hc; [|discriminate].
    apply IH. now apply unique_names_child with rt i.
Qed.

(** Below a plain directory [Mount] uses a name that no child has. *)
Lemma Mount_parent_fresh rt u (rest : string) :
  u <> EmptyString ->
  uri (LookupDirectory rt u) = Some rest -> has_slash rest = false ->
  IsMount (directory (LookupDirectory rt u)) = false ->
  FindChild (directory (LookupDirectory rt u)) rest = None.
Proof.
  intros Hu Hrest Hs Hm.
  destruct (LookupDirectory_descends rt Hu)
    as (consumed & remaining & _ & _ & Huri & Hstop).
  rewrite Hrest in Huri.
  destruct remaining as [|y remaining']; [discriminate|].
  injection Huri as Huri.
  assert (Hsingle : y :: remaining' = [rest]).
  { rewrite Huri in Hs |- *. apply join_no_slash_single; [discriminate | exact Hs]. }
  rewrite Hsingle in Hstop.
  destruct Hstop as [Hx|Hf]; [discriminate | congruence | exact Hf].
Qed.

Lemma unique_names_set_mounted rt (m : option D) :
  unique_names rt -> unique_names (set_mounted_database m rt).
Proof.
  intros Hu [|j q] d; cbn.
  - intros [= <-]. exact (Hu [] rt eq_refl).
  - intros Hd. apply (Hu (j :: q)). exact Hd.
Qed.

(** X17. Child names stay unique: on a tree in which no two children of
    a node have the same name, a [Mount] below a plain directory and every
    [Unmount] leave such a tree. *)
Theorem names_stay_unique st u (db : D) rt :
  root st = Some rt -> unique_names rt ->
  (forall st1,
      IsMount (directory (LookupDirectory rt u)) = false ->
      Mount st u db = Return tt st1 ->
      exists rt1, root st1 = Some rt1 /\ unique_names rt1)
  /\ (forall (b : bool) st1 (log : list (Lifecycle D)),
        Unmount st u = (Return b st1, log) ->
        exists rt1, root st1 = Some rt1 /\ unique_names rt1).
Proof.
  intros Hr Hu. split.
  - intros st1 Hm HM.
    destruct (@Mount_returns D st u db st1 rt Hr HM) as (rest & Hne & Hrest & Hs & ->).
    eexists. split; [reflexivity|].
    apply unique_names_update; [reflexivity | exact Hu |].
    intros d Hd. rewrite LookupDirectory_dir_at in Hd. injection Hd as <-.
    apply unique_names_with_mount.
    + apply unique_names_at with rt (location (LookupDirectory rt u));
        [exact Hu | apply LookupDirectory_dir_at].
    + now apply Mount_parent_fresh.
  - intros [|] st1 log HU.
    + destruct (@Unmount_true_inv D _ st u st1 log rt Hr HU) as (db0 & _ & Hm & ->).
      eexists. split; [reflexivity|].
      destruct (location (LookupDirectory rt u)) as [|j loc] eqn:Hloc using rev_ind.
      * cbn. now apply unique_names_set_mounted.
      * clear IHloc. rewrite Delete_cleared, Delete_app.
        apply unique_names_update; [reflexivity | exact Hu |].
        intros d Hd. apply unique_names_remove.
        now apply unique_names_at with rt loc.
    + exists rt. split; [|exact Hu].
      unfold Unmount, LockUmountSteal in HU. rewrite Hr in HU.
      destruct (uri (LookupDirectory rt u)).
      * injection HU as <- _. exact Hr.
      * destruct (mounted_database (directory (LookupDirectory rt u))) as [db1|].
        -- destruct (db_Close db1) as [[] db'|e db'|]; discriminate.
        -- injection HU as <- _. exact Hr.
Qed.

End UniqueNames.

(** ** The further statements at concrete inputs *)

Section FurtherInstances.

Import Fixture.

Ltac names_nodup :=
  intros [= <-]; unfold unique_child_names; cbn;
  repeat constructor; cbn; intuition discriminate.

Ltac names_leaf loc :=
  let k := fresh "k" in
  destruct loc as [|k loc]; cbn; [names_nodup | now destruct k].

Lemma tree0_unique_names : unique_names tree0.
Proof.
  intros loc d. destruct loc as [|i loc]; cbn; [names_nodup|].
  destruct i as [|[|i]]; cbn.
  - destruct loc as [|j loc]; cbn; [names_nodup|].
    destruct j as [|[|j]]; cbn; [names_leaf loc | names_leaf loc | now destruct j].
  - names_leaf loc.
  - now destruct i.
Qed.

Lemma Mount_then_Unmount_witness :
  root db0 = Some tree0
  /\ IsMount (directory (LookupDirectory tree0 "a/new")) = false
  /\ exists st1,
       Mount db0 "a/new" radio = Return tt st1
       /\ db_Close radio = Return tt radio
       /\ Unmount st1 "a/new" = (Return true db0, [Closed radio; Destroyed radio]).
Proof.
  split; [reflexivity|]. split; [reflexivity|].
  eexists. split; [vm_compute; reflexivity|]. split; [reflexivity|].
  refine (proj2 (@Mount_then_Unmount _ TableDatabase_Database db0 "a/new" radio radio _ tree0
                   eq_refl eq_refl _) eq_refl).
  vm_compute; reflexivity.
Defined.

Lemma Mount_twice_conflicts_witness :
  root db0 = Some tree0
  /\ IsMount (directory (LookupDirectory tree0 "a/new")) = false
  /\ exists st1,
       Mount db0 "a/new" radio = Return tt st1
       /\ Mount st1 "a/new" radio
          = Raise (DatabaseError CONFLICT "Already exists") st1.
Proof.
  split; [reflexivity|]. split; [reflexivity|].
  eexists. split; [vm_compute; reflexivity|].
  refine (@Mount_twice_conflicts _ db0 "a/new" radio radio _ tree0 eq_refl eq_refl _).
  vm_compute; reflexivity.
Defined.

Lemma Mount_then_GetSong_witness :
  root db0 = Some tree0 /\ ready db0
  /\ IsMount (directory (LookupDirectory tree0 "a/new")) = false
  /\ db_GetSong radio (Some "x.ogg") = Return (Some song_x) radio
  /\ exists st1 st2,
       Mount db0 "a/new" radio = Return tt st1
       /\ GetSong st1 "a/new/x.ogg" = Return HeapPtr st2
       /\ prefixed_light_song st2 = Some (mkPrefixedLightSong song_x "a/new").
Proof.
  assert (Hready : ready db0) by (split; reflexivity).
  split; [reflexivity|]. split; [exact Hready|]. split; [reflexivity|].
  split; [reflexivity|].
  assert (HM : exists st1, Mount db0 "a/new" radio = Return tt st1)
    by (eexists; vm_compute; reflexivity).
  destruct HM as [st1 HM]. exists st1.
  destruct (@Mount_then_GetSong _ TableDatabase_Database db0 "a/new" "x.ogg" radio st1 tree0
              eq_refl Hready eq_refl HM) as (_ & Hfound & _).
  destruct (Hfound song_x radio eq_refl) as (st2 & Hg & Hp).
  exists st2. split; [exact HM|]. split; [exact Hg | exact Hp].
Defined.

Lemma Unmount_then_lookup_witness :
  root db0 = Some tree0 /\ IsMount tree0 = false /\ unique_names tree0
  /\ exists st1,
       Unmount db0 "a/net" = (Return true st1, [Closed radio; Destroyed radio])
       /\ Unmount st1 "a/net" = (Return false st1, [])
       /\ is_error_of NOT_FOUND (GetSong st1 "a/net/x.ogg").
Proof.
  split; [reflexivity|]. split; [reflexivity|]. split; [exact tree0_unique_names|].
  eexists. split; [vm_compute; reflexivity|].
  match goal with
  | |- Unmount ?s _ = _ /\ _ =>
      destruct (@Unmount_then_lookup _ TableDatabase_Database db0 "a/net" s
                  [Closed radio; Destroyed radio] tree0
                  eq_refl eq_refl tree0_unique_names)
        as (Hagain & Hget & _); [vm_compute; reflexivity|]
  end.
  split; [exact Hagain|]. apply Hget. split; reflexivity.
Defined.

Lemma GetSong_mount_once_witness :
  exists st1 st2,
    root host_usb
    = Some (mkDirectory EmptyString
              [mkDirectory "usb" [] [] [] 0%Z (Some db0)] [] [] 0%Z None)
    /\ GetSong host_usb "usb/a/b.mp3" = Return HeapPtr st1
    /\ ReturnSong st1 HeapPtr = Return tt st2
    /\ GetSong st2 "usb/radio/x.ogg" = Abort
    /\ fst (Unmount st2 "usb") = Abort.
Proof.
  assert (H1 : exists st1, GetSong host_usb "usb/a/b.mp3" = Return HeapPtr st1)
    by (eexists; vm_compute; reflexivity).
  destruct H1 as [st1 H1].
  assert (H2 : exists st2, ReturnSong st1 HeapPtr = Return tt st2).
  { apply (@GetSong_HeapPtr_inv _ _ host_usb "usb/a/b.mp3" st1) in H1
      as (rt & db & song & db' & _ & _ & _ & _ & ->).
    eexists. reflexivity. }
  destruct H2 as [st2 H2].
  exists st1, st2. split; [reflexivity|]. split; [exact H1|]. split; [exact H2|].
  destruct (@GetSong_mount_once _ TableDatabase_Database host_usb "usb/a/b.mp3" st1 HeapPtr st2 _
              eq_refl H1 H2) as (_ & Hq & Hu).
  split; [apply Hq; reflexivity | apply Hu; reflexivity].
Defined.

Lemma Mount_then_query_mount_point_witness :
  ready host
  /\ exists st1,
       Mount host "usb" db0 = Return tt st1
       /\ GetSong st1 "usb" = Abort
       /\ Visit (fun _ _ _ _ _ _ _ log => Return tt log)
            (fun _ _ _ _ _ _ _ _ log => Return tt log)
            st1 (mkDatabaseSelection "usb" true (fun _ => true)) None None None
          = Return tt [].
Proof.
  assert (Hready : ready host) by (split; reflexivity).
  split; [exact Hready|].
  assert (HM : exists st1, Mount host "usb" db0 = Return tt st1)
    by (eexists; vm_compute; reflexivity).
  destruct HM as [st1 HM]. exists st1. split; [exact HM|].
  destruct (@Mount_then_query_mount_point _ TableDatabase_Database
              (fun _ _ _ _ _ _ _ log => Return tt log)
              (fun _ _ _ _ _ _ _ _ log => Return tt log)
              host "usb" db0 st1 _
              (mkDatabaseSelection "usb" true (fun _ => true)) None None None
              eq_refl Hready eq_refl HM) as (Hg & Hv & _).
  split; [exact Hg | exact (Hv eq_refl)].
Defined.

Lemma GetSong_then_ReturnSong_witness :
  light_song db0 = None
  /\ exists st1,
       GetSong db0 "a/b.mp3" = Return SlotPtr st1
       /\ ReturnSong st1 SlotPtr = Return tt db0.
Proof.
  split; [reflexivity|].
  assert (H1 : exists st1, GetSong db0 "a/b.mp3" = Return SlotPtr st1)
    by (eexists; vm_compute; reflexivity).
  destruct H1 as [st1 H1]. exists st1. split; [exact H1|].
  destruct (@GetSong_then_ReturnSong _ TableDatabase_Database db0 "a/b.mp3" SlotPtr st1 H1)
    as (_ & Hslot & _); [discriminate | reflexivity |].
  now destruct (Hslot eq_refl).
Defined.

Lemma session_one_borrow_witness :
  light_song db_new = None
  /\ exists st1 st',
       Open build0 env_loaded db_new = Return tt st1
       /\ run st1 session = Some st'
       /\ one_borrow st'.
Proof.
  split; [reflexivity|].
  eexists. eexists. split; [vm_compute; reflexivity|].
  split; [vm_compute; reflexivity|].
  refine (@session_one_borrow _ TableDatabase_Database build0 env_loaded db_new _ session _
            eq_refl _ _); vm_compute; reflexivity.
Defined.

Lemma Open_after_construction_witness :
  exists st st',
    SimpleDatabase_of_block build0 block0 = inr st
    /\ Open build0 (env_fresh TableDatabase) st = Return tt st'
    /\ ready st' /\ cache_path st' = Some "/cache".
Proof.
  destruct (@Open_after_construction TableDatabase build0 (env_fresh TableDatabase)
              block0 "/var/db" true) as [_ Hopen].
  eexists. eexists. split; [reflexivity|]. split; [vm_compute; reflexivity|].
  match goal with
  | |- ready ?s' /\ _ =>
      destruct (Hopen _ (or_introl eq_refl)) as [_ Hret];
      destruct (Hret s') as (_ & Hready & _ & _ & Hcp); [vm_compute; reflexivity|]
  end.
  split; [exact Hready | exact Hcp].
Defined.

Lemma Open_outcome_witness :
  prefixed_light_song db_new = None /\ path db_new = Some "/var/db"
  /\ db_load_internal env_loaded "/var/db" NewRoot = Loaded tree0
  /\ exists st', Open build0 env_loaded db_new = Return tt st'
                 /\ root st' = Some tree0 /\ mtime st' = 42%Z.
Proof.
  do 3 (split; [reflexivity|]).
  destruct (@Open_outcome _ build0 env_loaded db_new "/var/db" eq_refl eq_refl)
    as (Hload & _ & _).
  destruct (Hload tree0 eq_refl) as (st' & Ho & Hr & Hm & _).
  exists st'. split; [exact Ho|]. split; [exact Hr | exact Hm].
Defined.

Lemma Open_Close_Open_witness :
  exists st1,
    Open build0 env_loaded db_new = Return tt st1
    /\ Close st1 = Return tt (set_root None st1)
    /\ Open build0 env_loaded (set_root None st1) = Return tt st1.
Proof.
  eexists. split; [vm_compute; reflexivity|].
  refine (@Open_Close_Open _ build0 env_loaded db_new _ _).
  vm_compute; reflexivity.
Defined.

Lemma cache_mount_name_collision_witness :
  cache_mount_name "http://x/y:z" = cache_mount_name "http___x_y_z"
  /\ cache_mount_name "http://x/y:z" <> cache_mount_name "http://x/y:w".
Proof.
  split.
  - apply cache_mount_name_collision. split; [reflexivity|].
    intros i ca cb.
    do 12 (destruct i as [|i]; [intros [= <-] [= <-]; cbn; tauto|]).
    discriminate.
  - intros E. apply cache_mount_name_collision in E as [_ Hall].
    destruct (Hall 11 "z"%char "w"%char eq_refl eq_refl)
      as [Hx | [[Hx|Hx] _]]; discriminate Hx.
Defined.

Lemma Mount_cache_returns_witness :
  root host <> None /\ "radio" <> EmptyString /\ cache_path host = Some "/cache"
  /\ exists st' db1,
       fst (Mount_cache build0 (env_fresh TableDatabase) (fun db => db)
              host "radio" "http://x/y:z") = Return tt st'
       /\ Mount host "radio" db1 = Return tt st'
       /\ path db1 = Some "/cache/http___x_y_z".
Proof.
  assert (Hu : "radio" <> EmptyString) by discriminate.
  split; [discriminate|]. split; [exact Hu|]. split; [reflexivity|].
  destruct (@Mount_cache_returns _ _ build0 (env_fresh TableDatabase) (fun db => db)
              host "radio" "http://x/y:z" _ "/cache" eq_refl Hu eq_refl)
    as (_ & _ & Hret).
  eexists. 
  match goal with
  | |- exists db1, fst ?r = Return tt ?s /\ _ =>
      assert (Hfst : fst r = Return tt s) by (vm_compute; reflexivity)
  end.
  destruct (Hret _ Hfst) as (db1 & _ & Hm & _ & Hp & _).
  exists db1. split; [exact Hfst|]. split; [exact Hm | exact Hp].
Defined.

Lemma Mount_cache_not_nested_witness :
  exists db1,
    Open build0 (env_fresh TableDatabase)
      (SimpleDatabase_of_path build0 (Some "/cache/http___x_y_z") true)
    = Return tt db1
    /\ fst (Mount_cache build0 (env_fresh TableDatabase)
              (fun db : SimpleDatabase TableDatabase => radio) db1 "deeper" "nfs://y")
       = Raise (DatabaseError NOT_FOUND "No 'cache_directory' configured") db1.
Proof.
  eexists. split; [vm_compute; reflexivity|].
  rewrite (@Mount_cache_not_nested _ _ build0 (env_fresh TableDatabase)
             (env_fresh TableDatabase) (fun db => radio)
             (Some "/cache/http___x_y_z") true _ "deeper" "nfs://y");
    [reflexivity | vm_compute; reflexivity].
Defined.

Lemma Visit_agrees_with_GetSong_witness :
  root db0 = Some tree0 /\ ready db0
  /\ uri (LookupDirectory tree0 (sel_uri select_b)) = Some "b.mp3"
  /\ (exists st', GetSong db0 "a/b.mp3" = Return SlotPtr st'
                  /\ deref st' SlotPtr = Some (Export song_b))
  /\ visit_log (Visit walk_nothing walk_mount_nothing db0 select_b None
                  (Some (fun _ => None)) None)
     = [VisitedSong (Export song_b)].
Proof.
  assert (Hready : ready db0) by (split; reflexivity).
  split; [reflexivity|]. split; [exact Hready|]. split; [reflexivity|].
  destruct (@Visit_agrees_with_GetSong _ TableDatabase_Database walk_nothing walk_mount_nothing db0
              select_b None (fun _ => None) None tree0 "b.mp3"
              eq_refl Hready eq_refl eq_refl (fun _ => eq_refl)) as [Hsame _].
  assert (Hg : exists st', GetSong db0 (sel_uri select_b) = Return SlotPtr st'
                           /\ deref st' SlotPtr = Some (Export song_b))
    by (eexists; split; vm_compute; reflexivity).
  split; [exact Hg|]. now apply Hsame.
Defined.

Lemma Save_commits_last_witness :
  root db0 = Some tree0 /\ path db0 = Some "/var/db"
  /\ (exists st', fst (Save build0 (fun d => d) (fun d => d) io_ok db0) = Return tt st'
                  /\ mtime st' = 99%Z)
  /\ In (Committed "/var/db") (snd (Save build0 (fun d => d) (fun d => d) io_ok db0))
  /\ ~ In (Committed "/var/db")
         (snd (Save build0 (fun d => d) (fun d => d) io_full db0)).
Proof.
  split; [reflexivity|]. split; [reflexivity|].
  destruct (@Save_commits_last _ build0 (fun d => d) (fun d => d) io_ok db0 tree0
              "/var/db" eq_refl eq_refl) as (_ & Hret & Hcommit & _ & Hst & _).
  destruct (@Save_commits_last _ build0 (fun d => d) (fun d => d) io_full db0 tree0
              "/var/db" eq_refl eq_refl) as (_ & Hret' & Hcommit' & _).
  assert (Hok : exists st', fst (Save build0 (fun d => d) (fun d => d) io_ok db0)
                            = Return tt st')
    by (apply Hret; reflexivity).
  split; [|split].
  - destruct Hok as [st' Hst']. exists st'. split; [exact Hst'|].
    destruct (Hst st' Hst') as [-> _]. reflexivity.
  - now apply Hcommit.
  - intros Hin.
    assert (Hx : throws io_full FlushBuffer = None).
    { apply (proj1 Hret' (proj2 Hcommit' Hin)). intros [Hx|Hx]; discriminate Hx. }
    discriminate Hx.
Defined.

Lemma names_stay_unique_witness :
  root db0 = Some tree0 /\ unique_names tree0
  /\ IsMount (directory (LookupDirectory tree0 "a/new")) = false
  /\ exists st1 rt1,
       Mount db0 "a/new" radio = Return tt st1
       /\ root st1 = Some rt1 /\ unique_names rt1.
Proof.
  split; [reflexivity|]. split; [exact tree0_unique_names|]. split; [reflexivity|].
  assert (HM : exists st1, Mount db0 "a/new" radio = Return tt st1)
    by (eexists; vm_compute; reflexivity).
  destruct HM as [st1 HM]. exists st1.
  destruct (@names_stay_unique _ TableDatabase_Database db0 "a/new" radio tree0 eq_refl
              tree0_unique_names) as [Hmount _].
  destruct (Hmount st1 eq_refl HM) as (rt1 & Hr & Hu).
  exists rt1. split; [exact HM|]. split; [exact Hr | exact Hu].
Defined.

End FurtherInstances.
